(** * KiCadFiles: the S-expression binding engine of [kicadfiles/base_element.py]

    A shallow embedding of the generic parser/serializer ([ParseCursor],
    [KiCadPrimitive], [OptionalFlag], [OptionalSimpleFlag], [KiCadObject])
    together with the record declarations of [footprint_library.py] and
    [pad_and_drill.py] that the statements below are evaluated on. *)

From Stdlib Require Import ZArith Floats.
From stdpp Require Import base option list strings gmap pretty.

Set Default Proof Using "Type".
Set Warnings "-register-all".

(** ** Python values the engine manipulates *)

Inductive exn_class :=
  ValueError | TypeError | KeyError | OverflowError | AttributeError | RecursionError.

(** What the engine asks of the Python runtime on scalars.  The engine never
    computes with a float: it converts, compares and prints it, so the float
    type is kept abstract behind these operations. *)
Class PyBuiltins := {
  float : Type;
  (** [x == y] on two floats *)
  float_eqb : float → float → bool;
  (** [n == x] for an int and a float *)
  int_float_eqb : Z → float → bool;
  (** [bool(x)] *)
  float_truth : float → bool;
  (** [float(n)]; [None] is the [OverflowError] of an int out of range *)
  float_of_int : Z → option float;
  (** [float(s)]; [None] is [ValueError] *)
  float_of_str : string → option float;
  (** [int(x)], or the class of the exception ([ValueError] on [nan],
      [OverflowError] on an infinity) *)
  int_of_float : float → exn_class + Z;
  (** [int(s)]; [None] is [ValueError] *)
  int_of_str : string → option Z;
  (** [str(x)] and [repr(x)] on a float *)
  str_of_float : float → string;
  (** [s.lower()], [s.upper()] *)
  str_lower : string → string;
  str_upper : string → string;
  (** [repr(s)] on a str and on a [sexpdata.Symbol] *)
  repr_str : string → string;
  repr_symbol : string → string;
}.

(** A member of an [Enum] class: [cls.NAME = value]. *)
Record EnumMember := {
  enum_class : string;
  enum_name : string;
  enum_value : string;
}.

(** The declaration of an [Enum] class: its members in declaration order. *)
Record EnumClass := {
  ec_name : string;
  ec_members : list (string * string);   (* NAME, value *)
}.

Section Values.
Context {py : PyBuiltins}.

(** Scalars.  [sexpdata.Symbol] subclasses [str]: every [isinstance(_, str)]
    test of the engine accepts both. *)
Inductive atom :=
  | ANone
  | ABool (b : bool)
  | AInt (n : Z)
  | AFloat (x : float)
  | AStr (s : string)
  | ASymbol (s : string)
  | AEnum (e : EnumMember).

(** [SExpr]: an atom or a Python list of terms. *)
Inductive SExpr :=
  | Atom (a : atom)
  | SList (items : list SExpr).

(** [", ".join(l)], [" ".join(l)], ... *)
Fixpoint join (sep : string) (l : list string) : string :=
  match l with
  | [] => ""
  | [s] => s
  | s :: rest => s +:+ sep +:+ join sep rest
  end.

(** [str(a)] *)
Definition str_atom (a : atom) : string :=
  match a with
  | ANone => "None"
  | ABool true => "True"
  | ABool false => "False"
  | AInt n => pretty n
  | AFloat x => str_of_float x
  | AStr s => s
  | ASymbol s => s
  | AEnum e => enum_class e +:+ "." +:+ enum_name e
  end.

(** [repr(a)] *)
Definition repr_atom (a : atom) : string :=
  match a with
  | AStr s => repr_str s
  | ASymbol s => repr_symbol s
  | AEnum e =>
      "<" +:+ enum_class e +:+ "." +:+ enum_name e +:+ ": " +:+ repr_str (enum_value e) +:+ ">"
  | _ => str_atom a
  end.

(** [repr(t)]: a list prints the [repr] of its items between brackets. *)
Fixpoint py_repr (t : SExpr) : string :=
  match t with
  | Atom a => repr_atom a
  | SList items => "[" +:+ join ", " (map py_repr items) +:+ "]"
  end.

(** [str(t)] *)
Definition py_str (t : SExpr) : string :=
  match t with
  | Atom a => str_atom a
  | SList _ => py_repr t
  end.

(** [isinstance(t, list)] *)
Definition isinstance_list (t : SExpr) : bool :=
  match t with SList _ => true | Atom _ => false end.

(** [isinstance(t, (str, Symbol))] *)
Definition isinstance_str (t : SExpr) : bool :=
  match t with Atom (AStr _) | Atom (ASymbol _) => true | _ => false end.

(** [bool(t)] *)
Definition py_truth (t : SExpr) : bool :=
  match t with
  | SList items => negb (bool_decide (items = []))
  | Atom ANone => false
  | Atom (ABool b) => b
  | Atom (AInt n) => negb (Z.eqb n 0)
  | Atom (AFloat x) => float_truth x
  | Atom (AStr s) | Atom (ASymbol s) => negb (String.eqb s "")
  | Atom (AEnum _) => true
  end.

(** The sequence protocol ([t[i]], [t[1:]], [len(t)], iteration): a list is
    its items, a str is the sequence of its one-character strings; anything
    else raises [TypeError]. *)
Definition chars (s : string) : list SExpr :=
  map (λ c, Atom (AStr (String c ""))) (String.list_ascii_of_string s).

Definition as_sequence (t : SExpr) : option (list SExpr) :=
  match t with
  | SList items => Some items
  | Atom (AStr s) | Atom (ASymbol s) => Some (chars s)
  | Atom _ => None
  end.

End Values.

(** ** Exceptions, warnings and the parse monad *)

(** The text of an exception or of a logged warning, one constructor per
    f-string of the source, carrying what the f-string interpolates. *)
Inductive message :=
  (* "{path}: Missing required {type_name} '{field_name}' at index {index}" *)
  | MissingRequired (path type_name field_name : string) (index : nat)
  (* "{path}: Expected {type_name} for '{field_name}', got list" *)
  | ExpectedGotList (path type_name field_name : string)
  (* "{path}: Cannot convert '{value}' to {int|float} for '{field_name}': {e}" *)
  | CannotConvert (path value target field_name : string) (e : message)
  (* "{path}: Invalid enum value '{value}' for '{field_name}'" *)
  | InvalidEnumValue (path value field_name : string)
  (* "{path}: Required token '{token_name}' not found" *)
  | RequiredTokenNotFound (path token_name : string)
  (* "{path}: Required field '{name}' not found at index {index}" *)
  | RequiredFieldNotFound (path field_name : string) (index : nat)
  (* "{path}: Failed to parse '{name}': {e}" *)
  | FailedToParse (path field_name : string) (e : message)
  (* "Token mismatch at {path}: expected '{token_name}', got '{token}'" *)
  | TokenMismatch (path expected got : string)
  (* "{cls} requires cursor for parsing" *)
  | RequiresCursor (cls : string)
  (* "Class {cls} must define __token_name__" *)
  | MustDefineTokenName (cls : string)
  (* "Unknown field type: {field_type}" *)
  | UnknownFieldType
  (* raised by the Python runtime in the named operation; its text is not modelled *)
  | Runtime (operation : string).

Record exn := Exn { exn_cls : exn_class; exn_msg : message }.

Inductive outcome (A : Type) :=
  | Return (a : A)
  | Raise (e : exn).
Arguments Return {A} a.
Arguments Raise {A} e.

(** What a parse call mutates: the [used_indices] of the current cursor's
    [SExprParser], and the records handed to [logging.warning]. *)
Record state := State {
  used_indices : gset nat;
  warnings : list message;
}.

Definition M (A : Type) : Type := state → outcome A * state.

Definition ret {A} (a : A) : M A := λ st, (Return a, st).

Definition bind {A B} (m : M A) (k : A → M B) : M B :=
  λ st, match m st with
        | (Return a, st') => k a st'
        | (Raise e, st') => (Raise e, st')
        end.

Definition raise {A} (c : exn_class) (msg : message) : M A :=
  λ st, (Raise (Exn c msg), st).

#[global] Instance M_ret : MRet M := @ret.
#[global] Instance M_bind : MBind M := λ A B k m, bind m k.
#[global] Instance M_fmap : FMap M := λ A B f m, bind m (λ a, ret (f a)).

(** [try: body except (ValueError, TypeError) as e: handler(e)]: any other
    exception passes through; what [body] did to the state stays done. *)
Definition caught (e : exn) : bool :=
  match exn_cls e with ValueError | TypeError => true | _ => false end.

Definition try_except {A} (body : M A) (handler : exn → M A) : M A :=
  λ st, match body st with
        | (Raise e, st') => if caught e then handler e st' else (Raise e, st')
        | r => r
        end.

(** A builtin neither reads nor writes the parse state: it returns or
    raises.  [conv] names the exception of a conversion that has none. *)
#[global] Instance outcome_ret : MRet outcome := @Return.
#[global] Instance outcome_bind : MBind outcome :=
  λ A B k o, match o with Return a => k a | Raise e => Raise e end.
#[global] Instance outcome_fmap : FMap outcome :=
  λ A B f o, match o with Return a => Return (f a) | Raise e => Raise e end.

Definition conv {A} (operation : string) (c : exn_class) (o : option A) : outcome A :=
  match o with
  | Some a => Return a
  | None => Raise (Exn c (Runtime operation))
  end.

Definition lift {A} (o : outcome A) : M A := λ st, (o, st).

(** ** Parsing infrastructure *)

Inductive ParseStrictness := STRICT | SILENT | FAILSAFE.

(** Modelled from the spec: [SExprParser] of [sexpr_parser.py], the
    Consumption Tracker, is the set [used_indices] of the state, and
    [mark_used] adds an index to it. *)
Definition mark_used (idx : nat) : M unit :=
  λ st, (Return (), State ({[ idx ]} ∪ used_indices st) (warnings st)).

Definition get_used_indices : M (gset nat) :=
  λ st, (Return (used_indices st), st).

(** [logging.warning(message)] *)
Definition logging_warning (msg : message) : M unit :=
  λ st, (Return (), State (used_indices st) (warnings st ++ [msg])).

Section Cursor.
Context {py : PyBuiltins}.

(** [ParseCursor]; its [parser] is the [used_indices] of the state. *)
Record ParseCursor := Cursor {
  sexpr : SExpr;
  path : list string;
  strictness : ParseStrictness;
}.

(** Body run with the cursor [enter] returns: its [SExprParser] is new, and
    is dropped when the nested call is over; warnings are process-wide. *)
Definition nested {A} (m : M A) : M A :=
  λ st, let '(r, st') := m (State ∅ (warnings st)) in
        (r, State (used_indices st) (warnings st')).

Definition enter (c : ParseCursor) (sexpr : SExpr) (name : string) : ParseCursor :=
  Cursor sexpr (path c ++ [name]) (strictness c).

Definition get_path_str (c : ParseCursor) : string := join " > " (path c).

Definition log_issue (c : ParseCursor) (msg : message) : M unit :=
  match strictness c with
  | STRICT => raise ValueError msg
  | FAILSAFE => logging_warning msg
  | SILENT => ret ()
  end.

(** [self.sexpr] under [len], indexing and slicing. *)
Definition items_of (c : ParseCursor) (operation : string) : M (list SExpr) :=
  lift (conv operation TypeError (as_sequence (sexpr c))).

(** Returns the raw value at [index], [None] being [Atom ANone]. *)
Definition _get_value_at_index (c : ParseCursor) (index : nat)
    (field_name type_name : string) (required : bool) : M SExpr :=
  items ← items_of c "len";
  match items !! index with
  | None =>
      (if required
       then log_issue c (MissingRequired (get_path_str c) type_name field_name index)
       else ret ());;
      ret (Atom ANone)
  | Some value =>
      if isinstance_list value then
        (if required
         then log_issue c (ExpectedGotList (get_path_str c) type_name field_name)
         else ret ());;
        ret (Atom ANone)
      else
        mark_used index;;
        ret value
  end.

(** [int(value)] *)
Definition py_int (value : SExpr) : outcome Z :=
  match value with
  | Atom (AInt n) => Return n
  | Atom (ABool b) => Return (Z.b2z b)
  | Atom (AFloat x) =>
      match int_of_float x with
      | inr n => Return n
      | inl cls => Raise (Exn cls (Runtime "int"))
      end
  | Atom (AStr s) | Atom (ASymbol s) => conv "int" ValueError (int_of_str s)
  | _ => Raise (Exn TypeError (Runtime "int"))
  end.

(** [float(value)] *)
Definition py_float (value : SExpr) : outcome float :=
  match value with
  | Atom (AFloat x) => Return x
  | Atom (AInt n) => conv "float" OverflowError (float_of_int n)
  | Atom (ABool b) => conv "float" OverflowError (float_of_int (Z.b2z b))
  | Atom (AStr s) | Atom (ASymbol s) => conv "float" ValueError (float_of_str s)
  | _ => Raise (Exn TypeError (Runtime "float"))
  end.

(** [str(value).lower() in ("yes", "true", "1")] *)
Definition py_bool_text (value : SExpr) : bool :=
  bool_decide (str_lower (py_str value) ∈ ["yes"; "true"; "1"]).

(** [enum_class(s)]: the first member whose value is [s]. *)
Definition enum_by_value (e : EnumClass) (s : string) : option EnumMember :=
  (λ m, Build_EnumMember (ec_name e) m.1 m.2) <$>
    list_find (λ m, m.2 = s) (ec_members e) ≫= (λ r, Some r.2).

(** [enum_class[s]]: the member named [s]. *)
Definition enum_by_name (e : EnumClass) (s : string) : option EnumMember :=
  (λ m, Build_EnumMember (ec_name e) m.1 m.2) <$>
    list_find (λ m, m.1 = s) (ec_members e) ≫= (λ r, Some r.2).

Definition is_none (value : SExpr) : bool :=
  match value with Atom ANone => true | _ => false end.

Definition parse_int (c : ParseCursor) (index : nat) (field_name : string)
    (required : bool) : M SExpr :=
  value ← _get_value_at_index c index field_name "int" required;
  if is_none value then ret (Atom ANone) else
  try_except (n ← lift (py_int value); ret (Atom (AInt n)))
    (λ e, log_issue c (CannotConvert (get_path_str c) (py_str value) "int"
                         field_name (exn_msg e));;
          ret (Atom ANone)).

Definition parse_float (c : ParseCursor) (index : nat) (field_name : string)
    (required : bool) : M SExpr :=
  value ← _get_value_at_index c index field_name "float" required;
  if is_none value then ret (Atom ANone) else
  try_except (x ← lift (py_float value); ret (Atom (AFloat x)))
    (λ e, log_issue c (CannotConvert (get_path_str c) (py_str value) "float"
                         field_name (exn_msg e));;
          ret (Atom ANone)).

Definition parse_str (c : ParseCursor) (index : nat) (field_name : string)
    (required : bool) : M SExpr :=
  value ← _get_value_at_index c index field_name "str" required;
  if is_none value then ret (Atom ANone) else
  ret (Atom (AStr (py_str value))).

Definition parse_bool (c : ParseCursor) (index : nat) (field_name : string)
    (required : bool) : M SExpr :=
  value ← _get_value_at_index c index field_name "bool" required;
  if is_none value then ret (Atom ANone) else
  ret (Atom (ABool (py_bool_text value))).

Definition parse_enum (c : ParseCursor) (index : nat) (field_name : string)
    (enum_class : EnumClass) (required : bool) : M SExpr :=
  value ← _get_value_at_index c index field_name "enum" required;
  if is_none value then ret (Atom ANone) else
  match enum_by_value enum_class (py_str value) with
  | Some m => ret (Atom (AEnum m))
  | None =>
      match enum_by_name enum_class (str_upper (py_str value)) with
      | Some m => ret (Atom (AEnum m))
      | None =>
          log_issue c (InvalidEnumValue (get_path_str c) (py_str value) field_name);;
          ret (Atom ANone)
      end
  end.

(** The scan of [find_token]: the first index from 1 whose item is a
    non-empty list headed by [token_name], or the bare str [token_name],
    with what is returned for it. *)
Definition token_match (token_name : string) (item : SExpr) : option (list SExpr) :=
  match item with
  | SList (head :: rest) =>
      if String.eqb (py_str head) token_name then Some (head :: rest) else None
  | SList [] => None
  | Atom a =>
      if isinstance_str item && String.eqb (py_str item) token_name then Some [item] else None
  end.

Fixpoint find_token_from (token_name : string) (idx : nat) (items : list SExpr)
    : option (nat * list SExpr) :=
  match items with
  | [] => None
  | item :: rest =>
      match token_match token_name item with
      | Some found => Some (idx, found)
      | None => find_token_from token_name (S idx) rest
      end
  end.

(** Returns the items of the list found, [[]] when there is none. *)
Definition find_token (c : ParseCursor) (token_name : string) (do_mark : bool)
    : M (list SExpr) :=
  items ← items_of c "slice";
  match find_token_from token_name 1 (tail items) with
  | Some (idx, found) =>
      (if do_mark then mark_used idx else ret ());;
      ret found
  | None => ret []
  end.

End Cursor.

(** ** Field values and record instances *)

Inductive PrimitiveClass := KiCadStr | KiCadInt | KiCadFloat.

#[global] Instance PrimitiveClass_eq_dec : EqDecision PrimitiveClass.
Proof. solve_decision. Defined.

Section Instances.
Context {py : PyBuiltins}.

(** What a dataclass field holds: plain data ([None], a scalar, a plain
    list or tuple), a wrapper instance, a record instance, or the list of a
    [List[T]] field. *)
Inductive value :=
  | VAtom (a : atom)
  | VRawList (items : list SExpr)
  | VPrimitive (cls : PrimitiveClass) (token : string) (payload : SExpr) (required : bool)
  | VOptionalFlag (token : string) (token_value : option string) (required : bool)
  | VOptionalSimpleFlag (token : string) (required : bool)
  | VObject (cls : string) (fields : list (string * value))
  | VList (items : list value).

Definition VNone : value := VAtom ANone.

Definition value_is_none (v : value) : bool :=
  match v with VAtom ANone => true | _ => false end.

(** Plain data read off a term, and back. *)
Definition raw (t : SExpr) : value :=
  match t with Atom a => VAtom a | SList items => VRawList items end.

(** [x == y] on scalars: numbers compare by value across [bool], [int] and
    [float]; strings by content; [None] and enum members by identity. *)
Definition atom_eqb (a b : atom) : bool :=
  match a, b with
  | ANone, ANone => true
  | ABool x, ABool y => Bool.eqb x y
  | ABool x, AInt n | AInt n, ABool x => Z.eqb (Z.b2z x) n
  | ABool x, AFloat f | AFloat f, ABool x => int_float_eqb (Z.b2z x) f
  | AInt n, AInt m => Z.eqb n m
  | AInt n, AFloat f | AFloat f, AInt n => int_float_eqb n f
  | AFloat f, AFloat g => float_eqb f g
  | (AStr s | ASymbol s), (AStr s' | ASymbol s') => String.eqb s s'
  | AEnum e, AEnum e' =>
      String.eqb (enum_class e) (enum_class e') && String.eqb (enum_name e) (enum_name e')
  | _, _ => false
  end.

(** [x == y] on plain data: lists compare item by item. *)
Fixpoint py_eqb (x y : SExpr) {struct x} : bool :=
  match x, y with
  | Atom a, Atom b => atom_eqb a b
  | SList xs, SList ys =>
      (fix go (xs ys : list SExpr) {struct xs} : bool :=
         match xs, ys with
         | [], [] => true
         | x :: xs, y :: ys => py_eqb x y && go xs ys
         | _, _ => false
         end) xs ys
  | _, _ => false
  end.

Definition option_string_eqb (a b : option string) : bool :=
  match a, b with
  | None, None => true
  | Some s, Some s' => String.eqb s s'
  | _, _ => false
  end.

End Instances.

(** *** [KiCadPrimitive] and its subclasses [KiCadStr], [KiCadInt], [KiCadFloat] *)

Inductive pytype :=
  | TInt | TFloat | TBool | TStr
  | TEnum (e : EnumClass)
  (* [Any], [tuple[...]], [dict[...]]: neither a scalar nor an [SExpressionBase] *)
  | TOther
  | TKiCadPrimitive (c : PrimitiveClass)
  | TOptionalFlag
  | TOptionalSimpleFlag
  (* a [KiCadObject] subclass, by its class name *)
  | TKiCadObject (cls : string).

Section Convert.
Context {py : PyBuiltins}.

(** Convert value to target type with Enum support.  The [KeyError] of a
    failed lookup by name is not caught here. *)
Definition _convert_to_type (value : SExpr) (target_type : pytype) : outcome SExpr :=
  match target_type with
  | TEnum e =>
      match enum_by_value e (py_str value) with
      | Some m => Return (Atom (AEnum m))
      | None =>
          match enum_by_name e (str_upper (py_str value)) with
          | Some m => Return (Atom (AEnum m))
          | None => Raise (Exn KeyError (Runtime "enum lookup"))
          end
      end
  | TInt => (λ n, Atom (AInt n)) <$> py_int value
  | TFloat => (λ x, Atom (AFloat x)) <$> py_float value
  | TBool => Return (Atom (ABool (py_bool_text value)))
  | TStr => Return (Atom (AStr (py_str value)))
  | _ => Return value
  end.

End Convert.

Module KiCadPrimitive.
Section KiCadPrimitive.
Context {py : PyBuiltins}.

Definition base_type (cls : PrimitiveClass) : pytype :=
  match cls with KiCadStr => TStr | KiCadInt => TInt | KiCadFloat => TFloat end.

Definition _convert_value (cls : PrimitiveClass) (value : SExpr) : outcome SExpr :=
  _convert_to_type value (base_type cls).

(** Parse primitive from S-expression (named or positional).  The instance
    is built without [required]: the class default, [True]. *)
Definition from_sexpr (cls : PrimitiveClass) (sexpr : SExpr)
    (strictness : ParseStrictness) (cursor : option ParseCursor) : M value :=
  match cursor with
  | None => raise ValueError (RequiresCursor "KiCadPrimitive")
  | Some _ =>
      let '(token, value) :=
        match sexpr with
        | SList (t :: v :: _) => (py_str t, v)
        | SList _ => ("", Atom ANone)
        | Atom _ => ("", sexpr)
        end in
      if is_none value then ret VNone else
      try_except
        (converted ← lift (_convert_value cls value);
         ret (VPrimitive cls token converted true))
        (λ _, ret VNone)
  end.

Definition to_sexpr (token : string) (payload : SExpr) : SExpr :=
  if String.eqb token "" then payload else SList [Atom (AStr token); payload].

(** Equality comparison; [required] is not compared. *)
Definition __eq__ (self other : value) : bool :=
  match self, other with
  | VPrimitive c t v _, VPrimitive c' t' v' _ =>
      bool_decide (c = c') && String.eqb t t' && py_eqb v v'
  | _, _ => false
  end.

End KiCadPrimitive.
End KiCadPrimitive.

(** *** [OptionalFlag]: [(token)] or [(token value)] *)

Module OptionalFlag.
Section OptionalFlag.
Context {py : PyBuiltins}.

Definition from_sexpr (sexpr : SExpr) (strictness : ParseStrictness)
    (cursor : option ParseCursor) : M value :=
  match cursor with
  | None => raise ValueError (RequiresCursor "OptionalFlag")
  | Some _ =>
      match sexpr with
      | SList (t :: rest) =>
          ret (VOptionalFlag (py_str t) (py_str <$> head rest) false)
      | SList [] => ret VNone
      | Atom _ =>
          if isinstance_str sexpr then ret (VOptionalFlag (py_str sexpr) None false)
          else ret VNone
      end
  end.

(** [if self.token_value]: set and not the empty string. *)
Definition token_value_truth (token_value : option string) : bool :=
  match token_value with
  | Some s => negb (String.eqb s "")
  | None => false
  end.

Definition to_sexpr (token : string) (token_value : option string) : SExpr :=
  match token_value with
  | Some s =>
      if token_value_truth token_value
      then SList [Atom (AStr token); Atom (AStr s)]
      else SList [Atom (AStr token)]
  | None => SList [Atom (AStr token)]
  end.

Definition __eq__ (self other : value) : bool :=
  match self, other with
  | VOptionalFlag t tv _, VOptionalFlag t' tv' _ =>
      String.eqb t t' && option_string_eqb tv tv'
  | _, _ => false
  end.

(** Boolean conversion based on [token_value]; presence alone is [True]. *)
Definition __bool__ (token_value : option string) : bool :=
  match token_value with
  | Some s =>
      if token_value_truth token_value
      then bool_decide (str_lower s ∈ ["yes"; "true"; "1"])
      else true
  | None => true
  end.

End OptionalFlag.
End OptionalFlag.

(** *** [OptionalSimpleFlag]: a bare symbol such as [locked] *)

Module OptionalSimpleFlag.
Section OptionalSimpleFlag.
Context {py : PyBuiltins}.

Definition from_sexpr (sexpr : SExpr) (strictness : ParseStrictness)
    (cursor : option ParseCursor) : M value :=
  match cursor with
  | None => raise ValueError (RequiresCursor "OptionalSimpleFlag")
  | Some _ =>
      if isinstance_str sexpr && negb (isinstance_list sexpr)
      then ret (VOptionalSimpleFlag (py_str sexpr) false)
      else ret VNone
  end.

Definition to_sexpr (token : string) : SExpr := Atom (AStr token).

Definition __eq__ (self other : value) : bool :=
  match self, other with
  | VOptionalSimpleFlag t _, VOptionalSimpleFlag t' _ => String.eqb t t'
  | _, _ => false
  end.

End OptionalSimpleFlag.
End OptionalSimpleFlag.

(** ** [KiCadObject]: field classification *)

Inductive FieldType := PRIMITIVE | SEXPR_BASE.

#[global] Instance FieldType_eq_dec : EqDecision FieldType.
Proof. solve_decision. Defined.

(** Field metadata for parsing. *)
Record FieldInfo := {
  name : string;
  field_type : FieldType;
  inner_type : pytype;
  is_optional : bool;
  is_list : bool;
  token_name : option string;
  position_index : nat;
}.

Definition can_self_parse (fi : FieldInfo) : bool :=
  bool_decide (field_type fi = SEXPR_BASE).

(** [if field_info.token_name]: set and not the empty string. *)
Definition token_truth (token_name : option string) : option string :=
  match token_name with
  | Some s => if String.eqb s "" then None else Some s
  | None => None
  end.

Section Declarations.
Context {py : PyBuiltins}.

(** The default of a dataclass field: none, [default=v], or
    [default_factory=lambda: v]. *)
Inductive Default :=
  | NoDefault
  | DefaultValue (v : value)
  | DefaultFactory (v : value).

(** A declared type: [T], [Optional[T]], [List[T]] or [Optional[List[T]]]. *)
Record TypeHint := {
  hint_optional : bool;
  hint_list : bool;
  hint_type : pytype;
}.

Record DataclassField := {
  df_name : string;
  df_type : TypeHint;
  (* [metadata.get("required")] *)
  df_required : option bool;
  df_default : Default;
}.

(** A [KiCadObject] subclass. *)
Record ClassDecl := {
  cd_name : string;
  cd_token_name : string;
  cd_legacy_token_names : list string;
  cd_fields : list DataclassField;
}.

(** The classes in scope, and the class attribute [__token_name__] of
    [OptionalFlag] and of [OptionalSimpleFlag] ([__post_init__] of the first
    instance with a token sets it, for the whole process). *)
Record Env := {
  env_classes : list ClassDecl;
  env_flag_token_name : string;
  env_simple_flag_token_name : string;
}.

Definition lookup_class (env : Env) (cls : string) : option ClassDecl :=
  snd <$> list_find (λ c, cd_name c = cls) (env_classes env).

Fixpoint assoc {A} (key : string) (l : list (string * A)) : option A :=
  match l with
  | [] => None
  | (k, v) :: rest => if String.eqb k key then Some v else assoc key rest
  end.

(** [getattr(v, attr)] on the instance attributes. *)
Definition getattr (v : value) (attr : string) : option value :=
  match v with
  | VPrimitive _ token payload required =>
      assoc attr [("token", VAtom (AStr token)); ("value", raw payload);
                  ("required", VAtom (ABool required))]
  | VOptionalFlag token token_value required =>
      assoc attr [("token", VAtom (AStr token));
                  ("token_value", from_option (λ s, VAtom (AStr s)) VNone token_value);
                  ("required", VAtom (ABool required))]
  | VOptionalSimpleFlag token required =>
      assoc attr [("token", VAtom (AStr token)); ("required", VAtom (ABool required))]
  | VObject _ fields => assoc attr fields
  | _ => None
  end.

(** [bool(v)] *)
Definition value_truth (v : value) : bool :=
  match v with
  | VAtom a => py_truth (Atom a)
  | VRawList items => py_truth (SList items)
  | VPrimitive _ _ payload _ => py_truth payload
  | VOptionalFlag _ token_value _ => OptionalFlag.__bool__ token_value
  | VOptionalSimpleFlag _ _ => true
  | VObject _ _ => true
  | VList items => negb (bool_decide (items = []))
  end.

(** [dataclass_field.default_factory()]; without a factory the attribute is
    the [MISSING] sentinel, and calling it raises. *)
Definition default_instance (f : DataclassField) : option value :=
  match df_default f with
  | DefaultFactory v => Some v
  | _ => None
  end.

(** [getattr(cls, "__token_name__", None)] of an [SExpressionBase] subclass. *)
Definition class_token_name (env : Env) (t : pytype) : option string :=
  match t with
  | TKiCadPrimitive _ => Some ""
  | TOptionalFlag => Some (env_flag_token_name env)
  | TOptionalSimpleFlag => Some (env_simple_flag_token_name env)
  | TKiCadObject cls => cd_token_name <$> lookup_class env cls
  | _ => None
  end.

(** [issubclass(t, SExpressionBase)] *)
Definition is_sexpr_base (t : pytype) : bool :=
  match t with
  | TKiCadPrimitive _ | TOptionalFlag | TOptionalSimpleFlag | TKiCadObject _ => true
  | _ => false
  end.

Definition as_token (v : option value) : option string :=
  match v with
  | Some (VAtom (AStr s)) => Some s
  | _ => None
  end.

(** Classify a single field. *)
Definition _classify_field (env : Env) (position : nat) (f : DataclassField)
    : FieldInfo :=
  let hint := df_type f in
  let is_optional :=
    hint_optional hint
    || bool_decide (df_required f = Some false)
    || match default_instance f ≫= (λ d, getattr d "required") with
       | Some r => negb (value_truth r)
       | None => false
       end in
  let inner_type := hint_type hint in
  if hint_list hint then
    if is_sexpr_base inner_type then
      Build_FieldInfo (df_name f) SEXPR_BASE inner_type false true
        (class_token_name env inner_type) position
    else
      Build_FieldInfo (df_name f) PRIMITIVE inner_type false true None position
  else if is_sexpr_base inner_type then
    let token_name :=
      match inner_type with
      | TKiCadPrimitive _ | TOptionalFlag =>
          as_token (default_instance f ≫= (λ d, getattr d "token"))
      | _ => class_token_name env inner_type
      end in
    Build_FieldInfo (df_name f) SEXPR_BASE inner_type is_optional false
      token_name position
  else
    Build_FieldInfo (df_name f) PRIMITIVE inner_type is_optional false None position.

(** [name.startswith("_")] *)
Definition is_private (name : string) : bool :=
  match name with
  | String c _ => Ascii.eqb c (Ascii.ascii_of_nat 95)
  | EmptyString => false
  end.

(** An [OptionalSimpleFlag] field takes no position. *)
Definition takes_position (fi : FieldInfo) : bool :=
  negb (bool_decide (field_type fi = SEXPR_BASE)
        && match inner_type fi with TOptionalSimpleFlag => true | _ => false end).

Fixpoint classify_from (env : Env) (position_index : nat)
    (fields : list DataclassField) : list FieldInfo :=
  match fields with
  | [] => []
  | f :: rest =>
      if is_private (df_name f) then classify_from env position_index rest
      else
        let field_info := _classify_field env position_index f in
        field_info ::
          classify_from env
            (if takes_position field_info then S position_index else position_index)
            rest
  end.

(** Classify all fields for parsing; the per-class cache holds this list. *)
Definition _classify_fields (env : Env) (cls : ClassDecl) : list FieldInfo :=
  classify_from env 0 (cd_fields cls).

End Declarations.

(** ** [KiCadObject]: the main parser *)

Module KiCadObject.
Section KiCadObject.
Context {py : PyBuiltins}.

(** [inner_type.from_sexpr(sexpr, cursor.strictness, nested_cursor)], the
    recursive call every field parser is handed. *)
Definition decoder := pytype → SExpr → ParseCursor → M value.

Definition _convert_primitive_value (value : SExpr) (field_info : FieldInfo)
    : outcome SExpr :=
  _convert_to_type value (inner_type field_info).

(** The positional path: [parse_enum] for an [Enum], else the entry of
    [parser_map] for the type, [parse_str] when it has none. *)
Definition scalar_parser (cursor : ParseCursor) (field_info : FieldInfo) : M SExpr :=
  let index := position_index field_info + 1 in
  let required := negb (is_optional field_info) in
  match inner_type field_info with
  | TEnum e => parse_enum cursor index (name field_info) e required
  | TInt => parse_int cursor index (name field_info) required
  | TFloat => parse_float cursor index (name field_info) required
  | TBool => parse_bool cursor index (name field_info) required
  | _ => parse_str cursor index (name field_info) required
  end.

(** Parse primitive field (named token or positional). *)
Definition _parse_primitive_field (field_info : FieldInfo) (cursor : ParseCursor)
    : M value :=
  let positional : M value := raw <$> scalar_parser cursor field_info in
  match token_truth (token_name field_info) with
  | Some token =>
      named_sexpr ← find_token cursor token true;
      match named_sexpr with
      | _ :: v :: _ => raw <$> lift (_convert_primitive_value v field_info)
      | [] =>
          (if negb (is_optional field_info)
           then log_issue cursor (RequiredTokenNotFound (get_path_str cursor) token)
           else ret ());;
          ret VNone
      | [_] => positional
      end
  | None => positional
  end.

(** One element of a list field: [cursor.enter(item, f"{name}[{len(result)}]")],
    then [inner_type.from_sexpr(item, cursor.strictness, nested_cursor)]. *)
Definition decode_element (dec : decoder) (field_info : FieldInfo) (cursor : ParseCursor)
    (item : SExpr) (result : list value) : M value :=
  nested (dec (inner_type field_info) item
            (enter cursor item
               (name field_info +:+ "[" +:+ pretty (length result) +:+ "]"))).

(** The loop of the list field on a known token: every list headed by the
    token, used or not, is marked and decoded; an exception leaves the loop. *)
Fixpoint collect_known (dec : decoder) (field_info : FieldInfo) (cursor : ParseCursor)
    (token : string) (idx : nat) (items : list SExpr) (result : list value)
    : M (list value) :=
  match items with
  | [] => ret result
  | item :: rest =>
      match item with
      | SList (head :: _) =>
          if String.eqb (py_str head) token then
            mark_used idx;;
            element ← decode_element dec field_info cursor item result;
            collect_known dec field_info cursor token (S idx) rest
              (if value_is_none element then result else result ++ [element])
          else collect_known dec field_info cursor token (S idx) rest result
      | _ => collect_known dec field_info cursor token (S idx) rest result
      end
  end.

(** The loop of the list field without a token: every list not used yet is
    tried; it is marked when it decodes, skipped when it does not or when
    decoding it raises [ValueError] or [TypeError]. *)
Fixpoint collect_unknown (dec : decoder) (field_info : FieldInfo) (cursor : ParseCursor)
    (idx : nat) (items : list SExpr) (result : list value) : M (list value) :=
  match items with
  | [] => ret result
  | item :: rest =>
      used ← get_used_indices;
      if isinstance_list item && negb (bool_decide (idx ∈ used)) then
        result' ←
          try_except
            (element ← decode_element dec field_info cursor item result;
             if value_is_none element then ret result
             else (mark_used idx;; ret (result ++ [element])))
            (λ _, ret result);
        collect_unknown dec field_info cursor (S idx) rest result'
      else collect_unknown dec field_info cursor (S idx) rest result
  end.

(** Parse list field by collecting all matching elements. *)
Definition _parse_list_field (dec : decoder) (field_info : FieldInfo)
    (cursor : ParseCursor) : M value :=
  if can_self_parse field_info then
    match token_truth (token_name field_info) with
    | Some token =>
        items ← items_of cursor "slice";
        VList <$> collect_known dec field_info cursor token 1 (tail items) []
    | None =>
        items ← items_of cursor "slice";
        VList <$> collect_unknown dec field_info cursor 1 (tail items) []
    end
  else ret (VList []).

(** Parse SExpressionBase field via from_sexpr delegation. *)
Definition _parse_sexpr_base_field (dec : decoder) (field_info : FieldInfo)
    (cursor : ParseCursor) : M value :=
  match token_truth (token_name field_info) with
  | Some token =>
      named_sexpr ← find_token cursor token true;
      match named_sexpr with
      | _ :: _ =>
          nested (dec (inner_type field_info) (SList named_sexpr)
                    (enter cursor (SList named_sexpr) (name field_info)))
      | [] =>
          (if negb (is_optional field_info)
           then log_issue cursor (RequiredTokenNotFound (get_path_str cursor) token)
           else ret ());;
          ret VNone
      end
  | None =>
      let index := position_index field_info + 1 in
      items ← items_of cursor "len";
      match items !! index with
      | None =>
          (if negb (is_optional field_info)
           then log_issue cursor
                  (RequiredFieldNotFound (get_path_str cursor) (name field_info) index)
           else ret ());;
          ret VNone
      | Some item =>
          try_except
            (mark_used index;;
             nested (dec (inner_type field_info) item
                       (enter cursor item (name field_info))))
            (λ e,
               (if negb (is_optional field_info)
                then log_issue cursor
                       (FailedToParse (get_path_str cursor) (name field_info) (exn_msg e))
                else ret ());;
               ret VNone)
      end
  end.

(** Parse single field based on field metadata. *)
Definition _parse_field (dec : decoder) (field_info : FieldInfo) (cursor : ParseCursor)
    : M value :=
  if is_list field_info then _parse_list_field dec field_info cursor
  else match field_type field_info with
       | PRIMITIVE => _parse_primitive_field field_info cursor
       | SEXPR_BASE => _parse_sexpr_base_field dec field_info cursor
       end.

(** The loop over the field infos, filling [parsed_values]. *)
Fixpoint parse_fields (dec : decoder) (field_infos : list FieldInfo)
    (cursor : ParseCursor) (parsed_values : gmap string value)
    : M (gmap string value) :=
  match field_infos with
  | [] => ret parsed_values
  | field_info :: rest =>
      value ← _parse_field dec field_info cursor;
      parse_fields dec rest cursor
        (if value_is_none value then parsed_values
         else <[name field_info := value]> parsed_values)
  end.

(** The call of [cls] on [parsed_values] as keyword arguments: the generated
    [__init__] takes each field from them or from its default, then [__post_init__] checks
    that the class defines its token name. *)
Fixpoint init_fields (fields : list DataclassField) (kwargs : gmap string value)
    : M (list (string * value)) :=
  match fields with
  | [] => ret []
  | f :: rest =>
      v ← match kwargs !! df_name f with
          | Some v => ret v
          | None =>
              match df_default f with
              | DefaultValue v | DefaultFactory v => ret v
              | NoDefault => raise TypeError (Runtime "__init__")
              end
          end;
      vs ← init_fields rest kwargs;
      ret ((df_name f, v) :: vs)
  end.

Definition construct (cls : ClassDecl) (kwargs : gmap string value) : M value :=
  fields ← init_fields (cd_fields cls) kwargs;
  if String.eqb (cd_token_name cls) ""
  then raise ValueError (MustDefineTokenName (cd_name cls))
  else ret (VObject (cd_name cls) fields).

(** [str(cursor.sexpr[0]) if cursor.sexpr else "empty"] *)
Definition head_token (cursor : ParseCursor) : M string :=
  if py_truth (sexpr cursor) then
    items ← items_of cursor "index";
    match items with
    | head :: _ => ret (py_str head)
    | [] => raise TypeError (Runtime "index")
    end
  else ret "empty".

(** [from_sexpr] once the cursor exists: validate the token, parse the
    fields by delegation, build the instance. *)
Definition from_sexpr_at (dec : decoder) (env : Env) (cls : ClassDecl)
    (cursor : ParseCursor) : M value :=
  token ← head_token cursor;
  if bool_decide (token ∈ cd_token_name cls :: cd_legacy_token_names cls) then
    parsed_values ← parse_fields dec (_classify_fields env cls) cursor ∅;
    construct cls parsed_values
  else
    raise ValueError
      (TokenMismatch (get_path_str cursor) (cd_token_name cls) token).

(** The dispatch of [inner_type.from_sexpr].  A nested [KiCadObject] parse is
    one more frame of the Python stack: [depth] bounds the frames. *)
Fixpoint dispatch (depth : nat) (env : Env) (t : pytype) (sexpr : SExpr)
    (cursor : ParseCursor) : M value :=
  match t with
  | TKiCadPrimitive c => KiCadPrimitive.from_sexpr c sexpr (strictness cursor) (Some cursor)
  | TOptionalFlag => OptionalFlag.from_sexpr sexpr (strictness cursor) (Some cursor)
  | TOptionalSimpleFlag =>
      OptionalSimpleFlag.from_sexpr sexpr (strictness cursor) (Some cursor)
  | TKiCadObject cls =>
      match depth with
      | O => raise RecursionError (Runtime "from_sexpr")
      | S depth' =>
          match lookup_class env cls with
          | Some decl => from_sexpr_at (dispatch depth' env) env decl cursor
          | None => raise AttributeError (Runtime "from_sexpr")
          end
      end
  | _ => raise AttributeError (Runtime "from_sexpr")
  end.

(** Nesting depth of a term. *)
Fixpoint sexpr_depth (t : SExpr) : nat :=
  match t with
  | Atom _ => 0
  | SList items => S (foldr (λ x d, sexpr_depth x `max` d) 0 items)
  end.

(** Parse from S-expression, the cursor given.  The frames allowed are one
    more than the depth of the term, which is all a decode can use. *)
Definition from_sexpr_cursor (env : Env) (cls : ClassDecl) (cursor : ParseCursor)
    : M value :=
  from_sexpr_at (dispatch (S (sexpr_depth (sexpr cursor))) env) env cls cursor.

(** Parse from S-expression, [cursor=None]: the root cursor is created on the
    parsed list, with a new [SExprParser] and the class name as path. *)
Definition from_sexpr (env : Env) (cls : ClassDecl) (sexpr : list SExpr)
    (strictness : ParseStrictness) : M value :=
  nested (from_sexpr_cursor env cls (Cursor (SList sexpr) [cd_name cls] strictness)).

(** Serialize to S-expression.  [field_items v] is what the loop appends for
    a field holding [v]. *)
Fixpoint to_sexpr (env : Env) (self : value) {struct self} : SExpr :=
  let item_term (item : value) : SExpr :=
    match item with
    | VAtom a => Atom a
    | VRawList items => SList items
    | _ => to_sexpr env item
    end in
  let field_items (v : value) : list SExpr :=
    match v with
    | VAtom ANone => []
    | VAtom (AEnum e) => [Atom (AStr (enum_value e))]
    | VAtom a => [Atom a]
    | VRawList items => items
    | VList items => map item_term items
    | _ => [to_sexpr env v]
    end in
  match self with
  | VAtom a => Atom a
  | VRawList items => SList items
  | VPrimitive _ token payload _ => KiCadPrimitive.to_sexpr token payload
  | VOptionalFlag token token_value _ => OptionalFlag.to_sexpr token token_value
  | VOptionalSimpleFlag token _ => OptionalSimpleFlag.to_sexpr token
  | VList items => SList (map item_term items)
  | VObject cls fields =>
      let encoded :=
        (fix go (fs : list (string * value)) : list (string * list SExpr) :=
           match fs with
           | [] => []
           | (n, v) :: fs' => (n, field_items v) :: go fs'
           end) fields in
      match lookup_class env cls with
      | Some decl =>
          SList (Atom (AStr (cd_token_name decl)) ::
                 concat (map (λ field_info, default [] (assoc (name field_info) encoded))
                           (_classify_fields env decl)))
      | None => SList [Atom (AStr "")]
      end
  end.

(** [self == other] on field values.  The [__eq__] a dataclass generates
    compares the classes, then the fields in order; lists compare item by
    item; the wrappers have their own [__eq__]. *)
Fixpoint value_eqb (x y : value) {struct x} : bool :=
  match x, y with
  | VAtom a, VAtom b => atom_eqb a b
  | VRawList xs, VRawList ys => py_eqb (SList xs) (SList ys)
  | VPrimitive _ _ _ _, _ => KiCadPrimitive.__eq__ x y
  | VOptionalFlag _ _ _, _ => OptionalFlag.__eq__ x y
  | VOptionalSimpleFlag _ _, _ => OptionalSimpleFlag.__eq__ x y
  | VObject c fs, VObject c' fs' =>
      String.eqb c c'
      && (fix go (fs fs' : list (string * value)) {struct fs} : bool :=
            match fs, fs' with
            | [], [] => true
            | (_, v) :: fs, (_, v') :: fs' => value_eqb v v' && go fs fs'
            | _, _ => false
            end) fs fs'
  | VList xs, VList ys =>
      (fix go (xs ys : list value) {struct xs} : bool :=
         match xs, ys with
         | [], [] => true
         | x :: xs, y :: ys => value_eqb x y && go xs ys
         | _, _ => false
         end) xs ys
  | _, _ => false
  end.

(** Format primitive values for S-expression serialization. *)
Definition backslash : string := String (Ascii.ascii_of_nat 92) "".
Definition double_quote : string := String (Ascii.ascii_of_nat 34) "".

(** [value.replace(backslash, 2 backslashes).replace(quote, backslash quote)] *)
Definition escape_quotes (s : string) : string :=
  String.concat ""
    (map (λ c, if Ascii.eqb c (Ascii.ascii_of_nat 92) then backslash +:+ backslash
               else if Ascii.eqb c (Ascii.ascii_of_nat 34) then backslash +:+ double_quote
               else String c "")
       (String.list_ascii_of_string s)).

Definition quoted (s : string) : string :=
  double_quote +:+ escape_quotes s +:+ double_quote.

Definition _format_primitive_value (value : atom) : string :=
  match value with
  | ABool b => if b then "yes" else "no"
  | AEnum e => enum_value e
  | AStr s | ASymbol s =>
      if bool_decide (s ∈ ["yes"; "no"]) then s else quoted s
  | _ => str_atom value
  end.

(** [needle in haystack] on two strings. *)
Fixpoint py_in (needle haystack : string) : bool :=
  String.prefix needle haystack
  || match haystack with
     | String _ rest => py_in needle rest
     | EmptyString => false
     end.

(** ["\t" * n] *)
Fixpoint tabs (n : nat) : string :=
  match n with
  | O => ""
  | S n' => String (Ascii.ascii_of_nat 9) (tabs n')
  end.

Definition newline : string := String (Ascii.ascii_of_nat 10) "".

(** What the loop appends to [primitive_values] for an item that is not a
    list, under the head [token_name]. *)
Definition format_item (token_name : string) (item : atom) : string :=
  match item with
  | AStr s | ASymbol s =>
      if py_in token_name "type" then s else _format_primitive_value item
  | _ => _format_primitive_value item
  end.

Definition primitive_values (token_name : string) (rest : list SExpr) : list string :=
  omap (λ item, match item with Atom a => Some (format_item token_name a) | SList _ => None end)
    rest.

Definition nested_lists (rest : list SExpr) : list SExpr :=
  filter (λ item, isinstance_list item = true) rest.

(** Format S-expression in KiCad style with tabs and unquoted tokens. *)
Fixpoint _format_sexpr_kicad_style (sexpr : SExpr) (indent_level : nat) {struct sexpr}
    : string :=
  match sexpr with
  | Atom a => _format_primitive_value a
  | SList [] => "()"
  | SList (head :: rest) =>
      let current_indent := tabs indent_level in
      let token_name := py_str head in
      let formatted :=
        (fix go (l : list SExpr) : list string :=
           match l with
           | [] => []
           | item :: l' =>
               match item with
               | SList _ => _format_sexpr_kicad_style item (S indent_level) :: go l'
               | Atom _ => go l'
               end
           end) rest in
      let primitives := primitive_values token_name rest in
      match rest with
      | [] => current_indent +:+ "(" +:+ token_name +:+ ")"
      | _ :: _ =>
          if bool_decide (nested_lists rest = []) && bool_decide (length (head :: rest) ≤ 4)
          then current_indent +:+ "(" +:+ join " " (token_name :: primitives) +:+ ")"
          else
            let primitive_part :=
              match primitives with
              | [] => ""
              | _ :: _ => " " +:+ join " " primitives
              end in
            join newline
              ([current_indent +:+ "(" +:+ token_name +:+ primitive_part]
               ++ formatted ++ [current_indent +:+ ")"])
      end
  end.

(** Convert to KiCad-formatted S-expression string. *)
Definition to_sexpr_str (env : Env) (self : value) (_indent_level : nat) : string :=
  _format_sexpr_kicad_style (to_sexpr env self) _indent_level.

End KiCadObject.
End KiCadObject.

(** ** The runtime: CPython on ASCII text and binary64 floats

    The builtins the engine calls, on primitive floats.  Text is read as
    bytes: case mapping, whitespace and digits are the ASCII ones. *)

Module CPython.

Definition code (c : Ascii.ascii) : Z := Z.of_nat (Ascii.nat_of_ascii c).
Definition char (n : Z) : Ascii.ascii := Ascii.ascii_of_nat (Z.to_nat n).

Definition digit_of (c : Ascii.ascii) : option Z :=
  if bool_decide (48 ≤ code c ≤ 57)%Z then Some (code c - 48)%Z else None.

Definition is_space (c : Ascii.ascii) : bool :=
  bool_decide (code c = 32 ∨ 9 ≤ code c ≤ 13)%Z.

Fixpoint lstrip (s : string) : string :=
  match s with
  | String c rest => if is_space c then lstrip rest else s
  | EmptyString => s
  end.

Definition strip (s : string) : string :=
  String.rev (lstrip (String.rev (lstrip s))).

Fixpoint map_ascii (f : Z → Z) (s : string) : string :=
  match s with
  | String c rest => String (char (f (code c))) (map_ascii f rest)
  | EmptyString => EmptyString
  end.

(* s.lower(), s.upper(), on ASCII letters *)
Definition str_lower : string → string :=
  map_ascii (λ n, if bool_decide (65 ≤ n ≤ 90)%Z then n + 32 else n)%Z.
Definition str_upper : string → string :=
  map_ascii (λ n, if bool_decide (97 ≤ n ≤ 122)%Z then n - 32 else n)%Z.

(* The longest run of digits, a single underscore allowed between two
   digits: its value, the number of digits, and what follows. *)
Fixpoint digits (s : string) (acc : Z) (len : nat) : Z * nat * string :=
  match s with
  | String c rest =>
      match digit_of c with
      | Some d => digits rest (10 * acc + d)%Z (S len)
      | None =>
          match len, rest with
          | S _, String c' _ =>
              if Ascii.eqb c (char 95) && bool_decide (is_Some (digit_of c'))
              then digits rest acc len else (acc, len, s)
          | _, _ => (acc, len, s)
          end
      end
  | EmptyString => (acc, len, s)
  end.

Definition sign_of (s : string) : bool * string :=
  match s with
  | String c rest =>
      if Ascii.eqb c (char 45) then (true, rest)
      else if Ascii.eqb c (char 43) then (false, rest)
      else (false, s)
  | EmptyString => (false, s)
  end.

Definition int_of_str (s : string) : option Z :=
  let '(neg, s1) := sign_of (strip s) in
  match digits s1 0 0 with
  | (n, S _, EmptyString) => Some (if neg then - n else n)%Z
  | _ => None
  end.

(* m * 10^e10 rounded to the nearest double, ties to even: the quotient is
   taken with enough bits and a sticky bit, then normalised. *)
Definition round_decimal (neg : bool) (m e10 : Z) : PrimFloat.float :=
  if (m =? 0)%Z then (if neg then (-0)%float else 0%float) else
  let x :=
    if (0 <=? e10)%Z then SF2Prim (binary_normalize prec emax (m * 10 ^ e10) 0 false)
    else
      let den := (10 ^ (- e10))%Z in
      let s := Z.max 0 (Z.log2 den - Z.log2 m + prec + 3)%Z in
      let q := ((m * 2 ^ s) / den)%Z in
      let sticky := if ((m * 2 ^ s) mod den =? 0)%Z then 0%Z else 1%Z in
      SF2Prim (binary_normalize prec emax (2 * q + sticky) (- s - 1) false) in
  if neg then (- x)%float else x.

Definition float_of_int (n : Z) : option PrimFloat.float :=
  let x := round_decimal (n <? 0)%Z (Z.abs n) 0 in
  if is_infinity x then None else Some x.

(* [eE][+-]?digits at the end of a literal *)
Definition exponent_of (s : string) : option Z :=
  match s with
  | EmptyString => Some 0%Z
  | String c rest =>
      if bool_decide (code c = 101 ∨ code c = 69)%Z then
        let '(neg, s1) := sign_of rest in
        match digits s1 0 0 with
        | (n, S _, EmptyString) => Some (if neg then - n else n)%Z
        | _ => None
        end
      else None
  end.

Definition float_of_str (s : string) : option PrimFloat.float :=
  let '(neg, s1) := sign_of (strip s) in
  let word := str_lower s1 in
  if bool_decide (word = "inf" ∨ word = "infinity")
  then Some (if neg then neg_infinity else infinity)
  else if bool_decide (word = "nan") then Some nan
  else
    let '(ip, ilen, s2) := digits s1 0 0 in
    let '(m, flen, s3) :=
      match s2 with
      | String c rest =>
          if Ascii.eqb c (char 46) then
            let '(m, flen, s3) := digits rest 0 0 in
            (ip * 10 ^ Z.of_nat flen + m, flen, s3)%Z
          else (ip, 0, s2)
      | EmptyString => (ip, 0, s2)
      end in
    if bool_decide (ilen + flen = 0) then None
    else e ← exponent_of s3; Some (round_decimal neg m (e - Z.of_nat flen)).

(* int(x): truncation towards zero *)
Definition int_of_float (x : PrimFloat.float) : exn_class + Z :=
  match Prim2SF x with
  | S754_zero _ => inr 0%Z
  | S754_infinity _ => inl OverflowError
  | S754_nan => inl ValueError
  | S754_finite neg m e =>
      let n := (if (0 <=? e)%Z then Z.pos m * 2 ^ e else Z.pos m / 2 ^ (- e))%Z in
      inr (if neg then - n else n)%Z
  end.

(* n == x: the double holds exactly the integer n *)
Definition int_float_eqb (n : Z) (x : PrimFloat.float) : bool :=
  match Prim2SF x with
  | S754_zero _ => (n =? 0)%Z
  | S754_finite neg m e =>
      let v := (if neg then Z.neg m else Z.pos m) in
      if (0 <=? e)%Z then (n =? v * 2 ^ e)%Z else (n * 2 ^ (- e) =? v)%Z
  | _ => false
  end.

(* floor (log10 (m * 2^e)) *)
Definition decimal_exponent (m : positive) (e : Z) : Z :=
  if (0 <=? e)%Z then Z.of_nat (String.length (pretty (Z.pos m * 2 ^ e)%Z)) - 1
  else
    let f := (Z.pos m / 2 ^ (- e))%Z in
    if (0 <? f)%Z then Z.of_nat (String.length (pretty f)) - 1
    else
      (fix go (fuel : nat) (j : Z) : Z :=
         match fuel with
         | O => (- j)%Z
         | S fuel' =>
             if (2 ^ (- e) <=? Z.pos m * 10 ^ j)%Z then (- j)%Z else go fuel' (j + 1)%Z
         end) 400 1%Z.

(* repr(x): the shortest decimal that reads back as x, the closest to x
   among those, looked for with 1 to 17 significant digits. *)
Definition shortest (x : PrimFloat.float) (m : positive) (e : Z) : Z * Z :=
  let dexp := decimal_exponent m e in
  (fix go (fuel : nat) (d : Z) : Z * Z :=
     match fuel with
     | O => (0, 0)%Z
     | S fuel' =>
         let k := (dexp - (d - 1))%Z in
         let num := (Z.pos m * 2 ^ Z.max e 0 * 10 ^ Z.max (- k) 0)%Z in
         let den := (2 ^ Z.max (- e) 0 * 10 ^ Z.max k 0)%Z in
         let lo := (num / den)%Z in
         let r := (num mod den)%Z in
         let up_first := (den <? 2 * r)%Z || ((den =? 2 * r)%Z && Z.odd lo) in
         let c1 := (if up_first then lo + 1 else lo)%Z in
         let c2 := (if up_first then lo else lo + 1)%Z in
         if PrimFloat.eqb (round_decimal false c1 k) x then (c1, k)
         else if PrimFloat.eqb (round_decimal false c2 k) x then (c2, k)
         else go fuel' (d + 1)%Z
     end) 17 1%Z.

Fixpoint strip_zeros (fuel : nat) (n k : Z) : Z * Z :=
  match fuel with
  | O => (n, k)
  | S fuel' => if (n mod 10 =? 0)%Z then strip_zeros fuel' (n / 10)%Z (k + 1)%Z else (n, k)
  end.

Fixpoint zeros (n : nat) : string :=
  match n with O => "" | S n' => String (char 48) (zeros n') end.

Definition format_short (n k : Z) : string :=
  let '(n, k) := strip_zeros 20 n k in
  let ds := pretty n in
  let len := Z.of_nat (String.length ds) in
  let decpt := (len + k)%Z in
  if bool_decide (-4 < decpt ≤ 16)%Z then
    if (decpt <=? 0)%Z then "0." +:+ zeros (Z.to_nat (- decpt)) +:+ ds
    else if (len <=? decpt)%Z then ds +:+ zeros (Z.to_nat (decpt - len)) +:+ ".0"
    else String.substring 0 (Z.to_nat decpt) ds +:+ "." +:+
         String.substring (Z.to_nat decpt) (Z.to_nat (len - decpt)) ds
  else
    let ex := (decpt - 1)%Z in
    String.substring 0 1 ds +:+
    (if (1 <? len)%Z then "." +:+ String.substring 1 (Z.to_nat (len - 1)) ds else "") +:+
    "e" +:+ (if (ex <? 0)%Z then "-" else "+") +:+
    (if (Z.abs ex <? 10)%Z then "0" else "") +:+ pretty (Z.abs ex).

Definition str_of_float (x : PrimFloat.float) : string :=
  match Prim2SF x with
  | S754_zero neg => if neg then "-0.0" else "0.0"
  | S754_infinity neg => if neg then "-inf" else "inf"
  | S754_nan => "nan"
  | S754_finite neg m e =>
      let '(n, k) := shortest (abs x) m e in
      (if neg then "-" else "") +:+ format_short n k
  end.

(* repr(s): single quotes unless s has one and no double quote; backslash,
   the quote and control characters are escaped. *)
Definition hex_digit (n : Z) : Ascii.ascii :=
  char (if (n <? 10)%Z then 48 + n else 87 + n)%Z.

Definition escape_char (quote : Ascii.ascii) (c : Ascii.ascii) : string :=
  let n := code c in
  if Ascii.eqb c quote || (n =? 92)%Z then String (char 92) (String c "")
  else if (n =? 10)%Z then "\n"
  else if (n =? 13)%Z then "\r"
  else if (n =? 9)%Z then "\t"
  else if (n <? 32)%Z || (n =? 127)%Z
  then "\x" +:+ String (hex_digit (n / 16)) (String (hex_digit (n mod 16)) "")
  else String c "".

Definition has_char (n : Z) (s : string) : bool :=
  bool_decide (char n ∈ String.list_ascii_of_string s).

Definition repr_str (s : string) : string :=
  let quote := if has_char 39 s && negb (has_char 34 s) then char 34 else char 39 in
  String quote "" +:+
  String.concat "" (map (escape_char quote) (String.list_ascii_of_string s)) +:+
  String quote "".

Definition repr_symbol (s : string) : string := "Symbol(" +:+ repr_str s +:+ ")".

Definition builtins : PyBuiltins :=
  Build_PyBuiltins PrimFloat.float PrimFloat.eqb int_float_eqb
    (λ x, negb (PrimFloat.eqb x 0%float))
    float_of_int float_of_str int_of_float int_of_str str_of_float
    str_lower str_upper repr_str repr_symbol.

End CPython.

(** ** Record declarations *)

Module Schema.
#[local] Existing Instance CPython.builtins.

Definition plain (t : pytype) : TypeHint := Build_TypeHint false false t.
Definition optional (t : pytype) : TypeHint := Build_TypeHint true false t.
Definition list_of (t : pytype) : TypeHint := Build_TypeHint false true t.

(** [name: hint = field(default..., metadata={"description": ...})] *)
Definition field (name : string) (hint : TypeHint) (default : Default) : DataclassField :=
  Build_DataclassField name hint None default.

(** [metadata={"description": ..., "required": False}] *)
Definition field_not_required (name : string) (hint : TypeHint) (default : Default)
    : DataclassField :=
  Build_DataclassField name hint (Some false) default.

Definition vstr (s : string) : value := VAtom (AStr s).
Definition vint (n : Z) : value := VAtom (AInt n).
Definition vfloat (x : PrimFloat.float) : value := VAtom (AFloat x).

(** [pad_and_drill.py]: [(net ORDINAL "NET_NAME")] *)
Definition Net : ClassDecl :=
  Build_ClassDecl "Net" "net" []
    [ field "number" (plain TInt) (DefaultValue (vint 0));
      field "name" (plain TStr) (DefaultValue (vstr "")) ].

(** [footprint_library.py]: the embedded files of a footprint. *)
Definition FileName : ClassDecl :=
  Build_ClassDecl "FileName" "name" []
    [ field "value" (plain TStr) (DefaultValue (vstr "")) ].

Definition FileType : ClassDecl :=
  Build_ClassDecl "FileType" "type" []
    [ field "value" (plain TStr) (DefaultValue (vstr "")) ].

Definition FileData : ClassDecl :=
  Build_ClassDecl "FileData" "data" []
    [ field "lines" (list_of TStr) (DefaultFactory (VList [])) ].

Definition FileChecksum : ClassDecl :=
  Build_ClassDecl "FileChecksum" "checksum" []
    [ field "value" (plain TStr) (DefaultValue (vstr "")) ].

Definition EmbeddedFile : ClassDecl :=
  Build_ClassDecl "EmbeddedFile" "file" []
    [ field "name" (plain (TKiCadObject "FileName"))
        (DefaultFactory (VObject "FileName" [("value", vstr "")]));
      field "type" (plain (TKiCadObject "FileType"))
        (DefaultFactory (VObject "FileType" [("value", vstr "")]));
      field_not_required "data" (optional (TKiCadObject "FileData")) (DefaultValue VNone);
      field_not_required "checksum" (optional (TKiCadObject "FileChecksum"))
        (DefaultValue VNone) ].

Definition EmbeddedFiles : ClassDecl :=
  Build_ClassDecl "EmbeddedFiles" "embedded_files" []
    [ field "files" (list_of (TKiCadObject "EmbeddedFile")) (DefaultFactory (VList [])) ].

(** Modelled from the spec: [Xyz] of [base_types.py] is not among the
    sources; its token and its three float fields are those of its uses in
    [footprint_library.py], [(xyz X Y Z)] and [Xyz(x=1.0, y=1.0, z=1.0)]. *)
Definition Xyz : ClassDecl :=
  Build_ClassDecl "Xyz" "xyz" []
    [ field "x" (plain TFloat) (DefaultValue (vfloat 0));
      field "y" (plain TFloat) (DefaultValue (vfloat 0));
      field "z" (plain TFloat) (DefaultValue (vfloat 0)) ].

Definition xyz (x y z : PrimFloat.float) : value :=
  VObject "Xyz" [("x", vfloat x); ("y", vfloat y); ("z", vfloat z)].

(** [footprint_library.py]: the 3D model of a footprint,
    [(model "3D_MODEL_FILE" (at (xyz X Y Z)) (scale (xyz X Y Z)) (rotate (xyz X Y Z)))]. *)
Definition ModelAt : ClassDecl :=
  Build_ClassDecl "ModelAt" "at" []
    [ field "xyz" (plain (TKiCadObject "Xyz")) (DefaultFactory (xyz 0 0 0)) ].

Definition ModelScale : ClassDecl :=
  Build_ClassDecl "ModelScale" "scale" []
    [ field "xyz" (plain (TKiCadObject "Xyz")) (DefaultFactory (xyz 1 1 1)) ].

Definition ModelRotate : ClassDecl :=
  Build_ClassDecl "ModelRotate" "rotate" []
    [ field "xyz" (plain (TKiCadObject "Xyz")) (DefaultFactory (xyz 0 0 0)) ].

Definition ModelOffset : ClassDecl :=
  Build_ClassDecl "ModelOffset" "offset" []
    [ field "xyz" (plain (TKiCadObject "Xyz")) (DefaultFactory (xyz 0 0 0)) ].

Definition Model : ClassDecl :=
  Build_ClassDecl "Model" "model" []
    [ field "path" (plain TStr) (DefaultValue (vstr ""));
      field_not_required "at" (optional (TKiCadObject "ModelAt")) (DefaultValue VNone);
      field_not_required "scale" (optional (TKiCadObject "ModelScale")) (DefaultValue VNone);
      field_not_required "rotate" (optional (TKiCadObject "ModelRotate")) (DefaultValue VNone);
      field_not_required "offset" (optional (TKiCadObject "ModelOffset")) (DefaultValue VNone) ].

(** Modelled from the spec: [Size] and [At] of [base_types.py] are not among
    the sources.  [Size] is the two-field scalar type [Size{width,height}] with
    token [size] of the spec, both defaults [0.0]; [At] is [(at X Y [ANGLE])]
    with [x] and [y] defaulting to [0.0] and an optional [angle]. *)
Definition Size : ClassDecl :=
  Build_ClassDecl "Size" "size" []
    [ field "width" (plain TFloat) (DefaultValue (vfloat 0));
      field "height" (plain TFloat) (DefaultValue (vfloat 0)) ].

Definition At : ClassDecl :=
  Build_ClassDecl "At" "at" []
    [ field "x" (plain TFloat) (DefaultValue (vfloat 0));
      field "y" (plain TFloat) (DefaultValue (vfloat 0));
      field_not_required "angle" (optional TFloat) (DefaultValue VNone) ].

(** [KiCadObject] itself: the base class has no token and no field of its own. *)
Definition KiCadObjectBase : ClassDecl := Build_ClassDecl "KiCadObject" "" [] [].

(** The classes in scope.  No flag instance has set a class-level token. *)
Definition env : Env :=
  Build_Env
    [ Net; FileName; FileType; FileData; FileChecksum; EmbeddedFile; EmbeddedFiles;
      Xyz; ModelAt; ModelScale; ModelRotate; ModelOffset; Model; Size; At;
      KiCadObjectBase ]
    "" "".

(** The state a top-level call starts from: nothing logged yet. *)
Definition start : state := State ∅ [].

Definition sym (s : string) : SExpr := Atom (ASymbol s).
Definition str (s : string) : SExpr := Atom (AStr s).
Definition num (x : PrimFloat.float) : SExpr := Atom (AFloat x).
Definition int (n : Z) : SExpr := Atom (AInt n).

End Schema.


(** * Properties *)

(** Running the parse monad. *)
Ltac unfold_monad :=
  unfold mbind, M_bind, bind, fmap, M_fmap, ret, raise, try_except, lift,
    mark_used, get_used_indices, logging_warning in *.

Section MonadFacts.

Lemma bind_run {A B} (m : M A) (k : A → M B) (st : state) :
  (m ≫= k) st =
  match m st with
  | (Return a, st') => k a st'
  | (Raise e, st') => (Raise e, st')
  end.
Proof. reflexivity. Qed.

Lemma bind_return {A B} (m : M A) (k : A → M B) (st st' : state) (a : A) :
  m st = (Return a, st') → (m ≫= k) st = k a st'.
Proof. intros H. rewrite bind_run, H. reflexivity. Qed.

Lemma bind_raise {A B} (m : M A) (k : A → M B) (st st' : state) (e : exn) :
  m st = (Raise e, st') → (m ≫= k) st = (Raise e, st').
Proof. intros H. rewrite bind_run, H. reflexivity. Qed.

Lemma fmap_run {A B} (f : A → B) (m : M A) (st : state) :
  (f <$> m) st =
  match m st with
  | (Return a, st') => (Return (f a), st')
  | (Raise e, st') => (Raise e, st')
  end.
Proof. reflexivity. Qed.

Lemma state_eta (st : state) : State (used_indices st) (warnings st) = st.
Proof. destruct st; reflexivity. Qed.

End MonadFacts.

Section CursorFacts.
Context {py : PyBuiltins}.

Lemma items_of_list (c : ParseCursor) (items : list SExpr) (operation : string)
    (st : state) :
  sexpr c = SList items → items_of c operation st = (Return items, st).
Proof. intros H. unfold items_of. rewrite H. reflexivity. Qed.

(** [_get_value_at_index] on an atom that is present: the index is marked
    and the atom returned, whatever the strictness and [required]. *)
Lemma get_value_at_index_atom (c : ParseCursor) (items : list SExpr) (index : nat)
    (a : atom) (field_name type_name : string) (required : bool) (st : state) :
  sexpr c = SList items → items !! index = Some (Atom a) →
  _get_value_at_index c index field_name type_name required st =
    (Return (Atom a), State ({[index]} ∪ used_indices st) (warnings st)).
Proof.
  intros Hc Hi. unfold _get_value_at_index.
  rewrite (bind_return _ _ _ _ _ (items_of_list c items _ st Hc)).
  rewrite Hi. reflexivity.
Qed.

End CursorFacts.

(** ** Boolean scalars *)

Section ParseBool.
Context {py : PyBuiltins}.

(** C10.  Boolean scalar parsing is total over atoms: when the element at the
    target index is an atom (a symbol, a string, a number, a bool, an enum
    member; Python's [None] is no atom of a term), [parse_bool] marks the
    index and returns [True] exactly when the lowercase string form of the
    atom is "yes", "true" or "1", and [False] otherwise.  The cursor, hence
    the strictness, is arbitrary: nothing is raised, nothing is logged.  The
    conversion to [bool] of [_convert_to_type] returns the same bool. *)
Theorem parse_bool_total (c : ParseCursor) (items : list SExpr) (index : nat)
    (a : atom) (field_name : string) (required : bool) (st : state) :
  sexpr c = SList items →
  items !! index = Some (Atom a) →
  a ≠ ANone →
  parse_bool c index field_name required st =
    (Return (Atom (ABool (bool_decide (str_lower (str_atom a) ∈ ["yes"; "true"; "1"])))),
     State ({[index]} ∪ used_indices st) (warnings st))
  ∧ _convert_to_type (Atom a) TBool =
      Return (Atom (ABool (bool_decide (str_lower (str_atom a) ∈ ["yes"; "true"; "1"])))).
Proof.
  intros Hc Hi Ha. split; [|reflexivity]. unfold parse_bool.
  rewrite (bind_return _ _ _ _ _
             (get_value_at_index_atom c items index a field_name "bool" required st Hc Hi)).
  destruct a; try done.
Qed.

End ParseBool.

(** ** The token gate *)

Section TokenGate.
Context {py : PyBuiltins}.

Lemma head_token_list (c : ParseCursor) (head : SExpr) (rest : list SExpr) (st : state) :
  sexpr c = SList (head :: rest) →
  KiCadObject.head_token c st = (Return (py_str head), st).
Proof.
  intros Hc. unfold KiCadObject.head_token. rewrite Hc. cbn [py_truth].
  rewrite bool_decide_false by done. cbn [negb].
  rewrite (bind_return _ _ _ _ _ (items_of_list c _ _ st Hc)). reflexivity.
Qed.

(** The gate at any cursor, the root one or a nested one, and for any
    decoder of the nested fields: no field is parsed. *)
Lemma token_mismatch_at (dec : KiCadObject.decoder) (env : Env) (cls : ClassDecl)
    (c : ParseCursor) (head : SExpr) (rest : list SExpr) (st : state) :
  sexpr c = SList (head :: rest) →
  py_str head ∉ cd_token_name cls :: cd_legacy_token_names cls →
  KiCadObject.from_sexpr_at dec env cls c st =
    (Raise (Exn ValueError
              (TokenMismatch (get_path_str c) (cd_token_name cls) (py_str head))), st).
Proof.
  intros Hc Hne. unfold KiCadObject.from_sexpr_at.
  rewrite (bind_return _ _ _ _ _ (head_token_list c head rest st Hc)).
  rewrite bool_decide_false by done. reflexivity.
Qed.

(** C2.  For every record type, every term whose head is neither the declared
    token name nor a declared legacy alias, and every strictness level,
    [Silent] included, decode raises the token-mismatch error; the parse
    state is left as it was (no field is bound, nothing is logged). *)
Theorem token_mismatch_is_always_fatal (env : Env) (cls : ClassDecl)
    (head : SExpr) (rest : list SExpr) (strictness : ParseStrictness) (st : state) :
  py_str head ∉ cd_token_name cls :: cd_legacy_token_names cls →
  KiCadObject.from_sexpr env cls (head :: rest) strictness st =
    (Raise (Exn ValueError
              (TokenMismatch (cd_name cls) (cd_token_name cls) (py_str head))), st).
Proof.
  intros Hne. unfold KiCadObject.from_sexpr, KiCadObject.from_sexpr_cursor, nested.
  erewrite token_mismatch_at; [|reflexivity|exact Hne].
  cbn. rewrite state_eta. reflexivity.
Qed.

End TokenGate.

(** ** Equality of primitive wrappers *)

Section PrimitiveEquality.
Context {py : PyBuiltins}.

(** C9.  Two primitive wrappers are equal exactly when they have the same
    concrete class, the same token and equal values ([==] on the payloads);
    the [required] flags of the two instances play no part. *)
Theorem primitive_eq_iff (c c' : PrimitiveClass) (token token' : string)
    (v v' : SExpr) (required required' : bool) :
  (KiCadPrimitive.__eq__ (VPrimitive c token v required)
                         (VPrimitive c' token' v' required') = true
   ↔ c = c' ∧ token = token' ∧ py_eqb v v' = true)
  ∧ (∀ r1 r2 r3 r4 : bool,
       KiCadPrimitive.__eq__ (VPrimitive c token v r1) (VPrimitive c' token' v' r2)
       = KiCadPrimitive.__eq__ (VPrimitive c token v r3) (VPrimitive c' token' v' r4)).
Proof.
  split; [|reflexivity].
  cbn [KiCadPrimitive.__eq__].
  rewrite !andb_true_iff, bool_decide_eq_true, String.eqb_eq. tauto.
Qed.

End PrimitiveEquality.

(** ** The pretty printer *)

Section Printer.
Context {py : PyBuiltins}.
Import KiCadObject.

(** The lines of the nested lists, as the loop of the printer builds them. *)
Lemma nested_lines (rest : list SExpr) (n : nat) :
  (fix go (l : list SExpr) : list string :=
     match l with
     | [] => []
     | item :: l' =>
         match item with
         | SList _ => _format_sexpr_kicad_style item (S n) :: go l'
         | Atom _ => go l'
         end
     end) rest
  = map (λ t, _format_sexpr_kicad_style t (S n)) (nested_lists rest).
Proof.
  induction rest as [|item rest IH]; [reflexivity|].
  destruct item as [a|items].
  - rewrite IH. unfold nested_lists. rewrite filter_cons_False; [reflexivity|].
    cbn. discriminate.
  - rewrite IH. unfold nested_lists. rewrite filter_cons_True by reflexivity.
    reflexivity.
Qed.

Lemma format_list_unfold (head : SExpr) (rest : list SExpr) (n : nat) :
  _format_sexpr_kicad_style (SList (head :: rest)) n =
  match rest with
  | [] => tabs n +:+ "(" +:+ py_str head +:+ ")"
  | _ :: _ =>
      if bool_decide (nested_lists rest = []) && bool_decide (length (head :: rest) ≤ 4)
      then tabs n +:+ "(" +:+
           join " " (py_str head :: primitive_values (py_str head) rest) +:+ ")"
      else
        join newline
          ([tabs n +:+ "(" +:+ py_str head +:+
            match primitive_values (py_str head) rest with
            | [] => ""
            | _ :: _ => " " +:+ join " " (primitive_values (py_str head) rest)
            end]
           ++ map (λ t, _format_sexpr_kicad_style t (S n)) (nested_lists rest)
           ++ [tabs n +:+ ")"])
  end.
Proof.
  cbn [_format_sexpr_kicad_style]. rewrite nested_lines. reflexivity.
Qed.

Lemma string_app_assoc (a b c : string) : (a +:+ b) +:+ c = a +:+ b +:+ c.
Proof.
  induction a as [|x a IH]; [reflexivity|].
  change (String x ((a +:+ b) +:+ c) = String x (a +:+ b +:+ c)). by rewrite IH.
Qed.

(** The head followed by its primitive part is the head and the primitives
    joined by single spaces. *)
Lemma first_line (token : string) (primitives : list string) :
  token +:+ match primitives with
            | [] => ""
            | _ :: _ => " " +:+ join " " primitives
            end
  = join " " (token :: primitives).
Proof.
  destruct primitives as [|p ps]; cbn [join].
  - induction token as [|x t IH]; [reflexivity|].
    change (String x (t +:+ "") = String x t). by rewrite IH.
  - reflexivity.
Qed.

(** C7, as the code has it.  An empty list prints as [()] with no
    indentation.  A one-element list prints as [(head)] at its indent.  A list
    whose children are all non-lists, at most three of them, prints on one
    line as [(head v1 v2 v3)].  Any other list prints the head and all its
    non-list children on the first line, then every nested-list child
    recursively, one level deeper, in input order, then [)] on a line of its
    own at the indent of the list.  A list that is not empty starts with one
    tab per nesting level followed by its opening parenthesis. *)
Theorem kicad_style_layout (head : SExpr) (rest : list SExpr) (n : nat) :
  _format_sexpr_kicad_style (SList []) n = "()"
  ∧ _format_sexpr_kicad_style (SList [head]) n = tabs n +:+ "(" +:+ py_str head +:+ ")"
  ∧ (rest ≠ [] → nested_lists rest = [] → length rest ≤ 3 →
     _format_sexpr_kicad_style (SList (head :: rest)) n =
       tabs n +:+ "(" +:+
       join " " (py_str head :: primitive_values (py_str head) rest) +:+ ")")
  ∧ (rest ≠ [] → nested_lists rest ≠ [] ∨ 3 < length rest →
     _format_sexpr_kicad_style (SList (head :: rest)) n =
       join newline
         ([tabs n +:+ "(" +:+ join " " (py_str head :: primitive_values (py_str head) rest)]
          ++ map (λ t, _format_sexpr_kicad_style t (S n)) (nested_lists rest)
          ++ [tabs n +:+ ")"]))
  ∧ ∃ tail, _format_sexpr_kicad_style (SList (head :: rest)) n = tabs n +:+ "(" +:+ tail.
Proof.
  split; [reflexivity|]. split; [reflexivity|].
  split; [|split].
  - intros Hne Hnl Hlen. rewrite format_list_unfold.
    destruct rest as [|x rest]; [done|].
    rewrite bool_decide_true by done.
    rewrite bool_decide_true by (cbn [length] in *; lia). reflexivity.
  - intros Hne Hor. rewrite format_list_unfold.
    destruct rest as [|x rest]; [done|].
    rewrite first_line.
    destruct Hor as [Hnl|Hlen].
    + rewrite (bool_decide_false (nested_lists _ = [])) by done. reflexivity.
    + rewrite (bool_decide_false (length _ ≤ 4)) by (cbn [length] in *; lia).
      rewrite andb_false_r. reflexivity.
  - rewrite format_list_unfold. destruct rest as [|x rest]; [eauto|].
    destruct (_ && _); [eauto|].
    cbn [app join].
    destruct (map _ _ ++ _) eqn:E.
    + destruct (map _ (nested_lists (x :: rest))); discriminate.
    + rewrite !string_app_assoc. eauto.
Qed.

(** C8, the rules for atoms and the head test of the code.  A bool prints as
    [yes] or [no], an enum member as its bare value, a string between double
    quotes with each backslash doubled and each double quote preceded by a
    backslash, the strings [yes] and [no] apart, which are never quoted; an
    int and a float print as [str] gives them.  Under the head [type] a
    string child is printed as it is.  The head test [token_name in ("type")]
    is a substring test: under the head [e] the string child [abc] is printed
    unquoted as well, where the claim asks for the ordinary quoting rule. *)
Theorem type_head_test_is_a_substring_test (b : bool) (e : EnumMember) (s : string)
    (n : Z) (x : float) (k : nat) :
  _format_primitive_value (ABool b) = (if b then "yes" else "no")
  ∧ _format_primitive_value (AEnum e) = enum_value e
  ∧ _format_primitive_value (AStr s) =
      (if bool_decide (s ∈ ["yes"; "no"]) then s
       else double_quote +:+ escape_quotes s +:+ double_quote)
  ∧ escape_quotes (backslash +:+ double_quote)
      = backslash +:+ backslash +:+ backslash +:+ double_quote
  ∧ _format_primitive_value (AInt n) = pretty n
  ∧ _format_primitive_value (AFloat x) = str_of_float x
  ∧ _format_sexpr_kicad_style (SList [Atom (AStr "type"); Atom (AStr s)]) k
      = tabs k +:+ "(type " +:+ s +:+ ")"
  ∧ _format_sexpr_kicad_style (SList [Atom (AStr "net"); Atom (AStr "abc")]) 0
      = "(net " +:+ double_quote +:+ "abc" +:+ double_quote +:+ ")"
  ∧ _format_sexpr_kicad_style (SList [Atom (AStr "e"); Atom (AStr "abc")]) 0
      = "(e abc)".
Proof.
  repeat split; reflexivity.
Qed.

End Printer.

(** ** List fields *)

Section ListFields.
Context {py : PyBuiltins}.
Import KiCadObject.

Lemma nested_used {A} (m : M A) (st : state) :
  used_indices (nested m st).2 = used_indices st.
Proof. unfold nested. destruct (m _) as [r st']. reflexivity. Qed.

Lemma decode_element_used (dec : decoder) (fi : FieldInfo) (c : ParseCursor)
    (item : SExpr) (result : list value) (st st' : state) (r : outcome value) :
  decode_element dec fi c item result st = (r, st') →
  used_indices st' = used_indices st.
Proof.
  intros H. unfold decode_element in H.
  pose proof (nested_used (dec (inner_type fi) item
    (enter c item (name fi +:+ "[" +:+ pretty (length result) +:+ "]"))) st) as Hu.
  rewrite H in Hu. exact Hu.
Qed.

(** One turn of the loop without a token, on a list that is not used yet. *)
Lemma collect_unknown_step (dec : decoder) (fi : FieldInfo) (c : ParseCursor)
    (idx : nat) (items rest : list SExpr) (result : list value) (st : state) :
  idx ∉ used_indices st →
  collect_unknown dec fi c idx (SList items :: rest) result st =
  match decode_element dec fi c (SList items) result st with
  | (Return element, st') =>
      if value_is_none element
      then collect_unknown dec fi c (S idx) rest result st'
      else collect_unknown dec fi c (S idx) rest (result ++ [element])
             (State ({[idx]} ∪ used_indices st') (warnings st'))
  | (Raise e, st') =>
      if caught e then collect_unknown dec fi c (S idx) rest result st'
      else (Raise e, st')
  end.
Proof.
  intros Hidx. cbn [collect_unknown]. unfold_monad.
  rewrite bool_decide_false by done. cbn [isinstance_list negb andb].
  destruct (decode_element _ _ _ _ _ _) as [[element|e] st']; [|by destruct (caught e)].
  by destruct (value_is_none element).
Qed.

(** What is not a list, or is used already, is passed over. *)
Lemma collect_unknown_pass (dec : decoder) (fi : FieldInfo) (c : ParseCursor)
    (idx : nat) (item : SExpr) (rest : list SExpr) (result : list value) (st : state) :
  isinstance_list item = false ∨ idx ∈ used_indices st →
  collect_unknown dec fi c idx (item :: rest) result st =
  collect_unknown dec fi c (S idx) rest result st.
Proof.
  intros H. cbn [collect_unknown]. unfold_monad.
  destruct H as [->|H]; [reflexivity|].
  rewrite (bool_decide_true _ H). by rewrite andb_false_r.
Qed.

(** The loop without a token never raises what its [except] clause names. *)
Lemma collect_unknown_never_fails (dec : decoder) (fi : FieldInfo) (c : ParseCursor)
    (items : list SExpr) (idx : nat) (result : list value) (st st' : state) (e : exn) :
  collect_unknown dec fi c idx items result st = (Raise e, st') → caught e = false.
Proof.
  revert idx result st. induction items as [|item rest IH]; intros idx result st H.
  - discriminate.
  - destruct (decide (isinstance_list item = false ∨ idx ∈ used_indices st)) as [Hp|Hp].
    + rewrite collect_unknown_pass in H by done. eauto.
    + destruct item as [a|l]; [exfalso; apply Hp; by left|].
      rewrite collect_unknown_step in H by tauto.
      destruct (decode_element _ _ _ _ _ _) as [[element|e'] st1].
      * destruct (value_is_none element); eauto.
      * destruct (caught e') eqn:Hc; [eauto|]. by simplify_eq.
Qed.

(** One turn of the loop on a known token, on a list headed by the token. *)
Lemma collect_known_step (dec : decoder) (fi : FieldInfo) (c : ParseCursor)
    (token : string) (idx : nat) (head : SExpr) (tl rest : list SExpr)
    (result : list value) (st : state) :
  py_str head = token →
  collect_known dec fi c token idx (SList (head :: tl) :: rest) result st =
  match decode_element dec fi c (SList (head :: tl)) result
          (State ({[idx]} ∪ used_indices st) (warnings st)) with
  | (Return element, st') =>
      collect_known dec fi c token (S idx) rest
        (if value_is_none element then result else result ++ [element]) st'
  | (Raise e, st') => (Raise e, st')
  end.
Proof.
  intros <-. cbn [collect_known]. rewrite String.eqb_refl. unfold_monad.
  by destruct (decode_element _ _ _ _ _ _) as [[element|e] st'].
Qed.

End ListFields.

(** ** Scalar fields and the strictness policy *)

Section ScalarFields.
Context {py : PyBuiltins}.
Import KiCadObject.

(** The type name a scalar parser reports. *)
Definition scalar_type_name (t : pytype) : string :=
  match t with
  | TEnum _ => "enum" | TInt => "int" | TFloat => "float" | TBool => "bool"
  | _ => "str"
  end.

(** How the engine handles what it finds at the position of a scalar field:
    the message goes to [log_issue], the index marked used or not; or the
    element is taken as an absent optional one; or the error of the
    conversion is none that the [except] clause names, and leaves. *)
Inductive handling :=
  | Policy (marks : bool) (msg : message)
  | Absent
  | Escapes (e : exn).

(** What keeps the positional scalar field [fi] from being bound to a
    converted value on the items of the cursor [c]: there is no element at
    its position, or a list; or the atom there does not convert to the type
    of the field, [int] or [float] raising [e], or no member of the [Enum]
    having that value or name.  [bool] and [str] convert every atom. *)
Inductive scalar_failure (c : ParseCursor) (items : list SExpr) (fi : FieldInfo)
    : handling → Prop :=
  | nothing_there :
      items !! (position_index fi + 1) = None →
      scalar_failure c items fi
        (if is_optional fi then Absent
         else Policy false
                (MissingRequired (get_path_str c) (scalar_type_name (inner_type fi))
                   (name fi) (position_index fi + 1)))
  | list_there l :
      items !! (position_index fi + 1) = Some (SList l) →
      scalar_failure c items fi
        (if is_optional fi then Absent
         else Policy false
                (ExpectedGotList (get_path_str c) (scalar_type_name (inner_type fi))
                   (name fi)))
  | int_conversion_failure a e :
      inner_type fi = TInt →
      items !! (position_index fi + 1) = Some (Atom a) → a ≠ ANone →
      py_int (Atom a) = Raise e →
      scalar_failure c items fi
        (if caught e
         then Policy true
                (CannotConvert (get_path_str c) (str_atom a) "int" (name fi) (exn_msg e))
         else Escapes e)
  | float_conversion_failure a e :
      inner_type fi = TFloat →
      items !! (position_index fi + 1) = Some (Atom a) → a ≠ ANone →
      py_float (Atom a) = Raise e →
      scalar_failure c items fi
        (if caught e
         then Policy true
                (CannotConvert (get_path_str c) (str_atom a) "float" (name fi) (exn_msg e))
         else Escapes e)
  | enum_conversion_failure a ec :
      inner_type fi = TEnum ec →
      items !! (position_index fi + 1) = Some (Atom a) → a ≠ ANone →
      enum_by_value ec (str_atom a) = None →
      enum_by_name ec (str_upper (str_atom a)) = None →
      scalar_failure c items fi
        (Policy true (InvalidEnumValue (get_path_str c) (str_atom a) (name fi))).

(** The state after the anomaly: the index marked or not, the message
    logged under [Failsafe] only. *)
Definition after_anomaly (s : ParseStrictness) (marks : bool) (index : nat)
    (msg : message) (st : state) : state :=
  State (if marks then {[index]} ∪ used_indices st else used_indices st)
        (match s with FAILSAFE => warnings st ++ [msg] | _ => warnings st end).

(** The outcome of the policy: raise under [Strict], nothing otherwise. *)
Definition policy_outcome (s : ParseStrictness) (msg : message) : outcome value :=
  match s with
  | STRICT => Raise (Exn ValueError msg)
  | _ => Return VNone
  end.

(** What the field parse gives for each handling. *)
Definition handled (s : ParseStrictness) (h : handling) (index : nat) (st : state)
    : outcome value * state :=
  match h with
  | Policy marks msg => (policy_outcome s msg, after_anomaly s marks index msg st)
  | Absent => (Return VNone, st)
  | Escapes e => (Raise e, State ({[index]} ∪ used_indices st) (warnings st))
  end.

Lemma get_value_missing (c : ParseCursor) (items : list SExpr) (index : nat)
    (field_name type_name : string) (required : bool) :
  sexpr c = SList items → items !! index = None →
  _get_value_at_index c index field_name type_name required =
    ((if required
      then log_issue c (MissingRequired (get_path_str c) type_name field_name index)
      else ret ());; ret (Atom ANone)).
Proof.
  intros Hc Hi. unfold _get_value_at_index, items_of. rewrite Hc. cbn [as_sequence conv].
  unfold_monad. by rewrite Hi.
Qed.

Lemma get_value_list (c : ParseCursor) (items l : list SExpr) (index : nat)
    (field_name type_name : string) (required : bool) :
  sexpr c = SList items → items !! index = Some (SList l) →
  _get_value_at_index c index field_name type_name required =
    ((if required
      then log_issue c (ExpectedGotList (get_path_str c) type_name field_name)
      else ret ());; ret (Atom ANone)).
Proof.
  intros Hc Hi. unfold _get_value_at_index, items_of. rewrite Hc. cbn [as_sequence conv].
  unfold_monad. by rewrite Hi.
Qed.

Lemma parse_primitive_positional (fi : FieldInfo) (c : ParseCursor) :
  token_truth (token_name fi) = None →
  _parse_primitive_field fi c = (raw <$> scalar_parser c fi).
Proof. intros H. unfold _parse_primitive_field. rewrite H. reflexivity. Qed.

(** What the field parse does with each failure. *)
Lemma scalar_failure_at_field (c : ParseCursor) (items : list SExpr) (fi : FieldInfo)
    (h : handling) (st : state) :
  sexpr c = SList items →
  token_truth (token_name fi) = None →
  scalar_failure c items fi h →
  _parse_primitive_field fi c st = handled (strictness c) h (position_index fi + 1) st.
Proof.
  intros Hc Ht Ha. rewrite parse_primitive_positional by done.
  unfold scalar_parser, handled, after_anomaly.
  destruct Ha as [Hi|l Hi|a e Hty Hi Hn He|a e Hty Hi Hn He|a ec Hty Hi Hn Hv Hnm].
  - destruct (inner_type fi); unfold parse_enum, parse_int, parse_float, parse_bool,
      parse_str; rewrite (get_value_missing c items) by done;
      destruct (is_optional fi); cbn [negb];
      unfold log_issue, policy_outcome; destruct st; by destruct (strictness c).
  - destruct (inner_type fi); unfold parse_enum, parse_int, parse_float, parse_bool,
      parse_str; rewrite (get_value_list c items l) by done;
      destruct (is_optional fi); cbn [negb];
      unfold log_issue, policy_outcome; destruct st; by destruct (strictness c).
  - rewrite Hty. unfold parse_int. rewrite fmap_run.
    rewrite (bind_return _ _ _ _ _
               (get_value_at_index_atom c items _ a (name fi) "int" _ st Hc Hi)).
    destruct a; try done; unfold_monad; rewrite He; destruct (caught e); try done;
      unfold log_issue, policy_outcome; by destruct (strictness c).
  - rewrite Hty. unfold parse_float. rewrite fmap_run.
    rewrite (bind_return _ _ _ _ _
               (get_value_at_index_atom c items _ a (name fi) "float" _ st Hc Hi)).
    destruct a; try done; unfold_monad; rewrite He; destruct (caught e); try done;
      unfold log_issue, policy_outcome; by destruct (strictness c).
  - rewrite Hty. unfold parse_enum. rewrite fmap_run.
    rewrite (bind_return _ _ _ _ _
               (get_value_at_index_atom c items _ a (name fi) "enum" _ st Hc Hi)).
    destruct a; try done; cbn [is_none py_str]; rewrite Hv, Hnm;
      unfold log_issue, policy_outcome; by destruct (strictness c).
Qed.

End ScalarFields.

(** ** What a decode writes to the log *)

(** Under [Failsafe] the log only grows; under [Strict] and [Silent] it is
    left as it was. *)
Definition log_rel (s : ParseStrictness) (l l' : list message) : Prop :=
  match s with
  | FAILSAFE => l `prefix_of` l'
  | _ => l = l'
  end.

Definition tracks {A} (s : ParseStrictness) (m : M A) : Prop :=
  ∀ st r st', m st = (r, st') → log_rel s (warnings st) (warnings st').

Section LogFacts.
Context {py : PyBuiltins}.
Import KiCadObject.
Variable s : ParseStrictness.

Lemma log_rel_refl l : log_rel s l l.
Proof. by destruct s. Qed.

Lemma log_rel_trans l1 l2 l3 : log_rel s l1 l2 → log_rel s l2 l3 → log_rel s l1 l3.
Proof. destruct s; cbn; [congruence|congruence|by etrans]. Qed.

Lemma tracks_ret {A} (a : A) : tracks s (ret a).
Proof. intros st r st' [= <- <-]. apply log_rel_refl. Qed.

Lemma tracks_lift {A} (o : outcome A) : tracks s (lift o).
Proof. intros st r st' [= <- <-]. apply log_rel_refl. Qed.

Lemma tracks_raise {A} c msg : tracks s (@raise A c msg).
Proof. intros st r st' [= <- <-]. apply log_rel_refl. Qed.

Lemma tracks_mark_used idx : tracks s (mark_used idx).
Proof. intros st r st' [= <- <-]. apply log_rel_refl. Qed.

Lemma tracks_get_used : tracks s get_used_indices.
Proof. intros st r st' [= <- <-]. apply log_rel_refl. Qed.

Lemma tracks_bind {A B} (m : M A) (k : A → M B) :
  tracks s m → (∀ a, tracks s (k a)) → tracks s (m ≫= k).
Proof.
  intros Hm Hk st r st' H. rewrite bind_run in H.
  destruct (m st) as [[a|e] st1] eqn:E.
  - eapply log_rel_trans; [by eapply Hm|by eapply Hk].
  - simplify_eq. by eapply Hm.
Qed.

Lemma tracks_fmap {A B} (f : A → B) (m : M A) : tracks s m → tracks s (f <$> m).
Proof. intros Hm. apply tracks_bind; [done|]. intros a. apply tracks_ret. Qed.

Lemma tracks_try_except {A} (body : M A) (handler : exn → M A) :
  tracks s body → (∀ e, tracks s (handler e)) → tracks s (try_except body handler).
Proof.
  intros Hb Hh st r st' H. unfold try_except in H.
  destruct (body st) as [[a|e] st1] eqn:E.
  - simplify_eq. by eapply Hb.
  - destruct (caught e).
    + eapply log_rel_trans; [by eapply Hb|by eapply Hh].
    + simplify_eq. by eapply Hb.
Qed.

Lemma tracks_nested {A} (m : M A) : tracks s m → tracks s (nested m).
Proof.
  intros Hm st r st' H. unfold nested in H.
  destruct (m _) as [r1 st1] eqn:E. simplify_eq. cbn.
  apply (Hm _ _ _ E).
Qed.

Lemma tracks_log_issue (c : ParseCursor) msg : strictness c = s → tracks s (log_issue c msg).
Proof.
  intros <- st r st' H. unfold log_issue, raise, ret, logging_warning in H.
  destruct (strictness c); simplify_eq; cbn; try done.
  by apply prefix_app_r.
Qed.

Lemma tracks_if {A} (b : bool) (m1 m2 : M A) :
  tracks s m1 → tracks s m2 → tracks s (if b then m1 else m2).
Proof. by destruct b. Qed.

End LogFacts.

Create HintDb tracks.
#[local] Hint Resolve tracks_ret tracks_lift tracks_raise tracks_mark_used tracks_get_used
  tracks_log_issue : tracks.

(** Goes through a monadic body: binds, handlers, then the cases of what is
    matched. *)
Ltac tracks_step :=
  match goal with
  | |- tracks _ (_ ≫= _) => apply tracks_bind; [|intros ?]
  | |- tracks _ (_ <$> _) => apply tracks_fmap
  | |- tracks _ (try_except _ _) => apply tracks_try_except; [|intros ?]
  | |- tracks _ (if _ then _ else _) => apply tracks_if
  | |- tracks _ (match ?x with _ => _ end) => destruct x
  | |- _ => solve [eauto with tracks]
  end.

Section LogEngine.
Context {py : PyBuiltins}.
Import KiCadObject.
Variable s : ParseStrictness.

Lemma tracks_items_of c op : tracks s (items_of c op).
Proof. apply tracks_lift. Qed.

Lemma tracks_get_value c index fn tn required :
  strictness c = s → tracks s (_get_value_at_index c index fn tn required).
Proof.
  intros Hc. unfold _get_value_at_index.
  pose proof (tracks_items_of c). repeat tracks_step.
Qed.

Lemma tracks_scalar_parser c fi : strictness c = s → tracks s (scalar_parser c fi).
Proof.
  intros Hc. unfold scalar_parser.
  pose proof (tracks_get_value c) as Hg.
  destruct (inner_type fi);
    unfold parse_int, parse_float, parse_bool, parse_str, parse_enum;
    repeat tracks_step.
Qed.

Lemma tracks_find_token c token mark : tracks s (find_token c token mark).
Proof.
  unfold find_token. pose proof (tracks_items_of c). repeat tracks_step.
Qed.

Lemma tracks_parse_primitive fi c :
  strictness c = s → tracks s (_parse_primitive_field fi c).
Proof.
  intros Hc. unfold _parse_primitive_field. cbv zeta.
  pose proof (tracks_scalar_parser c fi Hc).
  pose proof (tracks_find_token c).
  repeat tracks_step.
Qed.

(** A decoder that keeps to the policy on every cursor of this strictness. *)
Definition dec_tracks (dec : decoder) : Prop :=
  ∀ t sx c, strictness c = s → tracks s (dec t sx c).

Lemma tracks_decode_element dec fi c item result :
  dec_tracks dec → strictness c = s → tracks s (decode_element dec fi c item result).
Proof. intros Hd Hc. apply tracks_nested, Hd. exact Hc. Qed.

Lemma tracks_collect_known dec fi c token items idx result :
  dec_tracks dec → strictness c = s →
  tracks s (collect_known dec fi c token idx items result).
Proof.
  intros Hd Hc. revert idx result.
  induction items as [|item rest IH]; intros idx result; cbn [collect_known].
  - apply tracks_ret.
  - pose proof (tracks_decode_element dec fi c) as He.
    repeat tracks_step.
Qed.

Lemma tracks_collect_unknown dec fi c items idx result :
  dec_tracks dec → strictness c = s →
  tracks s (collect_unknown dec fi c idx items result).
Proof.
  intros Hd Hc. revert idx result.
  induction items as [|item rest IH]; intros idx result; cbn [collect_unknown].
  - apply tracks_ret.
  - pose proof (tracks_decode_element dec fi c) as He.
    repeat tracks_step.
Qed.

Lemma tracks_parse_list dec fi c :
  dec_tracks dec → strictness c = s → tracks s (_parse_list_field dec fi c).
Proof.
  intros Hd Hc. unfold _parse_list_field.
  pose proof (tracks_items_of c).
  pose proof (tracks_collect_known dec fi c).
  pose proof (tracks_collect_unknown dec fi c).
  repeat tracks_step.
Qed.

Lemma tracks_parse_sexpr_base dec fi c :
  dec_tracks dec → strictness c = s → tracks s (_parse_sexpr_base_field dec fi c).
Proof.
  intros Hd Hc. unfold _parse_sexpr_base_field.
  pose proof (tracks_items_of c).
  pose proof (tracks_find_token c).
  assert (∀ t sx n, tracks s (nested (dec t sx (enter c sx n)))) as Hn
    by (intros; by apply tracks_nested, Hd).
  repeat tracks_step.
Qed.

Lemma tracks_parse_field dec fi c :
  dec_tracks dec → strictness c = s → tracks s (_parse_field dec fi c).
Proof.
  intros Hd Hc. unfold _parse_field.
  pose proof (tracks_parse_list dec fi c Hd Hc).
  pose proof (tracks_parse_primitive fi c Hc).
  pose proof (tracks_parse_sexpr_base dec fi c Hd Hc).
  repeat tracks_step.
Qed.

Lemma tracks_parse_fields dec fis c pv :
  dec_tracks dec → strictness c = s → tracks s (parse_fields dec fis c pv).
Proof.
  intros Hd Hc. revert pv. induction fis as [|fi fis IH]; intros pv; cbn [parse_fields].
  - apply tracks_ret.
  - pose proof (tracks_parse_field dec fi c Hd Hc). repeat tracks_step.
Qed.

Lemma init_fields_state fs kw st r st' : init_fields fs kw st = (r, st') → st' = st.
Proof.
  revert r st'. induction fs as [|f fs IH]; intros r st' H; cbn [init_fields] in H.
  - unfold ret in H. by simplify_eq.
  - unfold_monad.
    destruct (kw !! df_name f) as [v|]; [|destruct (df_default f) as [|v|v]]; cbn in H.
    2: by simplify_eq.
    all: pose proof (IH _ _ (surjective_pairing _)) as Hst;
      destruct (init_fields fs kw st) as [[vs|e] st1]; cbn in Hst; by simplify_eq.
Qed.

Lemma construct_state cls kw st r st' : construct cls kw st = (r, st') → st' = st.
Proof.
  unfold construct. rewrite bind_run.
  destruct (init_fields _ _ _) as [[vs|e] st1] eqn:E; apply init_fields_state in E.
  - destruct (String.eqb _ _); intros [= <- <-]; done.
  - intros [= <- <-]; done.
Qed.

Lemma tracks_construct cls kw : tracks s (construct cls kw).
Proof. intros st r st' H. apply construct_state in H as ->. apply log_rel_refl. Qed.

Lemma tracks_from_sexpr_at dec env cls c :
  dec_tracks dec → strictness c = s → tracks s (from_sexpr_at dec env cls c).
Proof.
  intros Hd Hc. unfold from_sexpr_at, head_token.
  pose proof (tracks_items_of c).
  pose proof (tracks_parse_fields dec (_classify_fields env cls) c ∅ Hd Hc).
  pose proof (tracks_construct cls).
  repeat tracks_step.
Qed.

Lemma dispatch_tracks depth env : dec_tracks (dispatch depth env).
Proof.
  induction depth as [|depth IH]; intros t sx c Hc.
  all: destruct t; cbn [dispatch];
    unfold KiCadPrimitive.from_sexpr, OptionalFlag.from_sexpr,
      OptionalSimpleFlag.from_sexpr; repeat tracks_step.
  by apply tracks_from_sexpr_at.
Qed.

(** The whole decode keeps to the policy of its strictness. *)
Lemma from_sexpr_tracks env cls sx : tracks s (from_sexpr env cls sx s).
Proof.
  unfold from_sexpr, from_sexpr_cursor. apply tracks_nested, tracks_from_sexpr_at.
  - apply dispatch_tracks.
  - reflexivity.
Qed.

End LogEngine.

(** ** From the fields to the instance *)

Section Binding.
Context {py : PyBuiltins}.
Import KiCadObject.

Lemma classify_field_name env position f : name (_classify_field env position f) = df_name f.
Proof.
  unfold _classify_field.
  repeat match goal with |- context [if ?b then _ else _] => destruct b end; reflexivity.
Qed.

(** A scalar field is never given a token: it is bound by position. *)
Lemma classify_field_primitive env position f :
  field_type (_classify_field env position f) = PRIMITIVE →
  token_name (_classify_field env position f) = None.
Proof.
  unfold _classify_field.
  repeat match goal with |- context [if ?b then _ else _] => destruct b end;
    cbn; congruence.
Qed.

Lemma classify_from_names env position fields :
  (name <$> classify_from env position fields) `sublist_of` (df_name <$> fields).
Proof.
  revert position. induction fields as [|f fields IH]; intros position; [done|].
  cbn [classify_from]. destruct (is_private (df_name f)).
  - by apply sublist_cons.
  - cbn [fmap list_fmap]. rewrite classify_field_name. by apply sublist_skip.
Qed.

Lemma classify_fields_nodup env cls :
  NoDup (df_name <$> cd_fields cls) → NoDup (name <$> _classify_fields env cls).
Proof. intros H. exact (sublist_NoDup _ _ H (classify_from_names _ _ _)). Qed.

Lemma parse_field_primitive dec fi c :
  is_list fi = false → field_type fi = PRIMITIVE →
  _parse_field dec fi c = _parse_primitive_field fi c.
Proof. intros H1 H2. unfold _parse_field. by rewrite H1, H2. Qed.

(** The fields after [fi] leave its entry of [parsed_values] alone. *)
Lemma parse_fields_other dec fis c pv st pv' st' n :
  n ∉ name <$> fis →
  parse_fields dec fis c pv st = (Return pv', st') →
  pv' !! n = pv !! n.
Proof.
  revert pv st. induction fis as [|fi fis IH]; intros pv st Hn H; cbn [parse_fields] in H.
  - unfold ret in H. by simplify_eq.
  - rewrite bind_run in H. destruct (_parse_field dec fi c st) as [[v|e] st1]; [|done].
    apply not_elem_of_cons in Hn as [Hne Hn].
    rewrite (IH _ _ Hn H). destruct (value_is_none v); [done|].
    by rewrite lookup_insert_ne.
Qed.

(** A field whose parse returns [v] whatever the state leaves [v] under its
    name, or nothing when [v] is [None]. *)
Lemma parse_fields_lookup dec fis c pv st pv' st' fi v :
  NoDup (name <$> fis) → fi ∈ fis →
  (∀ st0, (_parse_field dec fi c st0).1 = Return v) →
  parse_fields dec fis c pv st = (Return pv', st') →
  pv' !! name fi = if value_is_none v then pv !! name fi else Some v.
Proof.
  revert pv st. induction fis as [|fi' fis IH]; intros pv st Hnd Hin Hv H.
  - by apply elem_of_nil in Hin.
  - cbn [parse_fields] in H. rewrite bind_run in H.
    destruct (_parse_field dec fi' c st) as [[v'|e] st1] eqn:E; [|done].
    apply NoDup_cons in Hnd as [Hfresh Hnd].
    destruct (decide (name fi' = name fi)) as [Heq|Hne].
    + assert (fi' = fi) as ->.
      { apply elem_of_cons in Hin as [->|Hin]; [done|].
        exfalso. apply Hfresh. rewrite Heq. by apply list_elem_of_fmap_2. }
      specialize (Hv st). rewrite E in Hv. cbn in Hv. simplify_eq.
      rewrite (parse_fields_other _ _ _ _ _ _ _ _ Hfresh H).
      destruct (value_is_none v); [done|]. by rewrite lookup_insert_eq.
    + apply elem_of_cons in Hin as [->|Hin]; [done|].
      rewrite (IH _ _ Hnd Hin Hv H).
      destruct (value_is_none v); [|done].
      destruct (value_is_none v'); [done|]. by rewrite lookup_insert_ne.
Qed.

(** A field whose parse raises whatever the state makes the loop raise. *)
Lemma parse_fields_raise dec fis c fi :
  fi ∈ fis →
  (∀ st0, ∃ e, (_parse_field dec fi c st0).1 = Raise e) →
  ∀ pv st, ∃ e, (parse_fields dec fis c pv st).1 = Raise e.
Proof.
  induction fis as [|fi' fis IH]; intros Hin Hr pv st.
  - by apply elem_of_nil in Hin.
  - cbn [parse_fields]. rewrite bind_run.
    destruct (_parse_field dec fi' c st) as [[v'|e] st1] eqn:E; [|by eexists].
    apply elem_of_cons in Hin as [->|Hin]; [|by apply IH].
    destruct (Hr st) as [e He]. rewrite E in He. done.
Qed.

(** What a field logs under [Failsafe] is still in the log at the end. *)
Lemma parse_fields_logged dec fis c pv st pv' st' fi msg :
  dec_tracks FAILSAFE dec → strictness c = FAILSAFE →
  fi ∈ fis →
  (∀ st0, msg ∈ warnings (_parse_field dec fi c st0).2) →
  parse_fields dec fis c pv st = (Return pv', st') →
  msg ∈ warnings st'.
Proof.
  intros Hd Hc. revert pv st. induction fis as [|fi' fis IH]; intros pv st Hin Hm H.
  - by apply elem_of_nil in Hin.
  - cbn [parse_fields] in H. rewrite bind_run in H.
    destruct (_parse_field dec fi' c st) as [[v'|e] st1] eqn:E; [|done].
    apply elem_of_cons in Hin as [->|Hin]; [|by eapply IH].
    specialize (Hm st). rewrite E in Hm. cbn in Hm.
    pose proof (tracks_parse_fields FAILSAFE dec fis c _ Hd Hc _ _ _ H) as Hp.
    cbn in Hp. destruct Hp as [k ->]. apply elem_of_app. by left.
Qed.

(** The generated [__init__]: each declared field holds the keyword argument
    of its name when there is one, its default otherwise. *)
Lemma init_fields_assoc fs kw st fields st' f :
  NoDup (df_name <$> fs) → f ∈ fs →
  init_fields fs kw st = (Return fields, st') →
  ∃ v, assoc (df_name f) fields = Some v
       ∧ match kw !! df_name f with
         | Some w => v = w
         | None => df_default f = DefaultValue v ∨ df_default f = DefaultFactory v
         end.
Proof.
  revert fields st. induction fs as [|f' fs IH]; intros fields st Hnd Hin H.
  - by apply elem_of_nil in Hin.
  - cbn [init_fields] in H. apply NoDup_cons in Hnd as [Hfresh Hnd].
    unfold_monad.
    assert (∃ v1 vs, init_fields fs kw st = (Return vs, st') ∧ fields = (df_name f', v1) :: vs
              ∧ match kw !! df_name f' with
                | Some w => v1 = w
                | None => df_default f' = DefaultValue v1 ∨ df_default f' = DefaultFactory v1
                end) as (v1 & vs & E2 & -> & Hv1).
    { destruct (kw !! df_name f') as [w|]; [|destruct (df_default f') as [|d|d]];
        cbn in H; try done;
        destruct (init_fields fs kw st) as [[vs|e2] st2]; simplify_eq; eauto 10. }
    cbn [assoc]. apply elem_of_cons in Hin as [->|Hin].
    + rewrite String.eqb_refl. eauto.
    + destruct (String.eqb_spec (df_name f') (df_name f)) as [Heq|Hne].
      * exfalso. apply Hfresh. rewrite Heq. by apply list_elem_of_fmap_2.
      * by eapply IH.
Qed.

(** A decode that returns has gone through the fields and the constructor. *)
Lemma from_sexpr_return env cls head rest s st inst st' :
  from_sexpr env cls (head :: rest) s st = (Return inst, st') →
  let c := Cursor (SList (head :: rest)) [cd_name cls] s in
  ∃ pv st1 fields,
    parse_fields (dispatch (S (sexpr_depth (SList (head :: rest)))) env)
      (_classify_fields env cls) c ∅ (State ∅ (warnings st)) = (Return pv, st1)
    ∧ init_fields (cd_fields cls) pv st1 = (Return fields, st1)
    ∧ inst = VObject (cd_name cls) fields
    ∧ warnings st' = warnings st1.
Proof.
  intros H c. unfold from_sexpr, from_sexpr_cursor, nested in H.
  fold c in H. unfold from_sexpr_at in H.
  rewrite (bind_return _ _ _ _ _ (head_token_list c head rest _ eq_refl)) in H.
  destruct (bool_decide _); [|by unfold raise in H].
  rewrite bind_run in H.
  destruct (parse_fields _ _ _ _ _) as [[pv|e] st1] eqn:E; [|done].
  exists pv, st1. unfold construct in H. rewrite bind_run in H.
  destruct (init_fields _ _ _) as [[fields|e] st2] eqn:E2; [|done].
  pose proof (init_fields_state _ _ _ _ _ E2) as ->.
  exists fields. destruct (String.eqb _ _); unfold raise, ret in H; by simplify_eq.
Qed.

(** When the loop over the fields raises, so does the decode. *)
Lemma from_sexpr_raise env cls head rest s st :
  let c := Cursor (SList (head :: rest)) [cd_name cls] s in
  (∀ dec pv st0, ∃ e, (parse_fields dec (_classify_fields env cls) c pv st0).1 = Raise e) →
  ∃ e st', from_sexpr env cls (head :: rest) s st = (Raise e, st').
Proof.
  intros c Hr. unfold from_sexpr, from_sexpr_cursor, nested.
  fold c. unfold from_sexpr_at.
  rewrite (bind_return _ _ _ _ _ (head_token_list c head rest _ eq_refl)).
  destruct (bool_decide _); [|unfold raise; eauto].
  rewrite bind_run.
  destruct (parse_fields _ _ _ _ _) as [[pv|e'] st1] eqn:E; [|eauto].
  match type of E with
  | parse_fields ?d _ _ ?pv0 ?st0 = _ => destruct (Hr d pv0 st0) as [e He]
  end.
  rewrite E in He. done.
Qed.

End Binding.

Section Strictness.
Context {py : PyBuiltins}.
Import KiCadObject.

(** The atom at the position of the scalar field [fi] converts to [v]. *)
Inductive scalar_bound (items : list SExpr) (fi : FieldInfo) : value → Prop :=
  | bound_int a n :
      inner_type fi = TInt →
      items !! (position_index fi + 1) = Some (Atom a) → a ≠ ANone →
      py_int (Atom a) = Return n →
      scalar_bound items fi (VAtom (AInt n))
  | bound_float a x :
      inner_type fi = TFloat →
      items !! (position_index fi + 1) = Some (Atom a) → a ≠ ANone →
      py_float (Atom a) = Return x →
      scalar_bound items fi (VAtom (AFloat x))
  | bound_bool a :
      inner_type fi = TBool →
      items !! (position_index fi + 1) = Some (Atom a) → a ≠ ANone →
      scalar_bound items fi (VAtom (ABool (py_bool_text (Atom a))))
  | bound_str a :
      inner_type fi = TStr →
      items !! (position_index fi + 1) = Some (Atom a) → a ≠ ANone →
      scalar_bound items fi (VAtom (AStr (str_atom a)))
  | bound_enum a ec m :
      inner_type fi = TEnum ec →
      items !! (position_index fi + 1) = Some (Atom a) → a ≠ ANone →
      enum_by_value ec (str_atom a) = Some m →
      scalar_bound items fi (VAtom (AEnum m)).

Lemma scalar_bound_not_none items fi v : scalar_bound items fi v → value_is_none v = false.
Proof. by destruct 1. Qed.

Lemma scalar_bound_at_field (c : ParseCursor) (items : list SExpr) (fi : FieldInfo)
    (v : value) (st : state) :
  sexpr c = SList items →
  token_truth (token_name fi) = None →
  scalar_bound items fi v →
  _parse_primitive_field fi c st =
    (Return v, State ({[position_index fi + 1]} ∪ used_indices st) (warnings st)).
Proof.
  intros Hc Ht Hb. rewrite parse_primitive_positional by done.
  unfold scalar_parser. rewrite fmap_run.
  destruct Hb as [a n Hty Hi Hn Hv|a x Hty Hi Hn Hv|a Hty Hi Hn|a Hty Hi Hn
                 |a ec m Hty Hi Hn Hv]; rewrite Hty;
    unfold parse_int, parse_float, parse_bool, parse_str, parse_enum;
    erewrite bind_return by (by eapply get_value_at_index_atom);
    destruct a; try done; unfold_monad; cbn [is_none py_str] in *; by rewrite ?Hv.
Qed.

(** The declared default of a dataclass field. *)
Definition declared_default (f : DataclassField) : option value :=
  match df_default f with
  | DefaultValue v | DefaultFactory v => Some v
  | NoDefault => None
  end.

(** C5.  Let [f] be a declared scalar field of a record type, classified as
    [fi], and let something keep it from being bound on the term: no element
    at its position, a list there, or an atom that does not convert.

    When the field is required and the element is missing or a list, and when
    the conversion raises [ValueError] or [TypeError] or finds no [Enum]
    member, the message goes through the policy: at the field the parse
    raises [ValueError msg] under [Strict]; returns nothing having logged
    [msg] under [Failsafe]; returns nothing having logged nothing under
    [Silent].  For the decode of the whole term: under [Strict] it raises;
    under [Failsafe] and [Silent] an instance it returns holds the declared
    default in [f], with [msg] in the log under [Failsafe] and the log as it
    was under [Silent].

    When the field is optional and the element is missing or a list, the
    field parse returns nothing and leaves the state as it was, under every
    strictness, and an instance returned holds the declared default.

    When the conversion raises another error, the field parse raises it with
    the index marked, and the decode of the term raises, under every
    strictness.

    And in any returned instance, every other scalar field whose atom
    converts holds the converted value. *)
Theorem scalar_anomalies_follow_strictness (env : Env) (cls : ClassDecl)
    (head : SExpr) (rest : list SExpr) (s : ParseStrictness)
    (position : nat) (f : DataclassField) (h : handling) :
  let items := head :: rest in
  let c := Cursor (SList items) [cd_name cls] s in
  let fi := _classify_field env position f in
  NoDup (df_name <$> cd_fields cls) →
  f ∈ cd_fields cls →
  fi ∈ _classify_fields env cls →
  field_type fi = PRIMITIVE →
  is_list fi = false →
  scalar_failure c items fi h →
  (∀ dec st, _parse_field dec fi c st = handled s h (position_index fi + 1) st)
  ∧ (∀ st,
       match h with
       | Policy _ msg =>
           match s with
           | STRICT => ∃ e st', from_sexpr env cls items s st = (Raise e, st')
           | _ =>
               ∀ inst st', from_sexpr env cls items s st = (Return inst, st') →
                 is_Some (declared_default f)
                 ∧ getattr inst (df_name f) = declared_default f
                 ∧ match s with
                   | FAILSAFE => msg ∈ warnings st'
                   | _ => warnings st' = warnings st
                   end
           end
       | Absent =>
           ∀ inst st', from_sexpr env cls items s st = (Return inst, st') →
             is_Some (declared_default f)
             ∧ getattr inst (df_name f) = declared_default f
       | Escapes _ => ∃ e st', from_sexpr env cls items s st = (Raise e, st')
       end)
  ∧ (∀ position' f' v st inst st',
       f' ∈ cd_fields cls →
       _classify_field env position' f' ∈ _classify_fields env cls →
       field_type (_classify_field env position' f') = PRIMITIVE →
       is_list (_classify_field env position' f') = false →
       scalar_bound items (_classify_field env position' f') v →
       from_sexpr env cls items s st = (Return inst, st') →
       getattr inst (df_name f') = Some v).
Proof.
  intros items c fi Hnd Hf Hfi Hprim Hlist Hfail.
  assert (token_truth (token_name fi) = None) as Htok
    by (unfold fi; by rewrite classify_field_primitive).
  assert (∀ dec st, _parse_field dec fi c st = handled s h (position_index fi + 1) st)
    as Hfield.
  { intros dec st. rewrite parse_field_primitive by done.
    by rewrite (scalar_failure_at_field c items fi h st). }
  (* the decode raises as soon as the field does *)
  assert ((∀ st0, ∃ e, (handled s h (position_index fi + 1) st0).1 = Raise e) →
          ∀ st, ∃ e st', from_sexpr env cls items s st = (Raise e, st')) as Hraise.
  { intros Hr st. apply from_sexpr_raise. intros dec pv st0.
    apply (parse_fields_raise dec _ c fi Hfi).
    intros st1. rewrite Hfield. apply Hr. }
  (* an instance returned holds the default where the field gave nothing *)
  assert ((∀ st0, (handled s h (position_index fi + 1) st0).1 = Return VNone) →
          ∀ st inst st', from_sexpr env cls items s st = (Return inst, st') →
            is_Some (declared_default f)
            ∧ getattr inst (df_name f) = declared_default f) as Hdefault.
  { intros Hnone st inst st' H.
    apply from_sexpr_return in H as (pv & st1 & fields & Hpf & Hinit & -> & Hw).
    fold items c in Hpf.
    set (dec0 := dispatch (S (sexpr_depth (SList items))) env) in *.
    assert (∀ st0, (_parse_field dec0 fi c st0).1 = Return VNone) as Hy
      by (intros st0; rewrite Hfield; apply Hnone).
    pose proof (parse_fields_lookup _ _ _ _ _ _ _ fi VNone
                  (classify_fields_nodup env cls Hnd) Hfi Hy Hpf) as Hl.
    destruct (init_fields_assoc _ _ _ _ _ f Hnd Hf Hinit) as (v & Hv & Hd).
    unfold fi in Hl. rewrite classify_field_name in Hl.
    cbn [value_is_none VNone] in Hl. rewrite lookup_empty in Hl. rewrite Hl in Hd.
    assert (declared_default f = Some v) as ->
      by (unfold declared_default; by destruct Hd as [-> | ->]).
    split; [by eexists|done]. }
  split; [exact Hfield|]. split.
  - intros st. destruct h as [marks msg| |e].
    + destruct s.
      * apply Hraise. intros st0. by eexists.
      * intros inst st' H.
        destruct (Hdefault ltac:(done) _ _ _ H) as [Hsome Hget].
        split; [done|]. split; [done|].
        symmetry. exact (from_sexpr_tracks SILENT env cls items _ _ _ H).
      * intros inst st' H.
        destruct (Hdefault ltac:(done) _ _ _ H) as [Hsome Hget].
        split; [done|]. split; [done|].
        pose proof (from_sexpr_tracks FAILSAFE env cls items _ _ _ H) as Hlog.
        apply from_sexpr_return in H as (pv & st1 & fields & Hpf & Hinit & -> & Hw).
        fold items c in Hpf. rewrite Hw.
        eapply (parse_fields_logged (dispatch (S (sexpr_depth (SList items))) env) _ c);
          [apply dispatch_tracks|reflexivity|exact Hfi| |exact Hpf].
        intros st0. rewrite Hfield. cbn. apply elem_of_app. right.
        by apply list_elem_of_singleton.
    + apply Hdefault. done.
    + apply Hraise. intros st0. by eexists.
  - intros position' f' v st inst st' Hf' Hfi' Hprim' Hlist' Hb H.
    apply from_sexpr_return in H as (pv & st1 & fields & Hpf & Hinit & -> & Hw).
    fold items c in Hpf.
    set (dec0 := dispatch (S (sexpr_depth (SList items))) env) in *.
    assert (∀ st0, (_parse_field dec0 (_classify_field env position' f') c st0).1 = Return v)
      as Hy.
    { intros st0. rewrite parse_field_primitive by done.
      erewrite (scalar_bound_at_field c items); [done|done| |done].
      by rewrite classify_field_primitive. }
    pose proof (parse_fields_lookup _ _ _ _ _ _ _ (_classify_field env position' f') v
                  (classify_fields_nodup env cls Hnd) Hfi' Hy Hpf) as Hl.
    rewrite (scalar_bound_not_none _ _ _ Hb), classify_field_name in Hl.
    destruct (init_fields_assoc _ _ _ _ _ f' Hnd Hf' Hinit) as (w & Hw' & Hd).
    rewrite Hl in Hd. cbn [getattr]. by subst.
Qed.

End Strictness.

(** ** The elements of a list field *)

Section ListElements.
Context {py : PyBuiltins}.
Import KiCadObject.

(** A list headed by the token: what the loop on a known token decodes. *)
Definition headed_by (token : string) (item : SExpr) : bool :=
  match item with
  | SList (head :: _) => String.eqb (py_str head) token
  | _ => false
  end.

(** The decode of the element gives [r], at some length of the result and
    in some state. *)
Definition element_gives (dec : decoder) (fi : FieldInfo) (c : ParseCursor)
    (item : SExpr) (r : outcome value) : Prop :=
  ∃ result st st', decode_element dec fi c item result st = (r, st').

(** What the outcome of an element adds to the list. *)
Definition kept (r : outcome value) : list value :=
  match r with
  | Return v => if value_is_none v then [] else [v]
  | Raise _ => []
  end.

(** The elements the loop without a token tries: the lists at the indices
    that are not used when it starts, with their indices. *)
Fixpoint candidates (used : gset nat) (idx : nat) (items : list SExpr)
    : list (nat * SExpr) :=
  match items with
  | [] => []
  | item :: rest =>
      (if isinstance_list item && negb (bool_decide (idx ∈ used))
       then [(idx, item)] else [])
      ++ candidates used (S idx) rest
  end.

(** The index the loop without a token marks for an element. *)
Definition marked_by (p : nat * SExpr) (r : outcome value) : list nat :=
  match kept r with
  | [] => []
  | _ => [p.1]
  end.

Lemma collect_known_other (dec : decoder) (fi : FieldInfo) (c : ParseCursor)
    (token : string) (idx : nat) (item : SExpr) (rest : list SExpr)
    (result : list value) :
  headed_by token item = false →
  collect_known dec fi c token idx (item :: rest) result
  = collect_known dec fi c token (S idx) rest result.
Proof.
  intros H. cbn [collect_known]. destruct item as [a|[|head tl]]; try done.
  cbn in H. by rewrite H.
Qed.

Lemma headed_by_list token item :
  headed_by token item = true → ∃ head tl, item = SList (head :: tl) ∧ py_str head = token.
Proof.
  destruct item as [a|[|head tl]]; try done. cbn. intros H%String.eqb_eq. eauto.
Qed.

(** The loop on a known token, when it returns: one decode for each element
    headed by the token, in input order; what is not [None] is appended. *)
Lemma collect_known_returns (dec : decoder) (fi : FieldInfo) (c : ParseCursor)
    (token : string) (items : list SExpr) (idx : nat) (result : list value)
    (st : state) (out : list value) (st' : state) :
  collect_known dec fi c token idx items result st = (Return out, st') →
  ∃ vs, Forall2 (λ item r, element_gives dec fi c item (Return r))
          (filter (λ item, headed_by token item = true) items) vs
        ∧ out = result ++ filter (λ r, value_is_none r = false) vs.
Proof.
  revert idx result st. induction items as [|item rest IH]; intros idx result st H.
  - cbn in H. unfold ret in H. simplify_eq. exists []. split; [constructor|].
    by rewrite app_nil_r.
  - destruct (headed_by token item) eqn:Hh.
    + destruct (headed_by_list _ _ Hh) as (head & tl & -> & Htok).
      rewrite collect_known_step in H by done.
      destruct (decode_element _ _ _ _ _ _) as [[element|e] st1] eqn:E; [|done].
      apply IH in H as (vs & Hvs & ->).
      exists (element :: vs). rewrite filter_cons_True by done. split.
      * constructor; [by eexists _, _, _|done].
      * destruct (value_is_none element) eqn:Hn.
        -- by rewrite filter_cons_False by congruence.
        -- rewrite filter_cons_True by done. by rewrite <-app_assoc.
    + rewrite collect_known_other in H by done.
      apply IH in H as (vs & Hvs & ->).
      exists vs. by rewrite filter_cons_False by congruence.
Qed.

(** An error of the loop on a known token is the error of the decode of an
    element headed by the token. *)
Lemma collect_known_raises (dec : decoder) (fi : FieldInfo) (c : ParseCursor)
    (token : string) (items : list SExpr) (idx : nat) (result : list value)
    (st : state) (e : exn) (st' : state) :
  collect_known dec fi c token idx items result st = (Raise e, st') →
  ∃ item, item ∈ items ∧ headed_by token item = true
          ∧ element_gives dec fi c item (Raise e).
Proof.
  revert idx result st. induction items as [|item rest IH]; intros idx result st H.
  - done.
  - destruct (headed_by token item) eqn:Hh.
    + destruct (headed_by_list _ _ Hh) as (head & tl & -> & Htok).
      rewrite collect_known_step in H by done.
      destruct (decode_element _ _ _ _ _ _) as [[element|e'] st1] eqn:E.
      * apply IH in H as (item & Hin & Hit & Hg).
        exists item. split; [by apply list_elem_of_further|done].
      * simplify_eq. eexists. split; [apply list_elem_of_here|].
        split; [done|]. by eexists _, _, _.
    + rewrite collect_known_other in H by done.
      apply IH in H as (it & Hin & Hit & Hg).
      exists it. split; [by apply list_elem_of_further|done].
Qed.

(** An element headed by the token whose decode raises makes the loop
    raise. *)
Lemma collect_known_aborts (dec : decoder) (fi : FieldInfo) (c : ParseCursor)
    (token : string) (item : SExpr) (items : list SExpr) :
  item ∈ items → headed_by token item = true →
  (∀ result st, ∃ e, (decode_element dec fi c item result st).1 = Raise e) →
  ∀ idx result st, ∃ e, (collect_known dec fi c token idx items result st).1 = Raise e.
Proof.
  intros Hin Hh Hr. induction items as [|item' rest IH]; intros idx result st.
  - by apply elem_of_nil in Hin.
  - destruct (headed_by token item') eqn:Hh'.
    + destruct (headed_by_list _ _ Hh') as (head & tl & -> & Htok).
      rewrite collect_known_step by done.
      destruct (decode_element _ _ _ _ _ _) as [[element|e'] st1] eqn:E; [|by eexists].
      apply elem_of_cons in Hin as [->|Hin]; [|by apply IH].
      destruct (Hr result (State ({[idx]} ∪ used_indices st) (warnings st))) as [e He].
      rewrite E in He. done.
    + rewrite collect_known_other by done.
      apply elem_of_cons in Hin as [->|Hin]; [congruence|by apply IH].
Qed.

Lemma candidates_marked (used : gset nat) (i idx : nat) (items : list SExpr) :
  i < idx → candidates ({[i]} ∪ used) idx items = candidates used idx items.
Proof.
  revert idx. induction items as [|item rest IH]; intros idx Hlt; [done|].
  cbn [candidates]. rewrite IH by lia. f_equal.
  destruct (decide (idx ∈ used)) as [Hin|Hout].
  - rewrite !bool_decide_true; [done|done|]. apply elem_of_union. by right.
  - rewrite !bool_decide_false; [done|done|].
    intros [Heq%elem_of_singleton|?]%elem_of_union; [lia|done].
Qed.

(** The loop without a token, when it returns: one decode for each list at
    an index that was not used, in input order; what is not [None] is
    appended and its index marked; an element whose decode yields [None], or
    raises [ValueError] or [TypeError], adds nothing and is not marked. *)
Lemma collect_unknown_returns (dec : decoder) (fi : FieldInfo) (c : ParseCursor)
    (items : list SExpr) (idx : nat) (result : list value) (st : state)
    (out : list value) (st' : state) :
  collect_unknown dec fi c idx items result st = (Return out, st') →
  ∃ rs, Forall2 (λ p r, element_gives dec fi c p.2 r ∧ ∀ e, r = Raise e → caught e = true)
          (candidates (used_indices st) idx items) rs
        ∧ out = result ++ concat (kept <$> rs)
        ∧ used_indices st'
          = used_indices st
            ∪ list_to_set (concat (zip_with marked_by (candidates (used_indices st) idx items) rs)).
Proof.
  revert idx result st. induction items as [|item rest IH]; intros idx result st H.
  - cbn in H. unfold ret in H. simplify_eq. exists []. split; [constructor|].
    split; [by rewrite app_nil_r|]. cbn. by rewrite (right_id_L ∅ (∪)).
  - cbn [candidates].
    destruct (decide (isinstance_list item = false ∨ idx ∈ used_indices st)) as [Hp|Hp].
    + rewrite collect_unknown_pass in H by done.
      apply IH in H as (rs & Hrs & -> & Hu). exists rs.
      assert (isinstance_list item && negb (bool_decide (idx ∈ used_indices st)) = false)
        as ->; [|done].
      destruct Hp as [->|Hin]; [done|]. rewrite (bool_decide_true _ Hin).
      by rewrite andb_false_r.
    + assert (isinstance_list item = true ∧ idx ∉ used_indices st) as [Hl Hidx].
      { destruct (isinstance_list item); [|tauto]. split; [done|tauto]. }
      rewrite Hl, bool_decide_false by done. cbn [negb andb app].
      destruct item as [a|l]; [done|].
      rewrite collect_unknown_step in H by done.
      destruct (decode_element _ _ _ _ _ _) as [[element|e] st1] eqn:E;
        pose proof (decode_element_used _ _ _ _ _ _ _ _ E) as Hused.
      * destruct (value_is_none element) eqn:Hn.
        -- apply IH in H as (rs & Hrs & -> & Hu). rewrite Hused in Hrs, Hu.
           exists (Return element :: rs). split; [|split].
           ++ constructor; [|done]. split; [by eexists _, _, _|done].
           ++ cbn. by rewrite Hn.
           ++ cbn. unfold marked_by at 1. cbn. rewrite Hn. cbn. exact Hu.
        -- apply IH in H as (rs & Hrs & -> & Hu). cbn [used_indices] in Hrs, Hu.
           rewrite Hused in Hrs, Hu. rewrite candidates_marked in Hrs, Hu by lia.
           exists (Return element :: rs). split; [|split].
           ++ constructor; [|done]. split; [by eexists _, _, _|done].
           ++ cbn. rewrite Hn. by rewrite <-app_assoc.
           ++ cbn. unfold marked_by at 1. cbn. rewrite Hn. cbn. rewrite Hu.
              by rewrite (comm_L (∪) {[idx]}), !(assoc_L (∪)).
      * destruct (caught e) eqn:Hc; [|done].
        apply IH in H as (rs & Hrs & -> & Hu). rewrite Hused in Hrs, Hu.
        exists (Raise e :: rs). split; [|split].
        -- constructor; [|done]. split; [by eexists _, _, _|]. by intros ? [= <-].
        -- done.
        -- exact Hu.
Qed.

Lemma parse_list_known (dec : decoder) (fi : FieldInfo) (c : ParseCursor)
    (head : SExpr) (rest : list SExpr) (token : string) (st : state) :
  sexpr c = SList (head :: rest) → can_self_parse fi = true →
  token_truth (token_name fi) = Some token →
  _parse_list_field dec fi c st = (VList <$> collect_known dec fi c token 1 rest []) st.
Proof.
  intros Hc Hs Ht. unfold _parse_list_field. rewrite Hs, Ht.
  by rewrite (bind_return _ _ _ _ _ (items_of_list c _ _ st Hc)).
Qed.

Lemma parse_list_unknown (dec : decoder) (fi : FieldInfo) (c : ParseCursor)
    (head : SExpr) (rest : list SExpr) (st : state) :
  sexpr c = SList (head :: rest) → can_self_parse fi = true →
  token_truth (token_name fi) = None →
  _parse_list_field dec fi c st = (VList <$> collect_unknown dec fi c 1 rest []) st.
Proof.
  intros Hc Hs Ht. unfold _parse_list_field. rewrite Hs, Ht.
  by rewrite (bind_return _ _ _ _ _ (items_of_list c _ _ st Hc)).
Qed.

(** The decode of a record returns an instance, never [None]. *)
Lemma from_sexpr_at_object (dec : decoder) (env : Env) (cls : ClassDecl)
    (c : ParseCursor) (st : state) (v : value) (st' : state) :
  from_sexpr_at dec env cls c st = (Return v, st') →
  ∃ fields, v = VObject (cd_name cls) fields.
Proof.
  unfold from_sexpr_at. rewrite bind_run.
  destruct (head_token c st) as [[token|e] st1]; [|done].
  destruct (bool_decide _); [|done].
  rewrite bind_run. destruct (parse_fields _ _ _ _ _) as [[pv|e] st2]; [|done].
  unfold construct. rewrite bind_run.
  destruct (init_fields _ _ _) as [[fields|e] st3]; [|done].
  destruct (String.eqb _ _); [done|]. intros [= <- <-]. by eexists.
Qed.

Lemma dispatch_record (d : nat) (env : Env) (n : string) (item : SExpr)
    (c : ParseCursor) (st : state) (v : value) (st' : state) :
  dispatch d env (TKiCadObject n) item c st = (Return v, st') → value_is_none v = false.
Proof.
  destruct d as [|d]; [done|]. cbn [dispatch].
  destruct (lookup_class env n) as [decl|]; [|done].
  intros [fields ->]%from_sexpr_at_object. done.
Qed.

Lemma element_record (d : nat) (env : Env) (fi : FieldInfo) (c : ParseCursor)
    (n : string) (item : SExpr) (r : value) :
  inner_type fi = TKiCadObject n →
  element_gives (dispatch d env) fi c item (Return r) → value_is_none r = false.
Proof.
  intros Hty (result & st & st' & H). unfold decode_element, nested in H.
  rewrite Hty in H.
  destruct (dispatch _ _ _ _ _ _) as [r' st1] eqn:E. simplify_eq.
  by apply dispatch_record in E.
Qed.

Lemma nested_outcome {A} (m : M A) (st : state) :
  (nested m st).1 = (m (State ∅ (warnings st))).1.
Proof. unfold nested. by destruct (m _). Qed.

(** A field of the record raises whatever the state: so does the decode of
    the record, whatever its head. *)
Lemma from_sexpr_at_raises (dec : decoder) (env : Env) (cls : ClassDecl)
    (c : ParseCursor) (fe : FieldInfo) :
  fe ∈ _classify_fields env cls →
  (∀ st, ∃ e, (_parse_field dec fe c st).1 = Raise e) →
  ∀ st, ∃ e, (from_sexpr_at dec env cls c st).1 = Raise e.
Proof.
  intros Hfe Hr st. unfold from_sexpr_at. rewrite bind_run.
  destruct (head_token c st) as [[token|e] st1]; [|by eexists].
  destruct (bool_decide _); [|by eexists].
  rewrite bind_run.
  destruct (parse_fields_raise dec _ c fe Hfe Hr ∅ st1) as [e He].
  destruct (parse_fields _ _ _ _ _) as [[pv|e'] st2]; [done|by eexists].
Qed.

(** The same for the root call. *)
Lemma from_sexpr_raises (env : Env) (cls : ClassDecl) (head : SExpr)
    (rest : list SExpr) (s : ParseStrictness) (fi : FieldInfo) :
  let items := head :: rest in
  fi ∈ _classify_fields env cls →
  (∀ st, ∃ e, (_parse_field (dispatch (S (sexpr_depth (SList items))) env) fi
                 (Cursor (SList items) [cd_name cls] s) st).1 = Raise e) →
  ∀ st, ∃ e st', from_sexpr env cls items s st = (Raise e, st').
Proof.
  intros items Hfi Hr st. unfold from_sexpr, from_sexpr_cursor.
  pose proof (nested_outcome
    (from_sexpr_at (dispatch (S (sexpr_depth (SList items))) env) env cls
       (Cursor (SList items) [cd_name cls] s)) st) as Hn.
  destruct (from_sexpr_at_raises _ env cls _ fi Hfi Hr (State ∅ (warnings st))) as [e He].
  cbn [sexpr] in *. rewrite He in Hn.
  destruct (nested _ st) as [r st']. cbn in Hn. subst r. by eexists _, _.
Qed.

(** Under [Strict], an element in which a field ends in the policy does not
    decode. *)
Lemma element_raises_under_strict (d : nat) (env : Env) (T : ClassDecl)
    (fe fi : FieldInfo) (c : ParseCursor) (item : SExpr) :
  inner_type fi = TKiCadObject (cd_name T) →
  lookup_class env (cd_name T) = Some T →
  fe ∈ _classify_fields env T →
  strictness c = STRICT →
  (∀ c' st, sexpr c' = item →
     ∃ msg, (_parse_field (dispatch d env) fe c' st).1
            = policy_outcome (strictness c') msg) →
  ∀ result st, ∃ e, (decode_element (dispatch (S d) env) fi c item result st).1 = Raise e.
Proof.
  intros Hty HT Hfe Hs Hpolicy result st. unfold decode_element.
  rewrite nested_outcome, Hty. cbn [dispatch]. rewrite HT.
  apply (from_sexpr_at_raises _ env T _ fe Hfe).
  intros st0.
  match goal with
  | |- context [_parse_field _ _ ?c' _] =>
      destruct (Hpolicy c' st0 eq_refl) as [msg Hmsg]
  end.
  rewrite Hmsg. cbn [enter strictness]. rewrite Hs. by eexists.
Qed.

(** C6.  A list field of a self-parsing type, bound on the term
    [(head rest...)] by the decode of a record, under the strictness [s].

    With a known token.  When the field returns, there is one decode for each
    element headed by the token, in input order, and the list is what the
    decodes returned, in that order, [None] left out.  An error of the field
    is the error of the decode of such an element; and an element whose
    decode raises, whatever the state, makes the field raise and the decode
    of the record with it: this is so under every strictness.  Under
    [Strict], an element of a record type in which the parse of a field ends
    in the policy, whatever the cursor, is such an element: the field raises,
    and the decode of the record.  The decode of an element of a record type
    never returns [None]: when the field returns, under any strictness, the
    list has one instance for each element headed by the token, none left
    out.

    Without a token.  The field never raises [ValueError] or [TypeError].
    When it returns, there is one decode for each list at an index that was
    not used, in input order; the list is what the decodes returned, in that
    order; an element whose decode returned [None], or raised [ValueError] or
    [TypeError], adds nothing and stays unmarked, the others are marked: this
    is so under every strictness, [Strict] included. *)
Theorem list_element_failures (env : Env) (cls : ClassDecl) (head : SExpr)
    (rest : list SExpr) (s : ParseStrictness) (fi : FieldInfo) :
  let items := head :: rest in
  let c := Cursor (SList items) [cd_name cls] s in
  let depth := sexpr_depth (SList items) in
  let dec := dispatch (S depth) env in
  can_self_parse fi = true →
  (∀ token, token_truth (token_name fi) = Some token →
     (∀ st v st', _parse_list_field dec fi c st = (Return v, st') →
        ∃ vs, Forall2 (λ item r, element_gives dec fi c item (Return r))
                (filter (λ item, headed_by token item = true) rest) vs
              ∧ v = VList (filter (λ r, value_is_none r = false) vs))
     ∧ (∀ st e st', _parse_list_field dec fi c st = (Raise e, st') →
          ∃ item, item ∈ rest ∧ headed_by token item = true
                  ∧ element_gives dec fi c item (Raise e))
     ∧ (∀ item, item ∈ rest → headed_by token item = true →
          (∀ result st, ∃ e, (decode_element dec fi c item result st).1 = Raise e) →
          (∀ st, ∃ e, (_parse_list_field dec fi c st).1 = Raise e)
          ∧ (is_list fi = true → fi ∈ _classify_fields env cls →
             ∀ st, ∃ e st', from_sexpr env cls items s st = (Raise e, st')))
     ∧ (∀ T fe item,
          s = STRICT →
          inner_type fi = TKiCadObject (cd_name T) →
          lookup_class env (cd_name T) = Some T →
          fe ∈ _classify_fields env T →
          item ∈ rest → headed_by token item = true →
          (∀ c' st, sexpr c' = item →
             ∃ msg, (_parse_field (dispatch depth env) fe c' st).1
                    = policy_outcome (strictness c') msg) →
          (∀ st, ∃ e, (_parse_list_field dec fi c st).1 = Raise e)
          ∧ (is_list fi = true → fi ∈ _classify_fields env cls →
             ∀ st, ∃ e st', from_sexpr env cls items s st = (Raise e, st')))
     ∧ (∀ n st v st',
          inner_type fi = TKiCadObject n →
          _parse_list_field dec fi c st = (Return v, st') →
          ∃ vs, Forall2 (λ item r, element_gives dec fi c item (Return r))
                  (filter (λ item, headed_by token item = true) rest) vs
                ∧ v = VList vs))
  ∧ (token_truth (token_name fi) = None →
     (∀ st e st', _parse_list_field dec fi c st = (Raise e, st') → caught e = false)
     ∧ (∀ st v st', _parse_list_field dec fi c st = (Return v, st') →
          ∃ rs, Forall2 (λ p r, element_gives dec fi c p.2 r
                                ∧ ∀ e, r = Raise e → caught e = true)
                  (candidates (used_indices st) 1 rest) rs
                ∧ v = VList (concat (kept <$> rs))
                ∧ used_indices st'
                  = used_indices st
                    ∪ list_to_set
                        (concat (zip_with marked_by
                                   (candidates (used_indices st) 1 rest) rs)))).
Proof.
  intros items c depth dec Hself. split.
  - intros token Htoken.
    assert (∀ st, _parse_list_field dec fi c st
                  = (VList <$> collect_known dec fi c token 1 rest []) st) as Hloop
      by (intros st; by apply (parse_list_known dec fi c head rest)).
    assert (∀ item, item ∈ rest → headed_by token item = true →
              (∀ result st, ∃ e, (decode_element dec fi c item result st).1 = Raise e) →
              ∀ st, ∃ e, (_parse_list_field dec fi c st).1 = Raise e) as Habort.
    { intros item Hin Hh Hr st. rewrite Hloop, fmap_run.
      destruct (collect_known_aborts dec fi c token item rest Hin Hh Hr 1 [] st)
        as [e He].
      destruct (collect_known _ _ _ _ _ _ _ _) as [[out|e'] st1]; [done|by eexists]. }
    assert (∀ item, item ∈ rest → headed_by token item = true →
              (∀ result st, ∃ e, (decode_element dec fi c item result st).1 = Raise e) →
              is_list fi = true → fi ∈ _classify_fields env cls →
              ∀ st, ∃ e st', from_sexpr env cls items s st = (Raise e, st')) as Hwhole.
    { intros item Hin Hh Hr Hlist Hfi.
      apply (from_sexpr_raises env cls head rest s fi Hfi).
      intros st. unfold _parse_field. rewrite Hlist. by apply (Habort item). }
    assert (∀ st v st', _parse_list_field dec fi c st = (Return v, st') →
              ∃ vs, Forall2 (λ item r, element_gives dec fi c item (Return r))
                      (filter (λ item, headed_by token item = true) rest) vs
                    ∧ v = VList (filter (λ r, value_is_none r = false) vs)) as Hreturns.
    { intros st v st' H. rewrite Hloop, fmap_run in H.
      destruct (collect_known _ _ _ _ _ _ _ _) as [[out|e] st1] eqn:E; [|done].
      simplify_eq. apply collect_known_returns in E as (vs & Hvs & ->).
      by exists vs. }
    split; [exact Hreturns|]. split; [|split; [|split]].
    + intros st e st' H. rewrite Hloop, fmap_run in H.
      destruct (collect_known _ _ _ _ _ _ _ _) as [[out|e'] st1] eqn:E; [done|].
      simplify_eq. exact (collect_known_raises _ _ _ _ _ _ _ _ _ _ E).
    + intros item Hin Hh Hr. split; [by apply (Habort item)|by apply (Hwhole item)].
    + intros T fe item -> Hty HT Hfe Hin Hh Hpolicy.
      pose proof (element_raises_under_strict depth env T fe fi c item
                    Hty HT Hfe eq_refl Hpolicy) as Hr.
      split; [by apply (Habort item)|by apply (Hwhole item)].
    + intros n st v st' Hty H. apply Hreturns in H as (vs & Hvs & ->).
      exists vs. split; [done|]. f_equal.
      assert (Forall (λ r, value_is_none r = false) vs) as Hall.
      { clear -Hvs Hty. induction Hvs as [|item r items' vs' Hg _ IH]; [done|].
        constructor; [|done]. by apply (element_record (S depth) env fi c n item). }
      clear -Hall. induction Hall as [|r vs' Hr _ IH]; [done|].
      by rewrite filter_cons_True, IH.
  - intros Htoken.
    assert (∀ st, _parse_list_field dec fi c st
                  = (VList <$> collect_unknown dec fi c 1 rest []) st) as Hloop
      by (intros st; by apply (parse_list_unknown dec fi c head rest)).
    split.
    + intros st e st' H. rewrite Hloop, fmap_run in H.
      destruct (collect_unknown _ _ _ _ _ _ _) as [[out|e'] st1] eqn:E; [done|].
      simplify_eq. by apply collect_unknown_never_fails in E.
    + intros st v st' H. rewrite Hloop, fmap_run in H.
      destruct (collect_unknown _ _ _ _ _ _ _) as [[out|e] st1] eqn:E; [|done].
      simplify_eq. apply collect_unknown_returns in E as (rs & Hrs & -> & Hu).
      by exists rs.
Qed.

End ListElements.


(** ** The bound on the frames

    [dispatch] stops with [RecursionError] when it is out of frames.  No
    handler of the engine catches that class, so a decode that does not end
    with it never ran out: with more frames it does the same. *)

Definition exhausted {A} (r : outcome A) : Prop :=
  match r with
  | Raise (Exn RecursionError _) => True
  | _ => False
  end.

(** [m2] does what [m1] does wherever [m1] is not out of frames. *)
Definition agrees {A} (m1 m2 : M A) : Prop :=
  ∀ st, ¬ exhausted (m1 st).1 → m2 st = m1 st.

Section AgreesFacts.

Lemma agrees_refl {A} (m : M A) : agrees m m.
Proof. by intros st _. Qed.

Lemma agrees_trans {A} (m1 m2 m3 : M A) : agrees m1 m2 → agrees m2 m3 → agrees m1 m3.
Proof.
  intros H12 H23 st H. rewrite <-(H12 st H). apply H23. by rewrite (H12 st H).
Qed.

Lemma agrees_bind {A B} (m1 m2 : M A) (k1 k2 : A → M B) :
  agrees m1 m2 → (∀ a, agrees (k1 a) (k2 a)) → agrees (m1 ≫= k1) (m2 ≫= k2).
Proof.
  intros Hm Hk st H. rewrite !bind_run in *.
  assert (¬ exhausted (m1 st).1) as Hne by (destruct (m1 st) as [[a|e] st1]; auto).
  rewrite (Hm st Hne).
  destruct (m1 st) as [[a|e] st1]; [by apply Hk|reflexivity].
Qed.

Lemma agrees_fmap {A B} (f : A → B) (m1 m2 : M A) :
  agrees m1 m2 → agrees (f <$> m1) (f <$> m2).
Proof. intros Hm. apply agrees_bind; [done|]. intros a. apply agrees_refl. Qed.

Lemma agrees_try_except {A} (body1 body2 : M A) (handler1 handler2 : exn → M A) :
  agrees body1 body2 → (∀ e, agrees (handler1 e) (handler2 e)) →
  agrees (try_except body1 handler1) (try_except body2 handler2).
Proof.
  intros Hb Hh st H. unfold try_except in *.
  assert (¬ exhausted (body1 st).1) as Hne.
  { destruct (body1 st) as [[a|[[] msg]] st1]; cbn in *; auto. }
  rewrite (Hb st Hne).
  destruct (body1 st) as [[a|e] st1]; [reflexivity|].
  destruct (caught e); [by apply Hh|reflexivity].
Qed.

Lemma agrees_nested {A} (m1 m2 : M A) : agrees m1 m2 → agrees (nested m1) (nested m2).
Proof.
  intros Hm st H. unfold nested in *.
  rewrite (Hm (State ∅ (warnings st))); [reflexivity|].
  by destruct (m1 _) as [r1 st1].
Qed.

End AgreesFacts.

(** Goes through two bodies that differ in their decoder only. *)
Ltac agrees_step :=
  match goal with
  | |- agrees ?m ?m => apply agrees_refl
  | |- agrees (_ ≫= _) (_ ≫= _) => apply agrees_bind; [|intros ?]
  | |- agrees (_ <$> _) (_ <$> _) => apply agrees_fmap
  | |- agrees (try_except _ _) (try_except _ _) => apply agrees_try_except; [|intros ?]
  | |- agrees (nested _) (nested _) => apply agrees_nested
  | |- agrees (if ?b then _ else _) (if ?b then _ else _) => destruct b
  | |- agrees (match ?x with _ => _ end) (match ?x with _ => _ end) => destruct x
  | |- _ => solve [eauto]
  end.

Section Frames.
Context {py : PyBuiltins}.
Import KiCadObject.

Definition dec_agrees (dec1 dec2 : decoder) : Prop :=
  ∀ t sx c, agrees (dec1 t sx c) (dec2 t sx c).

Lemma agrees_collect_known dec1 dec2 fi c token items idx result :
  dec_agrees dec1 dec2 →
  agrees (collect_known dec1 fi c token idx items result)
         (collect_known dec2 fi c token idx items result).
Proof.
  intros Hd. revert idx result.
  induction items as [|item rest IH]; intros idx result; cbn [collect_known].
  - apply agrees_refl.
  - unfold decode_element. repeat agrees_step.
Qed.

Lemma agrees_collect_unknown dec1 dec2 fi c items idx result :
  dec_agrees dec1 dec2 →
  agrees (collect_unknown dec1 fi c idx items result)
         (collect_unknown dec2 fi c idx items result).
Proof.
  intros Hd. revert idx result.
  induction items as [|item rest IH]; intros idx result; cbn [collect_unknown].
  - apply agrees_refl.
  - unfold decode_element. repeat agrees_step.
Qed.

Lemma agrees_parse_field dec1 dec2 fi c :
  dec_agrees dec1 dec2 → agrees (_parse_field dec1 fi c) (_parse_field dec2 fi c).
Proof.
  intros Hd. unfold _parse_field, _parse_list_field, _parse_sexpr_base_field.
  pose proof (agrees_collect_known dec1 dec2 fi c).
  pose proof (agrees_collect_unknown dec1 dec2 fi c).
  repeat agrees_step.
Qed.

Lemma agrees_parse_fields dec1 dec2 fis c pv :
  dec_agrees dec1 dec2 → agrees (parse_fields dec1 fis c pv) (parse_fields dec2 fis c pv).
Proof.
  intros Hd. revert pv. induction fis as [|fi fis IH]; intros pv; cbn [parse_fields].
  - apply agrees_refl.
  - pose proof (agrees_parse_field dec1 dec2 fi c Hd). repeat agrees_step.
Qed.

Lemma agrees_from_sexpr_at dec1 dec2 env cls c :
  dec_agrees dec1 dec2 → agrees (from_sexpr_at dec1 env cls c) (from_sexpr_at dec2 env cls c).
Proof.
  intros Hd. unfold from_sexpr_at.
  pose proof (agrees_parse_fields dec1 dec2 (_classify_fields env cls) c ∅ Hd).
  repeat agrees_step.
Qed.

Lemma dispatch_one_more depth env : dec_agrees (dispatch depth env) (dispatch (S depth) env).
Proof.
  induction depth as [|depth IH]; intros t sx c; destruct t;
    try apply agrees_refl.
  - intros st H. by destruct H.
  - cbn [dispatch]. destruct (lookup_class env cls); [|apply agrees_refl].
    by apply agrees_from_sexpr_at.
Qed.

Lemma dispatch_more depth depth' env :
  depth ≤ depth' → dec_agrees (dispatch depth env) (dispatch depth' env).
Proof.
  induction 1 as [|depth' _ IH]; intros t sx c; [apply agrees_refl|].
  eapply agrees_trans; [apply IH|apply dispatch_one_more].
Qed.

(** A decode that does not end with [RecursionError] gives the same result,
    and leaves the same state, under every larger bound on the frames. *)
Lemma from_sexpr_deeper env cls c depth :
  S (sexpr_depth (sexpr c)) ≤ depth →
  agrees (from_sexpr_cursor env cls c) (from_sexpr_at (dispatch depth env) env cls c).
Proof. intros H. by apply agrees_from_sexpr_at, dispatch_more. Qed.

End Frames.

(** *** The bound of [from_sexpr] is enough

    A nested decode runs on an element after the head of the current term, or
    on the one-element list [find_token] wraps around a bare token; the
    characters of a str and the wrapped tokens have nothing after their head.
    So the frames a term needs are bounded by its nesting depth. *)

Definition safe {A} (m : M A) : Prop := ∀ st, ¬ exhausted (m st).1.

Section SafeFacts.
Context {py : PyBuiltins}.

Lemma safe_ret {A} (a : A) : safe (ret a).
Proof. intros st. exact id. Qed.

Lemma safe_lift {A} (o : outcome A) : ¬ exhausted o → safe (lift o).
Proof. intros H st. exact H. Qed.

Lemma safe_raise {A} c msg : c ≠ RecursionError → safe (@raise A c msg).
Proof. intros H st Hex. cbn in Hex. by destruct c. Qed.

Lemma safe_mark_used idx : safe (mark_used idx).
Proof. intros st. exact id. Qed.

Lemma safe_get_used : safe get_used_indices.
Proof. intros st. exact id. Qed.

Lemma safe_bind {A B} (m : M A) (k : A → M B) :
  safe m → (∀ a, safe (k a)) → safe (m ≫= k).
Proof.
  intros Hm Hk st. rewrite bind_run. specialize (Hm st).
  destruct (m st) as [[a|e] st1]; [apply Hk|exact Hm].
Qed.

Lemma safe_fmap {A B} (f : A → B) (m : M A) : safe m → safe (f <$> m).
Proof. intros Hm. apply safe_bind; [done|]. intros a. apply safe_ret. Qed.

Lemma safe_try_except {A} (body : M A) (handler : exn → M A) :
  safe body → (∀ e, safe (handler e)) → safe (try_except body handler).
Proof.
  intros Hb Hh st. unfold try_except. specialize (Hb st).
  destruct (body st) as [[a|e] st1]; [exact Hb|].
  destruct (caught e); [apply Hh|exact Hb].
Qed.

Lemma safe_nested {A} (m : M A) : safe m → safe (nested m).
Proof.
  intros Hm st. unfold nested. specialize (Hm (State ∅ (warnings st))).
  by destruct (m _) as [r st1].
Qed.

Lemma safe_log_issue (c : ParseCursor) msg : safe (log_issue c msg).
Proof. intros st Hex. unfold log_issue in Hex. by destruct (strictness c). Qed.

Lemma safe_conv {A} operation c (o : option A) :
  c ≠ RecursionError → ¬ exhausted (conv operation c o).
Proof. intros H Hex. destruct o; [done|]. cbn in Hex. by destruct c. Qed.

Lemma safe_items_of c operation : safe (items_of c operation).
Proof. by apply safe_lift, safe_conv. Qed.

End SafeFacts.

Create HintDb safe.
#[local] Hint Resolve safe_ret safe_mark_used safe_get_used safe_log_issue safe_items_of
  : safe.

Ltac safe_step :=
  match goal with
  | |- safe (_ ≫= _) => apply safe_bind; [|intros ?]
  | |- safe (_ <$> _) => apply safe_fmap
  | |- safe (try_except _ _) => apply safe_try_except; [|intros ?]
  | |- safe (nested _) => apply safe_nested
  | |- safe (raise _ _) => apply safe_raise; discriminate
  | |- safe (if ?b then _ else _) => destruct b
  | |- safe (match ?x with _ => _ end) => destruct x
  | |- _ => solve [eauto with safe]
  end.

Section Enough.
Context {py : PyBuiltins}.
Import KiCadObject.

(** The runtime raises [ValueError] or [OverflowError] from [int(x)]. *)
Hypothesis int_of_float_class : ∀ x, int_of_float x ≠ inl RecursionError.
#[local] Set Default Proof Using "All".

Lemma safe_py_int value : ¬ exhausted (py_int value).
Proof.
  destruct value as [[]|]; cbn; try exact id; try by apply safe_conv.
  pose proof (int_of_float_class x) as H.
  destruct (int_of_float x) as [[]|]; cbn; auto.
Qed.

Lemma safe_py_float value : ¬ exhausted (py_float value).
Proof. destruct value as [[]|]; cbn; try exact id; by apply safe_conv. Qed.

Lemma safe_convert value t : ¬ exhausted (_convert_to_type value t).
Proof.
  destruct t; cbn; try exact id.
  - pose proof (safe_py_int value). by destruct (py_int value).
  - pose proof (safe_py_float value). by destruct (py_float value).
  - repeat case_match; cbn; auto.
Qed.

Lemma safe_scalar_parser c fi : safe (scalar_parser c fi).
Proof.
  pose proof safe_py_int. pose proof safe_py_float.
  unfold scalar_parser.
  destruct (inner_type fi);
    unfold parse_int, parse_float, parse_bool, parse_str, parse_enum,
      _get_value_at_index;
    repeat (safe_step || (apply safe_lift; solve [eauto])).
Qed.

Lemma safe_find_token c token mark : safe (find_token c token mark).
Proof. unfold find_token. repeat safe_step. Qed.

Lemma safe_parse_primitive fi c : safe (_parse_primitive_field fi c).
Proof.
  unfold _parse_primitive_field. cbv zeta.
  pose proof (safe_scalar_parser c fi). pose proof (safe_find_token c).
  pose proof safe_convert.
  repeat (safe_step || (apply safe_lift; solve [eauto])).
Qed.

Lemma safe_primitive_from_sexpr cls sx s c : safe (KiCadPrimitive.from_sexpr cls sx s c).
Proof.
  unfold KiCadPrimitive.from_sexpr, KiCadPrimitive._convert_value.
  pose proof safe_convert.
  repeat (safe_step || (apply safe_lift; solve [eauto])).
Qed.

Lemma safe_init_fields fs kw : safe (init_fields fs kw).
Proof. induction fs as [|f fs IH]; cbn [init_fields]; repeat safe_step. Qed.

(** The terms a nested decode of the term [t] runs on. *)
Definition child (t x : SExpr) : Prop :=
  ∃ items, as_sequence t = Some items
           ∧ (x ∈ tail items ∨ ∃ a, x = SList [Atom a] ∧ Atom a ∈ tail items).

Definition safe_below (t : SExpr) (dec : decoder) : Prop :=
  ∀ ty x c, child t x → sexpr c = x → safe (dec ty x c).

Lemma safe_bind_return {A B} (a : A) (k : A → M B) :
  safe (k a) → safe (lift (Return a) ≫= k).
Proof. intros H st. apply H. Qed.

Lemma safe_bind_raise {A B} (c : exn_class) msg (k : A → M B) :
  c ≠ RecursionError → safe (lift (Raise (Exn c msg)) ≫= k).
Proof. intros H st Hex. cbn in Hex. by destruct c. Qed.

Lemma safe_collect_known dec fi c token items idx result :
  (∀ ty x c', x ∈ items → sexpr c' = x → safe (dec ty x c')) →
  safe (collect_known dec fi c token idx items result).
Proof.
  revert idx result.
  induction items as [|item rest IH]; intros idx result Hd; cbn [collect_known].
  - apply safe_ret.
  - assert (safe (decode_element dec fi c item result)) as He.
    { apply safe_nested, Hd; [left|reflexivity]. }
    assert (∀ idx result, safe (collect_known dec fi c token idx rest result)) as Hrest.
    { intros. apply IH. intros ty x c' Hx. apply Hd. by right. }
    repeat safe_step.
Qed.

Lemma safe_collect_unknown dec fi c items idx result :
  (∀ ty x c', x ∈ items → sexpr c' = x → safe (dec ty x c')) →
  safe (collect_unknown dec fi c idx items result).
Proof.
  revert idx result.
  induction items as [|item rest IH]; intros idx result Hd; cbn [collect_unknown].
  - apply safe_ret.
  - assert (safe (decode_element dec fi c item result)) as He.
    { apply safe_nested, Hd; [left|reflexivity]. }
    assert (∀ idx result, safe (collect_unknown dec fi c idx rest result)) as Hrest.
    { intros. apply IH. intros ty x c' Hx. apply Hd. by right. }
    repeat safe_step.
Qed.

Lemma find_token_from_child token idx items i found :
  find_token_from token idx items = Some (i, found) →
  SList found ∈ items ∨ ∃ a, found = [Atom a] ∧ Atom a ∈ items.
Proof.
  revert idx. induction items as [|item rest IH]; intros idx H; [done|].
  cbn [find_token_from] in H.
  destruct (token_match token item) as [found'|] eqn:E.
  - simplify_eq. unfold token_match in E.
    destruct item as [a|[|head tl]]; [| done |].
    + destruct (_ && _); [|done]. simplify_eq. right. exists a. split; [done|left].
    + destruct (String.eqb _ _); [|done]. simplify_eq. left. left.
  - destruct (IH _ H) as [?|(a & -> & ?)]; [left; by right|].
    right. exists a. split; [done|by right].
Qed.

Lemma safe_parse_list dec fi c :
  safe_below (sexpr c) dec → safe (_parse_list_field dec fi c).
Proof.
  intros Hd. unfold _parse_list_field, items_of.
  destruct (as_sequence (sexpr c)) as [items|] eqn:Hitems.
  - assert (∀ ty x c', x ∈ tail items → sexpr c' = x → safe (dec ty x c')) as Hd'.
    { intros ty x c' Hx. apply Hd. exists items. auto. }
    cbn [conv].
    destruct (can_self_parse fi); [|apply safe_ret].
    destruct (token_truth _); apply safe_bind_return, safe_fmap.
    + by apply safe_collect_known.
    + by apply safe_collect_unknown.
  - cbn [conv]. destruct (can_self_parse fi); [|apply safe_ret].
    destruct (token_truth _); by apply safe_bind_raise.
Qed.

Lemma safe_bind_run {A B} (m : M A) (k : A → M B) :
  safe m → (∀ st a st', m st = (Return a, st') → ¬ exhausted (k a st').1) →
  safe (m ≫= k).
Proof.
  intros Hm Hk st. rewrite bind_run. specialize (Hm st).
  destruct (m st) as [[a|e] st1] eqn:E; [by eapply Hk|exact Hm].
Qed.

Lemma find_token_found c token mark st found st' :
  find_token c token mark st = (Return found, st') →
  found = [] ∨ child (sexpr c) (SList found).
Proof.
  unfold find_token, items_of.
  destruct (as_sequence (sexpr c)) as [items|] eqn:Hitems; [|done].
  cbn [conv]. rewrite bind_run. cbn [lift].
  destruct (find_token_from _ _ _) as [[i found']|] eqn:E.
  - rewrite bind_run. intros H. right. exists items. split; [done|].
    assert (found = found') as ->.
    { destruct mark; unfold mark_used, ret in H; by simplify_eq. }
    destruct (find_token_from_child _ _ _ _ _ E) as [?|(a & -> & ?)]; [by left|].
    right. by exists a.
  - intros [= <- <-]. by left.
Qed.

Lemma safe_parse_sexpr_base dec fi c :
  safe_below (sexpr c) dec → safe (_parse_sexpr_base_field dec fi c).
Proof.
  intros Hd. unfold _parse_sexpr_base_field.
  destruct (token_truth _) as [token|].
  - apply safe_bind_run; [apply safe_find_token|]. intros st found st' Hf.
    apply find_token_found in Hf as [->|Hchild].
    + revert st'. change (safe ((if negb (is_optional fi)
         then log_issue c (RequiredTokenNotFound (get_path_str c) token)
         else ret ()) ≫= λ _ : (), ret VNone)). repeat safe_step.
    + destruct found as [|head tl].
      * revert st'. change (safe ((if negb (is_optional fi)
         then log_issue c (RequiredTokenNotFound (get_path_str c) token)
         else ret ()) ≫= λ _ : (), ret VNone)). repeat safe_step.
      * apply safe_nested, Hd; [exact Hchild|reflexivity].
  - unfold items_of.
    destruct (as_sequence (sexpr c)) as [items|] eqn:Hitems;
      [|by apply safe_bind_raise].
    apply safe_bind_return.
    destruct (items !! _) as [item|] eqn:Hitem; [|repeat safe_step].
    apply safe_try_except; [|intros ?; repeat safe_step].
    apply safe_bind; [apply safe_mark_used|]. intros _.
    apply safe_nested, Hd; [|reflexivity].
    exists items. split; [done|]. left.
    destruct items as [|x items]; [done|].
    rewrite Nat.add_1_r in Hitem. cbn in Hitem |- *.
    by eapply list_elem_of_lookup_2.
Qed.

Lemma safe_parse_field dec fi c :
  safe_below (sexpr c) dec → safe (_parse_field dec fi c).
Proof.
  intros Hd. unfold _parse_field.
  pose proof (safe_parse_list dec fi c Hd).
  pose proof (safe_parse_primitive fi c).
  pose proof (safe_parse_sexpr_base dec fi c Hd).
  repeat safe_step.
Qed.

Lemma safe_parse_fields dec fis c pv :
  safe_below (sexpr c) dec → safe (parse_fields dec fis c pv).
Proof.
  intros Hd. revert pv. induction fis as [|fi fis IH]; intros pv; cbn [parse_fields].
  - apply safe_ret.
  - pose proof (safe_parse_field dec fi c Hd). repeat safe_step.
Qed.

Lemma safe_from_sexpr_at dec env cls c :
  safe_below (sexpr c) dec → safe (from_sexpr_at dec env cls c).
Proof.
  intros Hd. unfold from_sexpr_at, head_token, construct.
  pose proof (safe_parse_fields dec (_classify_fields env cls) c ∅ Hd).
  pose proof (safe_init_fields (cd_fields cls)).
  repeat safe_step.
Qed.

(** A term with nothing after its head: no nested decode runs on it. *)
Definition leaf (t : SExpr) : Prop := ∀ x, ¬ child t x.

Lemma leaf_wrapped a : leaf (SList [Atom a]).
Proof. intros x (items & [= <-] & [H|(? & _ & H)]); cbn in H; by apply elem_of_nil in H. Qed.

Lemma child_of_atom a x : child (Atom a) x → leaf x.
Proof.
  intros (items & Hitems & H).
  assert (∀ y, y ∈ items → ∃ ch, y = Atom (AStr (String ch ""))) as Hchars.
  { destruct a; cbn in Hitems; simplify_eq;
      intros y (ch & -> & _)%list_elem_of_fmap; eauto. }
  assert (∀ y, y ∈ tail items → y ∈ items) as Htail.
  { destruct items; [done|]. intros y. by right. }
  destruct H as [H|(b & -> & H)]; [|apply leaf_wrapped].
  destruct (Hchars x (Htail _ H)) as [ch ->].
  intros y (items' & [= <-] & [H'|(? & _ & H')]); cbn in H'; by apply elem_of_nil in H'.
Qed.

Lemma sexpr_depth_elem x items : x ∈ items → sexpr_depth x < sexpr_depth (SList items).
Proof.
  cbn [sexpr_depth]. induction 1 as [x items|x y items _ IH]; cbn [foldr]; lia.
Qed.

Lemma child_of_list items x :
  child (SList items) x → leaf x ∨ sexpr_depth x < sexpr_depth (SList items).
Proof.
  intros (items' & [= <-] & [H|(a & -> & _)]); [|left; apply leaf_wrapped].
  right. apply sexpr_depth_elem. destruct items; [done|]. by right.
Qed.

(** With a frame for itself and one more than its depth for what it nests,
    a decode is never out of frames. *)
Lemma dispatch_enough env depth ty t c :
  sexpr c = t → (leaf t ∧ 1 ≤ depth) ∨ sexpr_depth t + 2 ≤ depth →
  safe (dispatch depth env ty t c).
Proof.
  revert ty t c. induction depth as [|depth IH]; intros ty t c Hc Hdepth.
  { destruct Hdepth as [[_ ?]|?]; lia. }
  destruct ty; cbn [dispatch];
    try (apply safe_raise; discriminate);
    try apply safe_primitive_from_sexpr.
  - unfold OptionalFlag.from_sexpr. repeat safe_step.
  - unfold OptionalSimpleFlag.from_sexpr. repeat safe_step.
  - destruct (lookup_class env cls) as [decl|]; [|apply safe_raise; discriminate].
    apply safe_from_sexpr_at. rewrite Hc. intros ty x c' Hx Hc'.
    apply IH; [done|].
    destruct Hdepth as [[Hleaf _]|Hdepth]; [by destruct (Hleaf x)|].
    destruct t as [a|items].
    + left. split; [by eapply child_of_atom|]. cbn in Hdepth. lia.
    + destruct (child_of_list _ _ Hx) as [?|?]; [left|right; lia].
      split; [done|]. cbn in Hdepth. lia.
Qed.

(** [from_sexpr] is never out of frames: its result is the result under
    every larger bound. *)
Lemma from_sexpr_enough env cls c : safe (from_sexpr_cursor env cls c).
Proof.
  apply safe_from_sexpr_at. intros ty x c' Hx Hc'.
  apply dispatch_enough; [done|].
  destruct (sexpr c) as [a|items].
  - left. split; [by eapply child_of_atom|lia].
  - destruct (child_of_list _ _ Hx) as [?|?]; [left; split; [done|lia]|right; lia].
Qed.

Lemma from_sexpr_any_depth env cls c depth st :
  S (sexpr_depth (sexpr c)) ≤ depth →
  from_sexpr_at (dispatch depth env) env cls c st = from_sexpr_cursor env cls c st.
Proof. intros H. apply from_sexpr_deeper; [done|apply from_sexpr_enough]. Qed.

End Enough.


(** * The engine on the declared records *)

Module Evaluation.
Import Schema KiCadObject.
#[local] Existing Instance CPython.builtins.

Definition size (width height : PrimFloat.float) : value :=
  VObject "Size" [("width", vfloat width); ("height", vfloat height)].

Definition file_data (lines : list string) : value :=
  VObject "FileData" [("lines", VList (vstr <$> lines))].

Definition net (number : Z) (name : string) : value :=
  VObject "Net" [("number", vint number); ("name", vstr name)].

Definition kicad_int (token : string) (n : Z) : value :=
  VPrimitive KiCadInt token (int n) true.

(** On this runtime the bound on the frames is immaterial. *)
Lemma int_of_float_class (x : PrimFloat.float) : int_of_float x ≠ inl RecursionError.
Proof.
  change (CPython.int_of_float x ≠ inl RecursionError).
  unfold CPython.int_of_float. by destruct (Prim2SF x).
Qed.

Lemma decode_at_any_depth (cls : ClassDecl) (c : ParseCursor) (depth : nat) (st : state) :
  S (sexpr_depth (sexpr c)) ≤ depth →
  from_sexpr_at (dispatch depth env) env cls c st = from_sexpr_cursor env cls c st.
Proof. apply from_sexpr_any_depth, int_of_float_class. Qed.

(** The strictness gradient of the spec on [Size]. *)
Example size_complete :
  from_sexpr env Size [sym "size"; num 10; num 20] STRICT start
  = (Return (size 10 20), start).
Proof. reflexivity. Qed.

Example size_missing_height :
  from_sexpr env Size [sym "size"; num 10] STRICT start
  = (Raise (Exn ValueError (MissingRequired "Size" "float" "height" 2)), start)
  ∧ from_sexpr env Size [sym "size"; num 10] FAILSAFE start
    = (Return (size 10 0), State ∅ [MissingRequired "Size" "float" "height" 2])
  ∧ from_sexpr env Size [sym "size"; num 10] SILENT start
    = (Return (size 10 0), start).
Proof. repeat split; reflexivity. Qed.

(** A record of two scalars goes through encode and decode unchanged. *)
Lemma net_round_trip (number : Z) (name : string) (s : ParseStrictness) (st : state) :
  ∃ items, to_sexpr env (net number name) = SList items
           ∧ from_sexpr env Net items s st = (Return (net number name), st).
Proof.
  eexists. split; [reflexivity|]. destruct st, s; reflexivity.
Qed.

(** ** Round trip *)

Lemma encode_file_data (lines : list string) :
  to_sexpr env (file_data lines) = SList (str "data" :: (str <$> lines)).
Proof.
  transitivity
    (SList (str "data" ::
            map (λ item, match item with
                         | VAtom a => Atom a
                         | VRawList items => SList items
                         | _ => to_sexpr env item
                         end) (vstr <$> lines) ++ [])); [reflexivity|].
  rewrite app_nil_r. f_equal. f_equal.
  induction lines as [|l lines IH]; [reflexivity|].
  cbn [fmap list_fmap map]. by rewrite IH.
Qed.

(** C1 at [FileData] of [footprint_library.py], [lines: List[str]].  Encode
    appends every line to the term; decode, under every strictness, returns
    the record with no line at all: a list field whose elements are not
    self-parsing is given the empty list whatever the term holds.  For the
    instance with the line [QUJD], what is decoded is not equal to what was
    encoded. *)
Theorem primitive_list_is_lost_on_round_trip (lines : list string)
    (s : ParseStrictness) (st : state) :
  to_sexpr env (file_data lines) = SList (str "data" :: (str <$> lines))
  ∧ from_sexpr env FileData (str "data" :: (str <$> lines)) s st
    = (Return (file_data []), st)
  ∧ value_eqb (file_data []) (file_data ["QUJD"]) = false.
Proof.
  split; [apply encode_file_data|]. split; [|reflexivity].
  destruct st, s; reflexivity.
Qed.

(** ** Unused elements *)

(** C3 on [Size].  Whatever follows the two floats, and under every
    strictness, [Strict] included, decode returns the instance built from
    the two floats: nothing reads the set of used indices when the fields are
    done.  On [(size 10.0 20.0 extra)] under [Strict] the root cursor ends
    with the indices 1 and 2 marked, the index 3 of [extra] unmarked, and the
    instance is returned, where the claim asks for an error. *)
Theorem unused_elements_are_not_detected (width height : PrimFloat.float)
    (extra : list SExpr) (s : ParseStrictness) (st : state) :
  from_sexpr env Size (sym "size" :: num width :: num height :: extra) s st
  = (Return (size width height), st)
  ∧ from_sexpr_cursor env Size
      (Cursor (SList [sym "size"; num 10; num 20; sym "extra"]) ["Size"] STRICT) start
    = (Return (size 10 20), State ({[2]} ∪ ({[1]} ∪ ∅)) []).
Proof.
  split; [|reflexivity]. destruct st, s; reflexivity.
Qed.

(** ** Used indices *)

Definition model (path : string) (at_ : value) : value :=
  VObject "Model"
    [("path", vstr path); ("at", at_); ("scale", VNone); ("rotate", VNone);
     ("offset", VNone)].

Definition embedded_file (name type : string) : value :=
  VObject "EmbeddedFile"
    [("name", VObject "FileName" [("value", vstr name)]);
     ("type", VObject "FileType" [("value", vstr type)]);
     ("data", VNone); ("checksum", VNone)].

Definition path_info : FieldInfo :=
  Build_FieldInfo "path" PRIMITIVE TStr false false None 0.
Definition at_info : FieldInfo :=
  Build_FieldInfo "at" SEXPR_BASE (TKiCadObject "ModelAt") true false (Some "at") 1.
Definition files_info : FieldInfo :=
  Build_FieldInfo "files" SEXPR_BASE (TKiCadObject "EmbeddedFile") false true
    (Some "file") 0.

(** C4 on [Model] of [footprint_library.py], at the term [(model "at")], a
    model whose file is named [at].  The positional field [path] consumes the
    index 1 and marks it; the named lookup of the next field, [at], scans every
    element after the head without looking at the marks, finds the same
    string at the index 1 and claims it again: under [Silent] one element is
    bound to two fields, under [Strict] the decode raises on the [at] it made
    up.  The collection of a list field on a known token does not look at the
    marks either: the [file] at the index 1, marked beforehand, is collected. *)
Theorem used_index_is_claimed_again :
  let c := Cursor (SList [sym "model"; str "at"]) ["Model"] SILENT in
  let files :=
    Cursor (SList [sym "embedded_files";
                   SList [sym "file"; SList [sym "name"; str "a.txt"];
                          SList [sym "type"; sym "other"]]])
      ["EmbeddedFiles"] SILENT in
  take 2 (_classify_fields env Model) = [path_info; at_info]
  ∧ _classify_fields env EmbeddedFiles = [files_info]
  ∧ (∃ st1,
       _parse_field (dispatch 2 env) path_info c start = (Return (vstr "at"), st1)
       ∧ 1 ∈ used_indices st1
       ∧ find_token_from "at" 1 [str "at"] = Some (1, [str "at"])
       ∧ (find_token c "at" true st1).1 = Return [str "at"])
  ∧ from_sexpr env Model [sym "model"; str "at"] SILENT start
    = (Return (model "at" (VObject "ModelAt" [("xyz", xyz 0 0 0)])), start)
  ∧ from_sexpr env Model [sym "model"; str "at"] STRICT start
    = (Raise (Exn ValueError (RequiredTokenNotFound "Model > at" "xyz")), start)
  ∧ (∃ st0, 1 ∈ used_indices st0
       ∧ (_parse_field (dispatch 3 env) files_info files st0).1
         = Return (VList [embedded_file "a.txt" "other"])).
Proof.
  cbv zeta. split; [reflexivity|]. split; [reflexivity|]. split.
  { eexists. split; [reflexivity|]. split; [set_solver|]. split; reflexivity. }
  split; [reflexivity|]. split; [reflexivity|].
  exists (State {[1]} []). split; [set_solver|reflexivity].
Qed.

(** ** List elements that do not decode *)

(** [(embedded_files (file) (file (name "a.txt") (type other)))]: the first
    file has neither of its two required tokens. *)
Definition files_term : list SExpr :=
  [sym "embedded_files"; SList [sym "file"];
   SList [sym "file"; SList [sym "name"; str "a.txt"]; SList [sym "type"; sym "other"]]].

(** The field [name] of [EmbeddedFile], as classified. *)
Definition name_info : FieldInfo :=
  Build_FieldInfo "name" SEXPR_BASE (TKiCadObject "FileName") false false (Some "name") 0.

Definition values_term : list SExpr :=
  [sym "values"; SList [sym "a"; int 1]; SList [sym "b"; sym "x"];
   SList [sym "c"; int 3]].

(** Modelled from the spec: a list field whose element type has no fixed
    token name, for which classification leaves the token name empty; no
    record among the sources declares one.  This is what [_classify_field]
    gives for a field declared [items: List[KiCadInt]], [KiCadInt] having no
    token of its class. *)
Definition items_info : FieldInfo :=
  Build_FieldInfo "items" SEXPR_BASE (TKiCadPrimitive KiCadInt) false true (Some "") 0.

Definition group_term : list SExpr :=
  [sym "group"; SList [sym "net"; int 1; str "GND"]; SList [sym "net"; int 2; str "VCC"]].

(** Modelled from the spec: the same for a list of records of any class,
    what [_classify_field] gives for a field declared
    [children: List[KiCadObject]]; the base class has no token either. *)
Definition children_info : FieldInfo :=
  Build_FieldInfo "children" SEXPR_BASE (TKiCadObject "KiCadObject") false true (Some "") 0.

(** C6 fails in both varieties.

    With a known token, on [EmbeddedFiles] of [footprint_library.py]: the
    decode of the first file of [files_term] fails under [Strict], and aborts
    the decode of the container; under [Failsafe] and [Silent] that file is
    not skipped: the list holds it, with its defaults, before the second.

    Without a token, [_parse_list_field] on the two field infos above, under
    [Strict]: [(b x)] does not decode as a [KiCadInt] and the field returns
    the two elements around it; the decode of each element of [group_term]
    raises the token-mismatch error and the field returns the empty list. *)
Lemma failing_elements_are_kept_or_skipped :
  from_sexpr env EmbeddedFiles files_term STRICT start
  = (Raise (Exn ValueError (RequiredTokenNotFound "EmbeddedFiles > files[0]" "name")),
     start)
  ∧ from_sexpr env EmbeddedFiles files_term FAILSAFE start
    = (Return (VObject "EmbeddedFiles"
                 [("files", VList [embedded_file "" ""; embedded_file "a.txt" "other"])]),
       State ∅ [RequiredTokenNotFound "EmbeddedFiles > files[0]" "name";
                RequiredTokenNotFound "EmbeddedFiles > files[0]" "type"])
  ∧ from_sexpr env EmbeddedFiles files_term SILENT start
    = (Return (VObject "EmbeddedFiles"
                 [("files", VList [embedded_file "" ""; embedded_file "a.txt" "other"])]),
       start)
  ∧ _classify_field env 0
      (field "items" (list_of (TKiCadPrimitive KiCadInt)) (DefaultFactory (VList [])))
    = items_info
  ∧ KiCadPrimitive.from_sexpr KiCadInt (SList [sym "b"; sym "x"]) STRICT
      (Some (Cursor (SList [sym "b"; sym "x"]) ["Values"; "items[1]"] STRICT)) start
    = (Return VNone, start)
  ∧ _parse_list_field (dispatch 2 env) items_info
      (Cursor (SList values_term) ["Values"] STRICT) start
    = (Return (VList [kicad_int "a" 1; kicad_int "c" 3]), State {[1; 3]} [])
  ∧ _classify_field env 0
      (field "children" (list_of (TKiCadObject "KiCadObject")) (DefaultFactory (VList [])))
    = children_info
  ∧ decode_element (dispatch 2 env) children_info
      (Cursor (SList group_term) ["Group"] STRICT)
      (SList [sym "net"; int 1; str "GND"]) [] start
    = (Raise (Exn ValueError (TokenMismatch "Group > children[0]" "" "net")), start)
  ∧ _parse_list_field (dispatch 2 env) children_info
      (Cursor (SList group_term) ["Group"] STRICT) start
    = (Return (VList []), start).
Proof. repeat split; reflexivity. Qed.

(** Under [Strict] the first file of [files_term] aborts the decode of the
    container; and the list without a token of [values_term] is what the
    decodes of its three elements returned, [None] for the second. *)
Lemma list_element_failures_witness :
  (∃ e st', from_sexpr env EmbeddedFiles files_term STRICT start = (Raise e, st'))
  ∧ ∃ rs,
      Forall2 (λ p r,
                 element_gives (dispatch 3 env) items_info
                   (Cursor (SList values_term) ["KiCadObject"] STRICT) p.2 r
                 ∧ ∀ e, r = Raise e → caught e = true)
        (candidates (used_indices start) 1 (tail values_term)) rs
      ∧ VList [kicad_int "a" 1; kicad_int "c" 3] = VList (concat (kept <$> rs))
      ∧ used_indices (State {[1; 3]} [])
        = used_indices start
          ∪ list_to_set
              (concat (zip_with marked_by
                         (candidates (used_indices start) 1 (tail values_term)) rs)).
Proof.
  split.
  - destruct (@list_element_failures CPython.builtins env EmbeddedFiles
                (sym "embedded_files") (tail files_term) STRICT files_info eq_refl)
      as [Hknown _].
    destruct (Hknown "file" eq_refl) as (_ & _ & _ & Hstrict & _).
    destruct (Hstrict EmbeddedFile name_info (SList [sym "file"])) as [_ Hwhole].
    + reflexivity.
    + reflexivity.
    + reflexivity.
    + apply list_elem_of_here.
    + apply list_elem_of_here.
    + reflexivity.
    + intros [sx p s'] st Hc. cbn in Hc. subst sx.
      exists (RequiredTokenNotFound (join " > " p) "name"). by destruct s'.
    + apply Hwhole; [reflexivity|apply list_elem_of_here].
  - destruct (@list_element_failures CPython.builtins env KiCadObjectBase
                (sym "values") (tail values_term) STRICT items_info eq_refl)
      as [_ Hunknown].
    destruct (Hunknown eq_refl) as [_ Hreturns].
    apply (Hreturns start (VList [kicad_int "a" 1; kicad_int "c" 3])
             (State {[1; 3]} [])).
    reflexivity.
Defined.

(** ** Witnesses *)

Lemma token_mismatch_witness :
  from_sexpr env Size [sym "wrong_token"; num 10; num 20] SILENT start
  = (Raise (Exn ValueError (TokenMismatch "Size" "size" "wrong_token")), start).
Proof.
  apply (token_mismatch_is_always_fatal env Size (sym "wrong_token")).
  apply (bool_decide_unpack _). exact I.
Defined.

(** Unrecognised boolean text under [Strict]: [False], and no error. *)
Lemma parse_bool_witness :
  parse_bool (Cursor (SList [sym "hide"; sym "maybe"]) ["Hide"] STRICT) 1 "value" true start
  = (Return (Atom (ABool false)), State ({[1]} ∪ ∅) [])
  ∧ _convert_to_type (sym "maybe") TBool = Return (Atom (ABool false)).
Proof.
  apply (parse_bool_total (Cursor (SList [sym "hide"; sym "maybe"]) ["Hide"] STRICT)
           [sym "hide"; sym "maybe"] 1 (ASymbol "maybe") "value" true start);
    [reflexivity|reflexivity|discriminate].
Defined.

Definition at_term : list SExpr := [sym "at"; sym "not_a_number"; num 20].

Definition at_x : DataclassField := field "x" (plain TFloat) (DefaultValue (vfloat 0)).
Definition at_y : DataclassField := field "y" (plain TFloat) (DefaultValue (vfloat 0)).

Definition at_x_message : message :=
  CannotConvert "At" "not_a_number" "float" "x" (Runtime "float").

(** The example of the spec: [(at not_a_number 20.0)] under [Failsafe] gives
    [x] its default, binds [y] to [20.0] and logs the conversion failure. *)
Lemma conversion_failure_default_witness :
  ∃ inst st',
    from_sexpr env At at_term FAILSAFE start = (Return inst, st')
    ∧ getattr inst "x" = Some (vfloat 0)
    ∧ getattr inst "y" = Some (vfloat 20)
    ∧ at_x_message ∈ warnings st'.
Proof.
  pose proof (scalar_anomalies_follow_strictness env At (sym "at")
    [sym "not_a_number"; num 20] FAILSAFE 0 at_x (Policy true at_x_message)) as H.
  cbv zeta in H.
  destruct H as (_ & Hdefault & Hsibling).
  - apply (bool_decide_unpack _). exact I.
  - apply list_elem_of_here.
  - apply list_elem_of_here.
  - reflexivity.
  - reflexivity.
  - refine (float_conversion_failure _ _ _ (ASymbol "not_a_number")
              (Exn ValueError (Runtime "float")) _ _ _ _);
      [reflexivity|reflexivity|discriminate|reflexivity].
  - eexists _, _. split; [reflexivity|].
    destruct (Hdefault start _ _ eq_refl) as (_ & Hx & Hlog).
    split; [exact Hx|]. split; [|exact Hlog].
    eapply (Hsibling 1 at_y (vfloat 20) start).
    + apply list_elem_of_further, list_elem_of_here.
    + apply list_elem_of_further, list_elem_of_here.
    + reflexivity.
    + reflexivity.
    + refine (bound_float _ _ (AFloat 20%float) 20%float _ _ _ _);
        [reflexivity|reflexivity|discriminate|reflexivity].
    + reflexivity.
Defined.

(** C5 fails for a conversion whose error is neither [ValueError] nor
    [TypeError], and for a list where an optional scalar is declared.
    [int(inf)] and [float(10**400)] raise [OverflowError]: under [Silent] and
    [Failsafe] the decode of [(net inf "GND")], and under [Silent] that of
    [(size 10**400 20)], raises it, where the claim has the field take its
    default.  And [(at 1 2 (x))] has a list where the angle, an optional
    [float], is declared: under [Strict] the decode returns, the angle at its
    default, nothing raised and nothing logged. *)
Lemma conversion_failures_outside_the_policy :
  from_sexpr env Net [sym "net"; num infinity; str "GND"] SILENT start
  = (Raise (Exn OverflowError (Runtime "int")), start)
  ∧ from_sexpr env Net [sym "net"; num infinity; str "GND"] FAILSAFE start
    = (Raise (Exn OverflowError (Runtime "int")), start)
  ∧ from_sexpr env Size [sym "size"; int (10 ^ 400); num 20] SILENT start
    = (Raise (Exn OverflowError (Runtime "float")), start)
  ∧ from_sexpr env At [sym "at"; num 1; num 2; SList [sym "x"]] STRICT start
    = (Return (VObject "At" [("x", vfloat 1); ("y", vfloat 2); ("angle", VNone)]), start).
Proof. repeat split; reflexivity. Qed.

Lemma kicad_style_layout_witness :
  _format_sexpr_kicad_style
    (SList [str "file"; SList [str "name"; str "a.txt"]; SList [str "type"; str "other"]]) 0
  = join newline
      ["(file"; tabs 1 +:+ "(name " +:+ double_quote +:+ "a.txt" +:+ double_quote +:+ ")";
       tabs 1 +:+ "(type other)"; ")"].
Proof.
  refine (proj1 (proj2 (proj2 (proj2
    (kicad_style_layout (str "file")
       [SList [str "name"; str "a.txt"]; SList [str "type"; str "other"]] 0)))) _ _).
  - discriminate.
  - left. discriminate.
Defined.

(** C7 fails on an empty nested list: the child [()] of [(a ())] is printed
    at the left margin, not one tab in. *)
Lemma empty_nested_list_is_not_indented :
  _format_sexpr_kicad_style (SList [str "a"; SList []]) 0
  = "(a" +:+ newline +:+ "()" +:+ newline +:+ ")"
  ∧ _format_sexpr_kicad_style (SList [str "a"; SList []]) 0
    ≠ "(a" +:+ newline +:+ tabs 1 +:+ "()" +:+ newline +:+ ")".
Proof. split; [reflexivity|discriminate]. Qed.

End Evaluation.


(** * Further properties of the engine *)


(** ** Lookup by token *)

Section FindToken.
Context {py : PyBuiltins}.

Lemma find_token_from_spec token idx items :
  match find_token_from token idx items with
  | Some (i, found) =>
      ∃ k item, i = idx + k ∧ items !! k = Some item
                ∧ token_match token item = Some found
                ∧ ∀ j item', j < k → items !! j = Some item' →
                    token_match token item' = None
  | None => ∀ j item', items !! j = Some item' → token_match token item' = None
  end.
Proof.
  revert idx. induction items as [|item rest IH]; intros idx; cbn [find_token_from].
  - by intros j item' H.
  - destruct (token_match token item) as [found|] eqn:E.
    + exists 0, item. rewrite Nat.add_0_r. repeat split; [done..|]. intros; lia.
    + specialize (IH (S idx)). destruct (find_token_from _ _ rest) as [[i found]|].
      * destruct IH as (k & item' & -> & Hk & Hm & Hfirst).
        exists (S k), item'. repeat split; [lia|done..|].
        intros [|j] item'' Hj Hi; cbn in Hi; [by simplify_eq|].
        eapply Hfirst; [|done]. lia.
      * intros [|j] item' Hi; cbn in Hi; [by simplify_eq|]. by eapply IH.
Qed.

Lemma token_match_nonempty token item found :
  token_match token item = Some found → found ≠ [].
Proof.
  destruct item as [a|[|head tl]]; cbn; [|done|].
  - destruct (_ && _); [|done]. by intros [= <-].
  - destruct (String.eqb _ _); [|done]. by intros [= <-].
Qed.

Lemma find_token_cases (c : ParseCursor) (items : list SExpr) (token : string)
    (mark : bool) (st : state) :
  sexpr c = SList items →
  (∃ idx item found,
      find_token c token mark st
      = (Return found,
         if mark then State ({[idx]} ∪ used_indices st) (warnings st) else st)
      ∧ 1 ≤ idx ∧ items !! idx = Some item
      ∧ token_match token item = Some found ∧ found ≠ []
      ∧ ∀ j item', 1 ≤ j < idx → items !! j = Some item' →
          token_match token item' = None)
  ∨ (find_token c token mark st = (Return [], st)
     ∧ ∀ j item', 1 ≤ j → items !! j = Some item' → token_match token item' = None).
Proof.
  intros Hc. unfold find_token.
  rewrite (bind_return _ _ _ _ _ (items_of_list c items _ st Hc)).
  pose proof (find_token_from_spec token 1 (tail items)) as H.
  assert (∀ j, tail items !! j = items !! S j) as Htail by (by destruct items).
  destruct (find_token_from token 1 (tail items)) as [[i found]|].
  - left. destruct H as (k & item & -> & Hk & Hm & Hfirst).
    exists (1 + k), item, found. rewrite Htail in Hk.
    split; [by destruct mark|]. split; [lia|]. split; [done|]. split; [done|].
    split; [by eapply token_match_nonempty|].
    intros [|j] item' Hj Hi; [lia|]. rewrite <-Htail in Hi.
    eapply Hfirst; [|done]. lia.
  - right. split; [done|]. intros [|j] item' Hj Hi; [lia|]. rewrite <-Htail in Hi. eauto.
Qed.

(** X1.  [find_token] returns what the first element after the head that
    matches the token gives (the list itself, or the bare token in a list of
    its own), and marks its index when asked to; when no element matches it
    returns the empty list and leaves the state as it was.  The head is never
    looked at, and what is returned for a match is never empty. *)
Theorem find_token_first_match (items : list SExpr) (path : list string)
    (s : ParseStrictness) (token : string) (mark : bool) (st : state) :
  let c := Cursor (SList items) path s in
  (∃ idx item found,
      find_token c token mark st
      = (Return found,
         if mark then State ({[idx]} ∪ used_indices st) (warnings st) else st)
      ∧ 1 ≤ idx ∧ items !! idx = Some item
      ∧ token_match token item = Some found ∧ found ≠ []
      ∧ ∀ j item', 1 ≤ j < idx → items !! j = Some item' →
          token_match token item' = None)
  ∨ (find_token c token mark st = (Return [], st)
     ∧ ∀ j item', 1 ≤ j → items !! j = Some item' → token_match token item' = None).
Proof. by apply find_token_cases. Qed.

End FindToken.

(** ** Strings, and records looked up by token *)

Section Named.
Context {py : PyBuiltins}.
Import KiCadObject.

(** X2.  String scalar parsing is total over atoms: whatever atom stands at the
    index, [parse_str] marks the index and returns its text, under every
    strictness; nothing is raised, nothing is logged. *)
Theorem parse_str_total (items : list SExpr) (path : list string) (s : ParseStrictness)
    (index : nat) (a : atom) (field_name : string) (required : bool) (st : state) :
  items !! index = Some (Atom a) → a ≠ ANone →
  parse_str (Cursor (SList items) path s) index field_name required st
  = (Return (Atom (AStr (str_atom a))),
     State ({[index]} ∪ used_indices st) (warnings st)).
Proof.
  intros Hi Ha. unfold parse_str.
  rewrite (bind_return _ _ _ _ _
             (get_value_at_index_atom (Cursor (SList items) path s) items index a
                field_name "str" required st eq_refl Hi)).
  by destruct a.
Qed.

(** X3.  A record field looked up by its token, when no element after the head
    carries the token: an optional field is left out without a word under
    every strictness; a required one goes through the policy, which raises
    under [Strict], logs under [Failsafe] and keeps silent under [Silent].
    No index is marked. *)
Theorem missing_token_follows_strictness (dec : decoder) (fi : FieldInfo)
    (items : list SExpr) (path : list string) (s : ParseStrictness) (token : string)
    (st : state) :
  let c := Cursor (SList items) path s in
  let msg := RequiredTokenNotFound (get_path_str c) token in
  is_list fi = false → field_type fi = SEXPR_BASE →
  token_truth (token_name fi) = Some token →
  (∀ j item, 1 ≤ j → items !! j = Some item → token_match token item = None) →
  _parse_field dec fi c st
  = if is_optional fi then (Return VNone, st)
    else match s with
         | STRICT => (Raise (Exn ValueError msg), st)
         | FAILSAFE => (Return VNone, State (used_indices st) (warnings st ++ [msg]))
         | SILENT => (Return VNone, st)
         end.
Proof.
  intros c msg Hlist Hty Htoken Hnone.
  unfold _parse_field, _parse_sexpr_base_field. rewrite Hlist, Hty, Htoken.
  destruct (find_token_cases c items token true st eq_refl)
    as [(idx & item & found & _ & Hidx & Hi & Hm & _)|[Hf _]].
  { by rewrite (Hnone idx item Hidx Hi) in Hm. }
  rewrite (bind_return _ _ _ _ _ Hf).
  destruct (is_optional fi); [reflexivity|].
  cbn [negb]. rewrite bind_run. unfold log_issue.
  by destruct s, st.
Qed.

End Named.

(** ** The log, the empty term, errors no strictness absorbs *)

Section Policy.
Context {py : PyBuiltins}.
Import KiCadObject.

(** X4.  Whatever the decode does, returning or raising: under [Strict] and
    [Silent] it leaves the log as it was, under [Failsafe] it only appends to
    it. *)
Theorem decode_only_appends_to_the_log (env : Env) (cls : ClassDecl)
    (term : list SExpr) (s : ParseStrictness) (st : state) :
  let st' := (from_sexpr env cls term s st).2 in
  match s with
  | FAILSAFE => ∃ new, warnings st' = warnings st ++ new
  | _ => warnings st' = warnings st
  end.
Proof.
  cbv zeta. pose proof (from_sexpr_tracks s env cls term st) as H.
  destruct (from_sexpr env cls term s st) as [r st'].
  specialize (H r st' eq_refl). by destruct s.
Qed.

(** X5.  The empty list has no head: its token is taken to be [empty], and the
    decode raises the token mismatch under every strictness, unless the class
    answers to that token. *)
Theorem empty_term_is_a_token_mismatch (env : Env) (cls : ClassDecl)
    (s : ParseStrictness) (st : state) :
  "empty" ∉ cd_token_name cls :: cd_legacy_token_names cls →
  from_sexpr env cls [] s st
  = (Raise (Exn ValueError (TokenMismatch (cd_name cls) (cd_token_name cls) "empty")), st).
Proof.
  intros H. unfold from_sexpr, from_sexpr_cursor, nested, from_sexpr_at, head_token.
  cbn [sexpr py_truth bool_decide]. rewrite bool_decide_true by done. cbn [negb].
  rewrite bind_run. unfold ret. rewrite bool_decide_false by done.
  unfold raise. cbn. by rewrite state_eta.
Qed.

(** X6.  [int(x)] on an infinite float raises [OverflowError], which no handler
    of the engine names.  A scalar [int] field that meets one lets the error
    through under every strictness, [Silent] included, having marked the
    index and logged nothing; and the decode of the record does not return. *)
Theorem overflow_is_let_through (env : Env) (cls : ClassDecl) (head : SExpr)
    (rest : list SExpr) (s : ParseStrictness) (position : nat) (f : DataclassField)
    (x : float) :
  let items := head :: rest in
  let c := Cursor (SList items) [cd_name cls] s in
  let fi := _classify_field env position f in
  fi ∈ _classify_fields env cls →
  field_type fi = PRIMITIVE → is_list fi = false → inner_type fi = TInt →
  items !! (position_index fi + 1) = Some (Atom (AFloat x)) →
  int_of_float x = inl OverflowError →
  (∀ dec st,
     _parse_field dec fi c st
     = (Raise (Exn OverflowError (Runtime "int")),
        State ({[position_index fi + 1]} ∪ used_indices st) (warnings st)))
  ∧ ∀ st, ∃ e st', from_sexpr env cls items s st = (Raise e, st').
Proof.
  intros items c fi Hfi Hprim Hlist Hty Hi Hx.
  assert (∀ dec st,
     _parse_field dec fi c st
     = (Raise (Exn OverflowError (Runtime "int")),
        State ({[position_index fi + 1]} ∪ used_indices st) (warnings st))) as Hfield.
  { intros dec st. rewrite parse_field_primitive by done.
    rewrite parse_primitive_positional
      by (unfold fi; by rewrite classify_field_primitive).
    unfold scalar_parser. rewrite Hty, fmap_run. unfold parse_int.
    rewrite (bind_return _ _ _ _ _
               (get_value_at_index_atom c items _ _ (name fi) "int"
                  (negb (is_optional fi)) st eq_refl Hi)).
    cbn [is_none]. unfold try_except. rewrite bind_run. cbn [lift py_int].
    by rewrite Hx. }
  split; [exact Hfield|]. intros st.
  apply from_sexpr_raise. intros dec pv st0.
  apply parse_fields_raise with (fi := fi); [exact Hfi|].
  intros st1. rewrite Hfield. by eexists.
Qed.

End Policy.

(** ** Wrappers and flags *)

Section Wrappers.
Context {py : PyBuiltins}.

(** X7.  A flag goes through encode and decode with its token and its value,
    the empty value apart: encode drops it, and decode gives a flag without
    value, which is not equal to the flag encoded.  A simple flag goes
    through with its token.  The decoded flag has [required] at its
    default. *)
Theorem flags_round_trip (token : string) (token_value : option string)
    (required : bool) (s : ParseStrictness) (c : ParseCursor) (st : state) :
  OptionalFlag.from_sexpr (OptionalFlag.to_sexpr token token_value) s (Some c) st
  = (Return (VOptionalFlag token
               (if bool_decide (token_value = Some "") then None else token_value) false),
     st)
  ∧ OptionalFlag.__eq__ (VOptionalFlag token token_value required)
      (VOptionalFlag token
         (if bool_decide (token_value = Some "") then None else token_value) false)
    = negb (bool_decide (token_value = Some ""))
  ∧ OptionalSimpleFlag.from_sexpr (OptionalSimpleFlag.to_sexpr token) s (Some c) st
    = (Return (VOptionalSimpleFlag token false), st).
Proof.
  split; [|split; [|reflexivity]]; destruct token_value as [v|]; cbn.
  - destruct (String.eqb_spec v "") as [->|Hv]; [reflexivity|].
    by rewrite bool_decide_false by congruence.
  - reflexivity.
  - destruct (String.eqb_spec v "") as [->|Hv].
    + cbn. by rewrite String.eqb_refl.
    + rewrite bool_decide_false by congruence. cbn. by rewrite !String.eqb_refl.
  - by rewrite String.eqb_refl.
Qed.

(** X8.  A wrapper holding a value of its base type goes through encode and
    decode with its class, its token (the empty one too: the value is then
    encoded bare) and its value; [required] comes back at its default. *)
Theorem primitive_round_trip (token : string) (required : bool)
    (s : ParseStrictness) (c : ParseCursor) (st : state) :
  (∀ v : string,
     KiCadPrimitive.from_sexpr KiCadStr
       (KiCadPrimitive.to_sexpr token (Atom (AStr v))) s (Some c) st
     = (Return (VPrimitive KiCadStr token (Atom (AStr v)) true), st))
  ∧ (∀ n : Z,
       KiCadPrimitive.from_sexpr KiCadInt
         (KiCadPrimitive.to_sexpr token (Atom (AInt n))) s (Some c) st
       = (Return (VPrimitive KiCadInt token (Atom (AInt n)) true), st))
  ∧ (∀ x : float,
       KiCadPrimitive.from_sexpr KiCadFloat
         (KiCadPrimitive.to_sexpr token (Atom (AFloat x))) s (Some c) st
       = (Return (VPrimitive KiCadFloat token (Atom (AFloat x)) true), st)).
Proof.
  unfold KiCadPrimitive.to_sexpr.
  repeat split; intros; destruct (String.eqb_spec token "") as [->|_]; reflexivity.
Qed.

(** X9.  Decoding a wrapper never raises [ValueError] or [TypeError] and never
    logs, whatever the strictness: a value that does not convert gives
    [None], under [Strict] as well. *)
Theorem primitive_decode_absorbs_conversion_errors (cls : PrimitiveClass)
    (term : SExpr) (s : ParseStrictness) (c : ParseCursor) (st : state) :
  ∃ r, KiCadPrimitive.from_sexpr cls term s (Some c) st = (r, st)
       ∧ match r with
         | Return v => v = VNone ∨ ∃ token payload, v = VPrimitive cls token payload true
         | Raise e => caught e = false
         end.
Proof.
  unfold KiCadPrimitive.from_sexpr.
  destruct (match term with
            | SList (t :: v :: _) => (py_str t, v)
            | SList _ => ("", Atom ANone)
            | Atom _ => ("", term)
            end) as [token value].
  destruct (is_none value); [eexists; split; [reflexivity|by left]|].
  unfold try_except. rewrite bind_run. cbn [lift].
  destruct (KiCadPrimitive._convert_value cls value) as [converted|e].
  - eexists; split; [reflexivity|]. right. eauto.
  - destruct (caught e) eqn:E; eexists; (split; [reflexivity|]); [by left|done].
Qed.

(** X20.  The truth of a flag survives encode and decode, also where equality
    does not: a flag with the empty value is true, and so is the flag without
    value that decode gives for it. *)
Theorem flag_truth_survives_round_trip (token : string) (token_value : option string)
    (required : bool) (s : ParseStrictness) (c : ParseCursor) (st : state) :
  ∃ flag,
    OptionalFlag.from_sexpr (OptionalFlag.to_sexpr token token_value) s (Some c) st
    = (Return flag, st)
    ∧ value_truth flag = value_truth (VOptionalFlag token token_value required).
Proof.
  destruct token_value as [v|]; cbn; [|by eexists].
  destruct (String.eqb_spec v "") as [->|Hv]; cbn; eexists; (split; [reflexivity|]); cbn.
  - reflexivity.
  - by destruct (String.eqb_spec v "").
Qed.

End Wrappers.

(** ** Quoting *)

Section Quoting.
Context {py : PyBuiltins}.
Import KiCadObject.

Lemma string_app_nil_r (s : string) : s +:+ "" = s.
Proof.
  induction s as [|x s IH]; [reflexivity|].
  change (String x (s +:+ "") = String x s). by rewrite IH.
Qed.

Lemma concat_cons (x : string) (l : list string) :
  String.concat "" (x :: l) = x +:+ String.concat "" l.
Proof. destruct l; cbn; [by rewrite string_app_nil_r|reflexivity]. Qed.

(** What one character becomes. *)
Definition escaped (ch : Ascii.ascii) : string :=
  if Ascii.eqb ch (Ascii.ascii_of_nat 92) then backslash +:+ backslash
  else if Ascii.eqb ch (Ascii.ascii_of_nat 34) then backslash +:+ double_quote
  else String ch "".

Lemma escape_quotes_cons (ch : Ascii.ascii) (s : string) :
  escape_quotes (String ch s) = escaped ch +:+ escape_quotes s.
Proof.
  unfold escape_quotes. cbn [String.list_ascii_of_string map].
  by rewrite concat_cons.
Qed.

(** X11.  Escaping loses nothing: two strings that escape to the same text are
    the same string, so a quoted string can be read back in one way only. *)
Theorem escape_quotes_inj (s s' : string) :
  escape_quotes s = escape_quotes s' → s = s'.
Proof.
  revert s'. induction s as [|ch s IH]; intros [|ch' s'] H.
  - reflexivity.
  - rewrite escape_quotes_cons in H. unfold escaped in H.
    repeat case_match; discriminate.
  - rewrite escape_quotes_cons in H. unfold escaped in H.
    repeat case_match; discriminate.
  - rewrite !escape_quotes_cons in H. unfold escaped in H.
    destruct (Ascii.eqb_spec ch (Ascii.ascii_of_nat 92)) as [->|H1];
    destruct (Ascii.eqb_spec ch' (Ascii.ascii_of_nat 92)) as [->|H1'];
    try destruct (Ascii.eqb_spec ch (Ascii.ascii_of_nat 34)) as [->|H2];
    try destruct (Ascii.eqb_spec ch' (Ascii.ascii_of_nat 34)) as [->|H2'];
    cbn in H; simplify_eq; try (f_equal; by apply IH); try done.
Qed.

End Quoting.

(** ** Positions of the fields *)

Section Positions.
Context {py : PyBuiltins}.
Import KiCadObject.

Lemma classify_field_position env position f :
  position_index (_classify_field env position f) = position.
Proof.
  unfold _classify_field.
  repeat match goal with |- context [if ?b then _ else _] => destruct b end; reflexivity.
Qed.

Lemma classify_from_positions env position fs :
  let fis := classify_from env position fs in
  position_index <$> fis
  = (λ k, position + length (filter (λ fi, takes_position fi = true) (take k fis)))
      <$> seq 0 (length fis).
Proof.
  revert position. induction fs as [|f fs IH]; intros position; [done|].
  cbn [classify_from]. destruct (is_private (df_name f)); [apply IH|].
  cbv zeta. cbn [fmap list_fmap length seq].
  rewrite classify_field_position. cbn [take filter list_filter length].
  rewrite Nat.add_0_r. f_equal.
  rewrite <-fmap_S_seq, <-list_fmap_compose.
  specialize (IH (if takes_position (_classify_field env position f)
                  then S position else position)).
  cbv zeta in IH. etrans; [exact IH|].
  apply list_fmap_ext. intros _ k _. cbn [compose take].
  rewrite filter_cons.
  destruct (takes_position (_classify_field env position f)) eqn:E.
  - rewrite decide_True by done. cbn [length]. lia.
  - rewrite decide_False by done. lia.
Qed.

(** X12.  The fields are classified in declaration order, the private ones left
    out; the position of a field is the number of fields before it that are
    not simple flags. *)
Theorem positions_skip_simple_flags (env : Env) (cls : ClassDecl) :
  let fis := _classify_fields env cls in
  name <$> fis = filter (λ n, is_private n = false) (df_name <$> cd_fields cls)
  ∧ position_index <$> fis
    = (λ k, length (filter (λ fi, takes_position fi = true) (take k fis)))
        <$> seq 0 (length fis).
Proof.
  cbv zeta. split; [|apply (classify_from_positions env 0)].
  unfold _classify_fields. generalize 0.
  induction (cd_fields cls) as [|f fs IH]; intros position; [done|].
  cbn [classify_from fmap list_fmap]. rewrite filter_cons.
  destruct (is_private (df_name f)) eqn:E.
  - rewrite decide_False by done. apply IH.
  - rewrite decide_True by done. cbn [fmap list_fmap].
    rewrite classify_field_name. f_equal. apply IH.
Qed.

End Positions.

(** ** List fields, again *)

Section Lists.
Context {py : PyBuiltins}.
Import KiCadObject.

Lemma parse_list_returns_a_list dec fi c st v st' :
  _parse_list_field dec fi c st = (Return v, st') → ∃ l, v = VList l.
Proof.
  unfold _parse_list_field.
  destruct (can_self_parse fi); [|intros [= <- <-]; by eexists].
  destruct (token_truth _); rewrite bind_run;
    destruct (items_of _ _ _) as [[items|e] st1]; try done;
    rewrite fmap_run;
    match goal with |- context [match ?m with _ => _ end] => destruct m as [[l|e] st2] end;
    intros [= <- <-]; by eexists.
Qed.

(** The entry of [parsed_values] for a field whose parse never returns
    [None]. *)
Lemma parse_fields_bound dec fis c pv st pv' st' fi (P : value → Prop) :
  NoDup (name <$> fis) → fi ∈ fis →
  (∀ st0 v st1, _parse_field dec fi c st0 = (Return v, st1) →
     value_is_none v = false ∧ P v) →
  parse_fields dec fis c pv st = (Return pv', st') →
  ∃ v, pv' !! name fi = Some v ∧ P v.
Proof.
  revert pv st. induction fis as [|fi' fis IH]; intros pv st Hnd Hin HP H.
  - by apply elem_of_nil in Hin.
  - cbn [parse_fields] in H. rewrite bind_run in H.
    destruct (_parse_field dec fi' c st) as [[v'|e] st1] eqn:E; [|done].
    apply NoDup_cons in Hnd as [Hfresh Hnd].
    apply elem_of_cons in Hin as [->|Hin]; [|by eapply IH].
    destruct (HP _ _ _ E) as [Hnone Hv]. rewrite Hnone in H.
    exists v'. split; [|done].
    rewrite (parse_fields_other _ _ _ _ _ _ _ _ Hfresh H).
    by rewrite lookup_insert_eq.
Qed.

(** X13.  A list field is bound by every decode that returns: to the elements
    collected, to the empty list when there is none.  Its declared default,
    [None] for one, is never what the instance holds. *)
Theorem list_field_is_always_bound (env : Env) (cls : ClassDecl) (head : SExpr)
    (rest : list SExpr) (s : ParseStrictness) (position : nat) (f : DataclassField)
    (st : state) (inst : value) (st' : state) :
  let fi := _classify_field env position f in
  NoDup (df_name <$> cd_fields cls) → f ∈ cd_fields cls →
  fi ∈ _classify_fields env cls → is_list fi = true →
  from_sexpr env cls (head :: rest) s st = (Return inst, st') →
  ∃ l, getattr inst (df_name f) = Some (VList l).
Proof.
  intros fi Hnd Hf Hfi Hlist H.
  apply from_sexpr_return in H as (pv & st1 & fields & Hp & Hi & -> & _).
  eapply (parse_fields_bound _ _ _ _ _ _ _ fi (λ v, ∃ l, v = VList l)) in Hp
    as (v & Hv & l & ->).
  - destruct (init_fields_assoc _ _ _ _ _ f Hnd Hf Hi) as (w & Hw & Hkw).
    unfold fi in Hv. rewrite classify_field_name in Hv. rewrite Hv in Hkw.
    subst w. by exists l.
  - by apply classify_fields_nodup.
  - exact Hfi.
  - intros st0 v st2 Hr. unfold _parse_field in Hr. rewrite Hlist in Hr.
    apply parse_list_returns_a_list in Hr as [l ->]. split; [done|by exists l].
Qed.

(** X14.  What stands at an index already used has no effect on the collection of
    a list field without a token: the element there is not decoded, not
    marked and not appended. *)
Theorem unknown_collection_ignores_used (dec : decoder) (fi : FieldInfo)
    (c : ParseCursor) (idx : nat) (items items' : list SExpr) (result : list value)
    (st : state) :
  length items = length items' →
  (∀ k x y, items !! k = Some x → items' !! k = Some y →
     idx + k ∉ used_indices st → x = y) →
  collect_unknown dec fi c idx items result st
  = collect_unknown dec fi c idx items' result st.
Proof.
  revert items' idx result st.
  induction items as [|x items IH]; intros [|y items'] idx result st Hlen Hsame;
    try done.
  assert (∀ st1 result',
    (∀ i, i ∈ used_indices st → i ∈ used_indices st1) →
    collect_unknown dec fi c (S idx) items result' st1
    = collect_unknown dec fi c (S idx) items' result' st1) as Hrest.
  { intros st1 result' Hused. apply IH; [by simplify_eq/=|].
    intros k x' y' Hx Hy Hk. apply (Hsame (S k) x' y' Hx Hy).
    intros Hin. apply Hk. apply Hused. by rewrite Nat.add_succ_r in Hin. }
  destruct (decide (idx ∈ used_indices st)) as [Hidx|Hidx].
  { rewrite !collect_unknown_pass by (by right). by apply Hrest. }
  assert (x = y) as <-.
  { apply (Hsame 0 x y); [done..|]. by rewrite Nat.add_0_r. }
  destruct x as [a|l].
  { rewrite !collect_unknown_pass by (by left). by apply Hrest. }
  rewrite !collect_unknown_step by done.
  destruct (decode_element dec fi c (SList l) result st) as [[element|e] st1] eqn:E;
    apply decode_element_used in E.
  - destruct (value_is_none element); apply Hrest; cbn; rewrite E; intros i Hi;
      [done|apply elem_of_union; by right].
  - destruct (caught e); [|done]. apply Hrest. by rewrite E.
Qed.

End Lists.

(** ** The head only gates *)

Section Head.
Context {py : PyBuiltins}.
Import KiCadObject.

Variables (h1 h2 : SExpr) (rest : list SExpr) (p : list string) (s : ParseStrictness).

Let c1 := Cursor (SList (h1 :: rest)) p s.
Let c2 := Cursor (SList (h2 :: rest)) p s.

Lemma scalar_parser_head fi st : scalar_parser c1 fi st = scalar_parser c2 fi st.
Proof.
  unfold scalar_parser. rewrite Nat.add_1_r.
  destruct (inner_type fi); reflexivity.
Qed.

Lemma parse_primitive_head fi st :
  _parse_primitive_field fi c1 st = _parse_primitive_field fi c2 st.
Proof.
  unfold _parse_primitive_field. cbv zeta.
  destruct (token_truth _) as [token|].
  - change (find_token c1 token true) with (find_token c2 token true).
    rewrite !bind_run. destruct (find_token c2 token true st) as [[[|x [|v l]]|e] st1];
      try reflexivity.
    rewrite !fmap_run. by rewrite scalar_parser_head.
  - rewrite !fmap_run. by rewrite scalar_parser_head.
Qed.

Lemma collect_known_head dec fi token items idx result st :
  collect_known dec fi c1 token idx items result st
  = collect_known dec fi c2 token idx items result st.
Proof.
  revert idx result st. induction items as [|item items IH]; intros idx result st;
    [reflexivity|].
  cbn [collect_known]. destruct item as [a|[|head tl]]; try apply IH.
  destruct (String.eqb _ _); [|apply IH].
  rewrite !bind_run. cbn [mark_used]. rewrite !bind_run.
  change (decode_element dec fi c1) with (decode_element dec fi c2).
  destruct (decode_element dec fi c2 _ _ _) as [[element|e] st1]; [apply IH|reflexivity].
Qed.

Lemma collect_unknown_head dec fi items idx result st :
  collect_unknown dec fi c1 idx items result st
  = collect_unknown dec fi c2 idx items result st.
Proof.
  revert idx result st. induction items as [|item items IH]; intros idx result st;
    [reflexivity|].
  cbn [collect_unknown]. rewrite !bind_run. cbn [get_used_indices].
  destruct (_ && _); [|apply IH].
  rewrite !bind_run.
  change (decode_element dec fi c1) with (decode_element dec fi c2).
  match goal with
  | |- context [try_except ?b ?h st] => destruct (try_except b h st) as [[r|e] st1]
  end; [apply IH|reflexivity].
Qed.

Lemma parse_field_head dec fi st : _parse_field dec fi c1 st = _parse_field dec fi c2 st.
Proof.
  unfold _parse_field. destruct (is_list fi); [|destruct (field_type fi)].
  - unfold _parse_list_field. destruct (can_self_parse fi); [|reflexivity].
    destruct (token_truth _); rewrite !bind_run; cbn; rewrite !fmap_run;
      [by rewrite collect_known_head|by rewrite collect_unknown_head].
  - apply parse_primitive_head.
  - unfold _parse_sexpr_base_field. destruct (token_truth _); [reflexivity|].
    rewrite Nat.add_1_r. reflexivity.
Qed.

Lemma parse_fields_head dec fis pv st :
  parse_fields dec fis c1 pv st = parse_fields dec fis c2 pv st.
Proof.
  revert pv st. induction fis as [|fi fis IH]; intros pv st; [reflexivity|].
  cbn [parse_fields]. rewrite !bind_run, parse_field_head.
  destruct (_parse_field dec fi c2 st) as [[v|e] st1]; [apply IH|reflexivity].
Qed.

End Head.

Section Alias.
Context {py : PyBuiltins}.
Import KiCadObject.

(** X15.  The head of a term is looked at by the token check and by nothing
    else: a term under a legacy alias, or under the token as a str where the
    other has a symbol, decodes exactly as the term under the declared
    token. *)
Theorem head_only_gates (env : Env) (cls : ClassDecl) (a a' : atom)
    (rest : list SExpr) (s : ParseStrictness) (st : state) :
  str_atom a ∈ cd_token_name cls :: cd_legacy_token_names cls →
  str_atom a' ∈ cd_token_name cls :: cd_legacy_token_names cls →
  from_sexpr env cls (Atom a :: rest) s st = from_sexpr env cls (Atom a' :: rest) s st.
Proof.
  intros Ha Ha'. unfold from_sexpr, from_sexpr_cursor, nested, from_sexpr_at.
  set (c := Cursor (SList (Atom a :: rest)) [cd_name cls] s).
  set (c' := Cursor (SList (Atom a' :: rest)) [cd_name cls] s).
  rewrite (bind_return _ _ _ _ _ (head_token_list c (Atom a) rest _ eq_refl)).
  rewrite (bind_return _ _ _ _ _ (head_token_list c' (Atom a') rest _ eq_refl)).
  rewrite !bool_decide_true by done.
  rewrite !bind_run.
  change (sexpr_depth (sexpr c)) with (sexpr_depth (sexpr c')).
  unfold c at 1. by rewrite (parse_fields_head (Atom a) (Atom a')).
Qed.

End Alias.

(** ** The indices a decode marks *)

(** [m] marks indices from 1 to [n - 1] only. *)
Definition within {A} (n : nat) (m : M A) : Prop :=
  ∀ st r st', m st = (r, st') →
    ∀ i, i ∈ used_indices st' → i ∈ used_indices st ∨ 1 ≤ i < n.

Section WithinFacts.
Context {py : PyBuiltins}.
Variable n : nat.

Lemma within_same {A} (m : M A) :
  (∀ st r st', m st = (r, st') → used_indices st' = used_indices st) → within n m.
Proof. intros H st r st' E i Hi. left. by rewrite <-(H _ _ _ E). Qed.

Lemma within_ret {A} (a : A) : within n (ret a).
Proof. apply within_same. by intros st r st' [= <- <-]. Qed.

Lemma within_lift {A} (o : outcome A) : within n (lift o).
Proof. apply within_same. by intros st r st' [= <- <-]. Qed.

Lemma within_raise {A} c msg : within n (@raise A c msg).
Proof. apply within_same. by intros st r st' [= <- <-]. Qed.

Lemma within_get_used : within n get_used_indices.
Proof. apply within_same. by intros st r st' [= <- <-]. Qed.

Lemma within_log_issue (c : ParseCursor) msg : within n (log_issue c msg).
Proof.
  apply within_same. intros st r st'. unfold log_issue, raise, ret, logging_warning.
  destruct (strictness c); by intros [= <- <-].
Qed.

Lemma within_nested {A} (m : M A) : within n (nested m).
Proof.
  apply within_same. intros st r st' H.
  pose proof (nested_used m st) as Hu. by rewrite H in Hu.
Qed.

Lemma within_mark_used idx : 1 ≤ idx < n → within n (mark_used idx).
Proof.
  intros H st r st' [= <- <-] i Hi. cbn in Hi.
  apply elem_of_union in Hi as [->%elem_of_singleton|Hi]; [by right|by left].
Qed.

Lemma within_bind {A B} (m : M A) (k : A → M B) :
  within n m → (∀ a, within n (k a)) → within n (m ≫= k).
Proof.
  intros Hm Hk st r st' H i Hi. rewrite bind_run in H.
  destruct (m st) as [[a|e] st1] eqn:E.
  - destruct (Hk a _ _ _ H i Hi) as [Hi'|]; [|by right]. by eapply Hm.
  - simplify_eq. by eapply Hm.
Qed.

Lemma within_fmap {A B} (f : A → B) (m : M A) : within n m → within n (f <$> m).
Proof. intros Hm. apply within_bind; [done|]. intros a. apply within_ret. Qed.

Lemma within_try_except {A} (body : M A) (handler : exn → M A) :
  within n body → (∀ e, within n (handler e)) → within n (try_except body handler).
Proof.
  intros Hb Hh st r st' H i Hi. unfold try_except in H.
  destruct (body st) as [[a|e] st1] eqn:E.
  - simplify_eq. by eapply Hb.
  - destruct (caught e).
    + destruct (Hh e _ _ _ H i Hi) as [Hi'|]; [|by right]. by eapply Hb.
    + simplify_eq. by eapply Hb.
Qed.

Lemma within_bind_return {A B} (a : A) (k : A → M B) :
  within n (k a) → within n (lift (Return a) ≫= k).
Proof. intros H st. apply H. Qed.

End WithinFacts.

Create HintDb within.
#[local] Hint Resolve within_ret within_lift within_raise within_get_used within_log_issue
  within_nested : within.

Ltac within_step :=
  match goal with
  | |- within _ (_ ≫= _) => apply within_bind; [|intros ?]
  | |- within _ (_ <$> _) => apply within_fmap
  | |- within _ (try_except _ _) => apply within_try_except; [|intros ?]
  | |- within _ (if ?b then _ else _) => destruct b
  | |- within _ (match ?x with _ => _ end) => destruct x
  | |- _ => solve [eauto with within]
  end.

Section Marks.
Context {py : PyBuiltins}.
Import KiCadObject.
Variables (items : list SExpr) (path : list string) (s : ParseStrictness).

#[local] Abbreviation cur := (Cursor (SList items) path s).
#[local] Abbreviation len := (length items).

Lemma within_get_value index fn tn required :
  1 ≤ index → within len (_get_value_at_index cur index fn tn required).
Proof.
  intros Hi. unfold _get_value_at_index. apply within_bind_return.
  destruct (items !! index) as [value|] eqn:E; [|repeat within_step].
  apply lookup_lt_Some in E.
  destruct (isinstance_list value); [repeat within_step|].
  apply within_bind; [by apply within_mark_used|]. intros _. apply within_ret.
Qed.

Lemma within_scalar_parser fi : within len (scalar_parser cur fi).
Proof.
  assert (1 ≤ position_index fi + 1) as Hi by lia.
  pose proof (λ fn tn required, within_get_value _ fn tn required Hi) as Hg.
  unfold scalar_parser.
  destruct (inner_type fi);
    unfold parse_int, parse_float, parse_bool, parse_str, parse_enum;
    repeat within_step.
Qed.

Lemma find_token_from_range token idx l i found :
  find_token_from token idx l = Some (i, found) → idx ≤ i < idx + length l.
Proof.
  revert idx. induction l as [|item l IH]; intros idx H; [done|].
  cbn [find_token_from] in H. destruct (token_match token item).
  - simplify_eq. cbn. lia.
  - apply IH in H. cbn. lia.
Qed.

Lemma within_find_token token mark : within len (find_token cur token mark).
Proof.
  unfold find_token. apply within_bind_return.
  destruct (find_token_from token 1 (tail items)) as [[i found]|] eqn:E;
    [|apply within_ret].
  apply find_token_from_range in E.
  assert (1 ≤ i < len) by ( destruct items; cbn in *; lia).
  apply within_bind; [|intros _; apply within_ret].
  destruct mark; [by apply within_mark_used|apply within_ret].
Qed.

Lemma within_parse_primitive fi : within len (_parse_primitive_field fi cur).
Proof.
  unfold _parse_primitive_field. cbv zeta.
  pose proof (within_scalar_parser fi). pose proof within_find_token.
  repeat within_step.
Qed.

Lemma within_collect_known dec fi token l idx result :
  1 ≤ idx → idx + length l ≤ len →
  within len (collect_known dec fi cur token idx l result).
Proof.
  revert idx result. induction l as [|item l IH]; intros idx result H1 Hn;
    cbn [collect_known]; [apply within_ret|].
  cbn [length] in Hn.
  assert (∀ result', within len (collect_known dec fi cur token (S idx) l result')) as Hrest
    by (intros; apply IH; lia).
  assert (within len (mark_used idx)) by (apply within_mark_used; lia).
  unfold decode_element. repeat within_step.
Qed.

Lemma within_collect_unknown dec fi l idx result :
  1 ≤ idx → idx + length l ≤ len →
  within len (collect_unknown dec fi cur idx l result).
Proof.
  revert idx result. induction l as [|item l IH]; intros idx result H1 Hn;
    cbn [collect_unknown]; [apply within_ret|].
  cbn [length] in Hn.
  assert (∀ result', within len (collect_unknown dec fi cur (S idx) l result')) as Hrest
    by (intros; apply IH; lia).
  assert (within len (mark_used idx)) by (apply within_mark_used; lia).
  unfold decode_element. repeat within_step.
Qed.

Lemma within_parse_field dec fi : within len (_parse_field dec fi cur).
Proof.
  assert (tail items = [] ∨ 1 + length (tail items) ≤ len) as Htail.
  { destruct items; cbn; [by left|right; lia]. }
  unfold _parse_field. destruct (is_list fi); [|destruct (field_type fi)].
  - unfold _parse_list_field. destruct (can_self_parse fi); [|apply within_ret].
    destruct (token_truth _); apply within_bind_return, within_fmap.
    + destruct Htail as [->|?]; [apply within_ret|by apply within_collect_known].
    + destruct Htail as [->|?]; [apply within_ret|by apply within_collect_unknown].
  - apply within_parse_primitive.
  - unfold _parse_sexpr_base_field. pose proof within_find_token.
    destruct (token_truth _); [repeat within_step|].
    apply within_bind_return.
    destruct (items !! _) as [item|] eqn:E; [|repeat within_step].
    apply lookup_lt_Some in E.
    assert (within len (mark_used (position_index fi + 1)))
      by (apply within_mark_used; lia).
    repeat within_step.
Qed.

Lemma within_parse_fields dec fis pv : within len (parse_fields dec fis cur pv).
Proof.
  revert pv. induction fis as [|fi fis IH]; intros pv; cbn [parse_fields].
  - apply within_ret.
  - pose proof (within_parse_field dec fi). repeat within_step.
Qed.

(** X16.  Whatever the class and the term, a decode marks indices of elements
    after the head only: the head is never marked, nor an index past the
    end; what was marked before stays marked or not as it was. *)
Theorem marks_stay_in_range (env : Env) (cls : ClassDecl) (st : state) :
  used_indices (from_sexpr_cursor env cls cur st).2
  ⊆ used_indices st ∪ set_seq 1 (length items - 1).
Proof.
  assert (within len (from_sexpr_cursor env cls cur)) as H.
  { unfold from_sexpr_cursor, from_sexpr_at, head_token, construct.
    pose proof (within_parse_fields
      (dispatch (S (sexpr_depth (sexpr cur))) env) (_classify_fields env cls) ∅).
    assert (∀ kw, within len (init_fields (cd_fields cls) kw)) as Hinit.
    { intros kw. apply within_same. intros st0 r st1 E.
      by rewrite (init_fields_state _ _ _ _ _ E). }
    repeat (within_step || apply within_bind_return). }
  intros i Hi. destruct (from_sexpr_cursor env cls cur st) as [r st'] eqn:E.
  destruct (H _ _ _ E i Hi) as [?|?]; [by apply elem_of_union_l|].
  apply elem_of_union_r, elem_of_set_seq.  lia.
Qed.

End Marks.

(** ** Round trip of a record of scalars *)

Section FlatRoundTrip.
Context {py : PyBuiltins}.
Import KiCadObject.

(** The runtime lowers the text of the two bools to [true] and [false]. *)
Hypothesis lower_True : str_lower "True" = "true".
Hypothesis lower_False : str_lower "False" = "false".

(** A field declared [int], [float], [bool] or [str], holding a value of
    that type. *)
Definition holds (f : DataclassField) (a : atom) : Prop :=
  hint_list (df_type f) = false ∧ is_private (df_name f) = false
  ∧ match hint_type (df_type f), a with
    | TInt, AInt _ | TFloat, AFloat _ | TBool, ABool _ | TStr, AStr _ => True
    | _, _ => False
    end.

(** [cls(f1=a1, ..., fn=an)] *)
Definition instance_of (cls : ClassDecl) (atoms : list atom) : value :=
  VObject (cd_name cls) (zip (df_name <$> cd_fields cls) (VAtom <$> atoms)).

Lemma holds_classify env position f a :
  holds f a →
  let fi := _classify_field env position f in
  name fi = df_name f ∧ field_type fi = PRIMITIVE ∧ is_list fi = false
  ∧ token_name fi = None ∧ position_index fi = position
  ∧ inner_type fi = hint_type (df_type f).
Proof.
  intros (Hl & _ & Ht). unfold _classify_field. rewrite Hl.
  destruct (hint_type (df_type f)), a; try done; cbn; done.
Qed.

Lemma holds_bound env position f a items :
  holds f a → items !! (position + 1) = Some (Atom a) →
  scalar_bound items (_classify_field env position f) (VAtom a).
Proof using lower_True lower_False.
  intros H Hi. destruct (holds_classify env position f a H) as (_ & _ & _ & _ & Hp & Hty).
  destruct H as (_ & _ & Ht). rewrite <-Hp in Hi.
  destruct (hint_type (df_type f)) eqn:E, a; try done.
  - by eapply (bound_int _ _ (AInt n) n).
  - by eapply (bound_float _ _ (AFloat x) x).
  - replace b with (py_bool_text (Atom (ABool b))).
    + by eapply (bound_bool _ _ (ABool b)).
    + unfold py_bool_text. cbn [py_str str_atom].
      destruct b; [rewrite lower_True|rewrite lower_False]; reflexivity.
  - by eapply (bound_str _ _ (AStr s)).
Qed.

(** [parsed_values] after the loop has bound the pairs of [l] in order. *)
Definition bind_all (pv : gmap string value) (l : list (string * value))
    : gmap string value :=
  foldl (λ m p, <[p.1 := p.2]> m) pv l.

Lemma bind_all_other pv l n : n ∉ l.*1 → bind_all pv l !! n = pv !! n.
Proof.
  revert pv. induction l as [|[k w] l IH]; intros pv Hn; [done|].
  cbn in Hn. apply not_elem_of_cons in Hn as [Hne Hn].
  cbn [bind_all foldl]. fold (bind_all (<[k:=w]> pv) l).
  rewrite IH by done. by rewrite lookup_insert_ne.
Qed.

Lemma bind_all_lookup pv l n v :
  NoDup l.*1 → (n, v) ∈ l → bind_all pv l !! n = Some v.
Proof.
  revert pv. induction l as [|[k w] l IH]; intros pv Hnd Hin.
  - by apply elem_of_nil in Hin.
  - cbn in Hnd. apply NoDup_cons in Hnd as [Hfresh Hnd].
    cbn [bind_all foldl]. fold (bind_all (<[k:=w]> pv) l).
    apply elem_of_cons in Hin as [[= -> ->]|Hin]; [|by apply IH].
    rewrite bind_all_other by done. by rewrite lookup_insert_eq.
Qed.

(** The loop over the fields on the encoded atoms: every field is bound to
    its atom, nothing is logged. *)
Lemma parse_fields_flat env dec c head (done_ : list SExpr) fs atoms pv st :
  Forall2 holds fs atoms →
  sexpr c = SList (head :: done_ ++ (Atom <$> atoms)) →
  ∃ used,
    parse_fields dec (classify_from env (length done_) fs) c pv st
    = (Return (bind_all pv (zip (df_name <$> fs) (VAtom <$> atoms))),
       State used (warnings st)).
Proof using lower_True lower_False.
  intros H. revert done_ pv st.
  induction H as [|f a fs atoms Hf _ IH]; intros done_ pv st Hc.
  - exists (used_indices st). cbn. unfold ret. by rewrite state_eta.
  - pose proof (holds_classify env (length done_) f a Hf) as (Hn & Hty & Hl & Ht & Hp & _).
    cbn [classify_from]. pose proof Hf as (Hlist & Hpriv & Hval). rewrite Hpriv.
    unfold takes_position. rewrite Hty.
    change (bool_decide (PRIMITIVE = SEXPR_BASE)) with false. cbn [andb negb].
    cbn [parse_fields]. rewrite bind_run.
    rewrite parse_field_primitive by done.
    erewrite (scalar_bound_at_field c _ _ (VAtom a)); [|exact Hc|by rewrite Ht|].
    2:{ apply holds_bound; [exact Hf|].
        rewrite Nat.add_1_r.
        change ((done_ ++ (Atom <$> a :: atoms)) !! length done_ = Some (Atom a)).
        rewrite lookup_app_r by lia. by rewrite Nat.sub_diag. }
    assert (value_is_none (VAtom a) = false) as ->.
    { destruct (hint_type (df_type f)), a; done. }
    rewrite Hn.
    destruct (IH (done_ ++ [Atom a]) (<[df_name f := VAtom a]> pv)
                (State ({[position_index (_classify_field env (length done_) f) + 1]}
                          ∪ used_indices st) (warnings st))) as [used Hu].
    { rewrite Hc. by rewrite <-app_assoc. }
    rewrite length_app, Nat.add_1_r in Hu. cbn [length] in Hu.
    exists used. exact Hu.
Qed.

Lemma classify_from_flat_names env position fs atoms :
  Forall2 holds fs atoms →
  name <$> classify_from env position fs = df_name <$> fs.
Proof.
  intros H. revert position. induction H as [|f a fs atoms Hf _ IH]; intros position; [done|].
  cbn [classify_from]. destruct Hf as (_ & -> & _).
  cbn [fmap list_fmap]. fold (@fmap list _ _ _ name). fold (@fmap list _ _ _ df_name).
  by rewrite classify_field_name, IH.
Qed.

Lemma init_fields_bound fs (vs : list value) kw st :
  length fs = length vs →
  (∀ f v, (f, v) ∈ zip fs vs → kw !! df_name f = Some v) →
  init_fields fs kw st = (Return (zip (df_name <$> fs) vs), st).
Proof.
  revert vs. induction fs as [|f fs IH]; intros [|v vs] Hlen Hkw; try done.
  cbn [init_fields]. rewrite (Hkw f v) by left. unfold_monad.
  rewrite (IH vs); [done|by simplify_eq/=|].
  intros f' v' Hin. apply Hkw. by right.
Qed.

Lemma assoc_skip {A} (k : string) (v : A) (l : list (string * A)) (ns : list string)
    (d : A) :
  k ∉ ns →
  map (λ n, default d (assoc n ((k, v) :: l))) ns = map (λ n, default d (assoc n l)) ns.
Proof.
  induction ns as [|n ns IH]; intros Hk; [done|].
  apply not_elem_of_cons in Hk as [Hne Hk]. cbn [map assoc].
  destruct (String.eqb_spec k n) as [->|_]; [done|]. by rewrite <-IH.
Qed.

Lemma assoc_all {A} (l : list (string * list A)) :
  NoDup l.*1 → map (λ n, default [] (assoc n l)) l.*1 = l.*2.
Proof.
  induction l as [|[k v] l IH]; intros Hnd; [done|].
  cbn in Hnd. apply NoDup_cons in Hnd as [Hfresh Hnd].
  change (default [] (assoc k ((k, v) :: l))
          :: map (λ n, default [] (assoc n ((k, v) :: l))) l.*1 = v :: l.*2).
  rewrite assoc_skip by done. cbn [assoc]. rewrite String.eqb_refl.
  by rewrite IH.
Qed.

Lemma zip_fst_flat {B} fs (atoms : list atom) (g : atom → B) :
  Forall2 holds fs atoms →
  (zip (df_name <$> fs) (g <$> atoms)).*1 = df_name <$> fs
  ∧ (zip (df_name <$> fs) (g <$> atoms)).*2 = g <$> atoms.
Proof.
  intros H. induction H as [|f a fs atoms Hf _ [IH1 IH2]]; [done|].
  cbn. by rewrite IH1, IH2.
Qed.

(** Encode emits the token, then the fields in declaration order. *)
Lemma to_sexpr_flat env cls atoms :
  lookup_class env (cd_name cls) = Some cls →
  NoDup (df_name <$> cd_fields cls) →
  Forall2 holds (cd_fields cls) atoms →
  to_sexpr env (instance_of cls atoms)
  = SList (Atom (AStr (cd_token_name cls)) :: (Atom <$> atoms)).
Proof.
  intros Hcls Hnd H. unfold instance_of. cbn [to_sexpr]. rewrite Hcls.
  f_equal. f_equal.
  match goal with
  | |- context [assoc _ (?g ?l)] =>
      assert (g l = zip (df_name <$> cd_fields cls) ((λ a, [Atom a]) <$> atoms)) as ->
  end.
  { clear Hcls Hnd. revert H. generalize (cd_fields cls). intros fs H.
    induction H as [|f a fs atoms Hf _ IH]; [done|].
    cbn [fmap list_fmap zip zip_with]. rewrite <-IH.
    destruct Hf as (_ & _ & Hv). by destruct (hint_type (df_type f)), a. }
  pose proof (zip_fst_flat _ _ (λ a, [Atom a]) H) as [H1 H2].
  set (L := zip _ _) in *.
  rewrite <-(map_map name (λ n, default [] (assoc n L))).
  change (map name) with (@fmap list _ _ _ name).
  unfold _classify_fields. rewrite (classify_from_flat_names env 0 _ _ H).
  rewrite <-H1. rewrite assoc_all by (by rewrite H1). rewrite H2.
  clear. induction atoms as [|a atoms IH]; [done|]. cbn. by rewrite <-IH.
Qed.

(** The decode of an encoded record of scalars, at any cursor. *)
Lemma from_sexpr_at_flat dec env cls c atoms st :
  cd_token_name cls ≠ "" →
  NoDup (df_name <$> cd_fields cls) →
  Forall2 holds (cd_fields cls) atoms →
  sexpr c = SList (Atom (AStr (cd_token_name cls)) :: (Atom <$> atoms)) →
  ∃ used, from_sexpr_at dec env cls c st
          = (Return (instance_of cls atoms), State used (warnings st)).
Proof using lower_True lower_False.
  intros Htoken Hnd H Hc. unfold from_sexpr_at.
  rewrite (bind_return _ _ _ _ _ (head_token_list c _ _ _ Hc)).
  rewrite bool_decide_true by left.
  destruct (parse_fields_flat env dec c
              (Atom (AStr (cd_token_name cls))) [] (cd_fields cls) atoms ∅ st H Hc)
    as [used Hp].
  unfold _classify_fields. cbn [length] in Hp.
  rewrite (bind_return _ _ _ _ _ Hp).
  exists used. unfold construct.
  erewrite bind_return.
  2:{ apply (init_fields_bound _ (VAtom <$> atoms)).
      - rewrite length_fmap. by eapply Forall2_length.
      - intros f v Hin. apply bind_all_lookup.
        + by rewrite (proj1 (zip_fst_flat _ _ VAtom H)).
        + clear -Hin. revert Hin. generalize (VAtom <$> atoms). generalize (cd_fields cls).
          intros fs. induction fs as [|f' fs IH]; intros [|v' vs] Hin;
            try by apply elem_of_nil in Hin.
          cbn in Hin |- *.
          apply elem_of_cons in Hin as [[= -> ->]|Hin]; [left|right; eauto]. }
  by destruct (String.eqb_spec (cd_token_name cls) "").
Qed.

(** X17.  A record whose fields are all [int], [float], [bool] or [str] scalars
    goes through encode and decode unchanged, under every strictness, and the
    decode logs nothing. *)
Theorem flat_record_round_trip (env : Env) (cls : ClassDecl) (atoms : list atom)
    (s : ParseStrictness) (st : state) :
  lookup_class env (cd_name cls) = Some cls →
  cd_token_name cls ≠ "" →
  NoDup (df_name <$> cd_fields cls) →
  Forall2 holds (cd_fields cls) atoms →
  ∃ items, to_sexpr env (instance_of cls atoms) = SList items
           ∧ from_sexpr env cls items s st = (Return (instance_of cls atoms), st).
Proof using lower_True lower_False.
  intros Hcls Htoken Hnd H. eexists. split; [by apply to_sexpr_flat|].
  unfold from_sexpr, from_sexpr_cursor, nested.
  set (c := Cursor _ _ _).
  destruct (from_sexpr_at_flat (dispatch (S (sexpr_depth (sexpr c))) env) env cls c atoms
              (State ∅ (warnings st)) Htoken Hnd H eq_refl) as [used Hr].
  rewrite Hr. by destruct st.
Qed.

End FlatRoundTrip.

(** ** A record of scalars in print, and in a list *)

Section FlatPrint.
Context {py : PyBuiltins}.
Import KiCadObject.

Lemma nested_lists_atoms (atoms : list atom) : nested_lists (Atom <$> atoms) = [].
Proof.
  induction atoms as [|a atoms IH]; [reflexivity|].
  cbn [fmap list_fmap]. unfold nested_lists. by rewrite filter_cons_False.
Qed.

(** X21.  A record of scalars prints on one line when it has at most three
    fields; with more, the closing parenthesis goes on a line of its own. *)
Theorem flat_record_in_print (env : Env) (cls : ClassDecl) (atoms : list atom) (k : nat) :
  lookup_class env (cd_name cls) = Some cls →
  NoDup (df_name <$> cd_fields cls) →
  Forall2 holds (cd_fields cls) atoms →
  to_sexpr_str env (instance_of cls atoms) k
  = tabs k +:+ "(" +:+
    join " " (cd_token_name cls :: primitive_values (cd_token_name cls) (Atom <$> atoms))
    +:+ (if bool_decide (length atoms ≤ 3) then ")" else newline +:+ tabs k +:+ ")").
Proof.
  intros Hcls Hnd H. unfold to_sexpr_str. rewrite to_sexpr_flat by done.
  rewrite format_list_unfold, first_line, nested_lists_atoms. cbn [py_str str_atom].
  rewrite (bool_decide_true ([] = [])) by done. cbn [andb length map app].
  rewrite length_fmap.
  destruct atoms as [|a atoms]; [reflexivity|]. cbn [fmap list_fmap length].
  destruct (decide (S (length atoms) ≤ 3)) as [Hle|Hgt].
  - rewrite !bool_decide_true by lia. reflexivity.
  - rewrite !bool_decide_false by lia. cbn [join]. by rewrite !string_app_assoc.
Qed.

End FlatPrint.

Section ListOfRecords.
Context {py : PyBuiltins}.
Import KiCadObject.

Hypothesis lower_True : str_lower "True" = "true".
Hypothesis lower_False : str_lower "False" = "false".

Variables (env : Env) (K T : ClassDecl) (f : DataclassField).

Hypothesis K_in_scope : lookup_class env (cd_name K) = Some K.
Hypothesis T_in_scope : lookup_class env (cd_name T) = Some T.
Hypothesis K_token : cd_token_name K ≠ "".
Hypothesis T_token : cd_token_name T ≠ "".
Hypothesis K_fields : cd_fields K = [f].
Hypothesis f_public : is_private (df_name f) = false.
Hypothesis f_list : hint_list (df_type f) = true.
Hypothesis f_type : hint_type (df_type f) = TKiCadObject (cd_name T).
Hypothesis T_names : NoDup (df_name <$> cd_fields T).

(** [K(f=[T(...), ..., T(...)])] *)
Definition container_of (elems : list (list atom)) : value :=
  VObject (cd_name K) [(df_name f, VList (instance_of T <$> elems))].

Definition encoded_record (atoms : list atom) : SExpr :=
  SList (Atom (AStr (cd_token_name T)) :: (Atom <$> atoms)).

#[local] Abbreviation fi := (_classify_field env 0 f).

Lemma container_field :
  _classify_fields env K
  = [Build_FieldInfo (df_name f) SEXPR_BASE (TKiCadObject (cd_name T)) false true
       (Some (cd_token_name T)) 0].
Proof using K_fields f_public f_list f_type T_in_scope.
  unfold _classify_fields. rewrite K_fields. cbn [classify_from]. rewrite f_public.
  unfold _classify_field. rewrite f_list, f_type. cbn. by rewrite T_in_scope.
Qed.

Lemma to_sexpr_container elems :
  Forall (Forall2 holds (cd_fields T)) elems →
  to_sexpr env (container_of elems)
  = SList (Atom (AStr (cd_token_name K)) :: (encoded_record <$> elems)).
Proof using K_in_scope K_fields f_public f_list f_type T_in_scope T_names.
  intros H. unfold container_of. cbn [to_sexpr]. rewrite K_in_scope, container_field.
  cbn [map name assoc concat]. rewrite String.eqb_refl. cbn [default].
  rewrite app_nil_r. f_equal. f_equal. unfold id.
  induction H as [|atoms elems Ha _ IH]; [reflexivity|].
  cbn [fmap list_fmap map]. rewrite IH. f_equal.
  exact (to_sexpr_flat env T atoms T_in_scope T_names Ha).
Qed.

Lemma collect_known_records dec dec' c elems idx result st :
  (∀ item c', dec (TKiCadObject (cd_name T)) item c'
              = from_sexpr_at dec' env T c') →
  Forall (Forall2 holds (cd_fields T)) elems →
  ∃ used,
    collect_known dec
      (Build_FieldInfo (df_name f) SEXPR_BASE (TKiCadObject (cd_name T)) false true
         (Some (cd_token_name T)) 0)
      c (cd_token_name T) idx (encoded_record <$> elems) result st
    = (Return (result ++ (instance_of T <$> elems)), State used (warnings st)).
Proof using lower_True lower_False T_token T_names.
  intros Hdec H. revert idx result st.
  induction H as [|atoms elems Ha _ IH]; intros idx result st.
  - exists (used_indices st). cbn. unfold ret. by rewrite app_nil_r, state_eta.
  - cbn [fmap list_fmap]. unfold encoded_record at 1.
    rewrite collect_known_step by reflexivity.
    unfold decode_element, nested. cbn [inner_type]. rewrite Hdec.
    edestruct (from_sexpr_at_flat lower_True lower_False dec' env T) as [used Hr]; [done..| |].
    2:{ rewrite Hr. cbn [value_is_none instance_of].
        destruct (IH (S idx) (result ++ [instance_of T atoms])
                    (State ({[idx]} ∪ used_indices st) (warnings st))) as [used' Hu].
        exists used'. cbn [warnings] in *. rewrite <-app_assoc in Hu. exact Hu. }
    reflexivity.
Qed.

Lemma parse_container_field dec dec' c head elems st :
  (∀ item c', dec (TKiCadObject (cd_name T)) item c' = from_sexpr_at dec' env T c') →
  Forall (Forall2 holds (cd_fields T)) elems →
  sexpr c = SList (head :: (encoded_record <$> elems)) →
  ∃ used,
    _parse_field dec
      (Build_FieldInfo (df_name f) SEXPR_BASE (TKiCadObject (cd_name T)) false true
         (Some (cd_token_name T)) 0) c st
    = (Return (VList (instance_of T <$> elems)), State used (warnings st)).
Proof using lower_True lower_False T_token T_names.
  intros Hdec H Hc. unfold _parse_field, _parse_list_field.
  cbn [is_list token_name token_truth].
  change (can_self_parse _) with true. cbv iota.
  destruct (String.eqb_spec (cd_token_name T) "") as [?|_]; [done|].
  rewrite (bind_return _ _ _ _ _ (items_of_list c _ "slice" st Hc)).
  cbn [tail]. rewrite fmap_run.
  destruct (collect_known_records dec dec' c elems 1 [] st Hdec H) as [used Hu].
  rewrite Hu. by exists used.
Qed.

(** X22.  A record whose one field is a list of records of scalars goes
    through encode and decode unchanged, element by element and in order, under every
    strictness; the decode logs nothing. *)
Theorem list_of_records_round_trip (elems : list (list atom)) (s : ParseStrictness)
    (st : state) :
  Forall (Forall2 holds (cd_fields T)) elems →
  ∃ items, to_sexpr env (container_of elems) = SList items
           ∧ from_sexpr env K items s st = (Return (container_of elems), st).
Proof using All.
  intros H. eexists. split; [by apply to_sexpr_container|].
  unfold from_sexpr, from_sexpr_cursor, nested.
  set (c := Cursor _ _ _). unfold from_sexpr_at.
  rewrite (bind_return _ _ _ _ _ (head_token_list c _ _ _ eq_refl)).
  rewrite bool_decide_true by left. rewrite container_field.
  cbn [parse_fields]. rewrite !bind_run.
  edestruct (parse_container_field (dispatch (S (sexpr_depth (sexpr c))) env)
               (dispatch (sexpr_depth (sexpr c)) env) c)
    as [used Hu]; [|exact H|reflexivity|].
  { intros item c'. cbn [dispatch]. by rewrite T_in_scope. }
  rewrite Hu. cbn [value_is_none name]. unfold ret at 1. unfold construct.
  rewrite bind_run, K_fields. cbn [init_fields]. rewrite lookup_insert_eq.
  unfold_monad. cbn [warnings used_indices].
  destruct (String.eqb_spec (cd_token_name K) "") as [?|_]; [done|].
  unfold container_of. by destruct st.
Qed.

End ListOfRecords.

(** ** [Failsafe] against [Silent] *)

(** Two runs that do the same to the same marks, whatever the logs. *)
Definition quiet {A} (m1 m2 : M A) : Prop :=
  ∀ st1 st2, used_indices st1 = used_indices st2 →
    (m1 st1).1 = (m2 st2).1 ∧ used_indices (m1 st1).2 = used_indices (m2 st2).2.

Section QuietFacts.
Context {py : PyBuiltins}.

Lemma quiet_ret {A} (a : A) : quiet (ret a) (ret a).
Proof. by intros st1 st2 H. Qed.

Lemma quiet_lift {A} (o : outcome A) : quiet (lift o) (lift o).
Proof. by intros st1 st2 H. Qed.

Lemma quiet_raise {A} c msg : quiet (@raise A c msg) (raise c msg).
Proof. by intros st1 st2 H. Qed.

Lemma quiet_mark_used idx : quiet (mark_used idx) (mark_used idx).
Proof. intros st1 st2 H. cbn. by rewrite H. Qed.

Lemma quiet_get_used : quiet get_used_indices get_used_indices.
Proof. intros st1 st2 H. cbn. by rewrite H. Qed.

Lemma quiet_bind {A B} (m1 m2 : M A) (k1 k2 : A → M B) :
  quiet m1 m2 → (∀ a, quiet (k1 a) (k2 a)) → quiet (m1 ≫= k1) (m2 ≫= k2).
Proof.
  intros Hm Hk st1 st2 H. rewrite !bind_run.
  destruct (Hm st1 st2 H) as [Hr Hu].
  destruct (m1 st1) as [[a|e] st1'], (m2 st2) as [[a'|e'] st2']; cbn in *; simplify_eq;
    [by apply Hk|done].
Qed.

Lemma quiet_fmap {A B} (f : A → B) (m1 m2 : M A) :
  quiet m1 m2 → quiet (f <$> m1) (f <$> m2).
Proof. intros Hm. apply quiet_bind; [done|]. intros a. apply quiet_ret. Qed.

Lemma quiet_try_except {A} (body1 body2 : M A) (handler1 handler2 : exn → M A) :
  quiet body1 body2 → (∀ e, quiet (handler1 e) (handler2 e)) →
  quiet (try_except body1 handler1) (try_except body2 handler2).
Proof.
  intros Hb Hh st1 st2 H. unfold try_except.
  destruct (Hb st1 st2 H) as [Hr Hu].
  destruct (body1 st1) as [[a|e] st1'], (body2 st2) as [[a'|e'] st2']; cbn in *;
    simplify_eq; [done|].
  destruct (caught e'); [by apply Hh|done].
Qed.

Lemma quiet_nested {A} (m1 m2 : M A) : quiet m1 m2 → quiet (nested m1) (nested m2).
Proof.
  intros Hm st1 st2 H. unfold nested.
  destruct (Hm (State ∅ (warnings st1)) (State ∅ (warnings st2)) eq_refl) as [Hr Hu].
  by destruct (m1 _) as [r1 st1'], (m2 _) as [r2 st2'].
Qed.

(** The policy of the two levels: one logs, the other does not. *)
Lemma quiet_log_issue sx p msg :
  quiet (log_issue (Cursor sx p FAILSAFE) msg) (log_issue (Cursor sx p SILENT) msg).
Proof. by intros st1 st2 H. Qed.

End QuietFacts.

Create HintDb quiet.
#[local] Hint Resolve quiet_ret quiet_lift quiet_raise quiet_mark_used quiet_get_used
  quiet_log_issue : quiet.

Ltac quiet_step :=
  match goal with
  | |- quiet (_ ≫= _) (_ ≫= _) => apply quiet_bind; [|intros ?]
  | |- quiet (_ <$> _) (_ <$> _) => apply quiet_fmap
  | |- quiet (try_except _ _) (try_except _ _) => apply quiet_try_except; [|intros ?]
  | |- quiet (nested _) (nested _) => apply quiet_nested
  | |- quiet (if ?b then _ else _) (if ?b then _ else _) => destruct b
  | |- quiet (match ?x with _ => _ end) (match ?x with _ => _ end) => destruct x
  | |- _ => solve [eauto with quiet]
  end.

Section Quiet.
Context {py : PyBuiltins}.
Import KiCadObject.

Definition dec_quiet (dec1 dec2 : decoder) : Prop :=
  ∀ t sx item p,
    quiet (dec1 t item (Cursor sx p FAILSAFE)) (dec2 t item (Cursor sx p SILENT)).

Section Fields.
Variables (sx : SExpr) (p : list string).

#[local] Abbreviation loud := (Cursor sx p FAILSAFE).
#[local] Abbreviation mute := (Cursor sx p SILENT).

Lemma quiet_items_of op : quiet (items_of loud op) (items_of mute op).
Proof. apply quiet_lift. Qed.

Lemma quiet_get_value index fn tn required :
  quiet (_get_value_at_index loud index fn tn required)
        (_get_value_at_index mute index fn tn required).
Proof.
  unfold _get_value_at_index. pose proof quiet_items_of.
  cbn [get_path_str path]. repeat quiet_step.
Qed.

Lemma quiet_scalar_parser fi : quiet (scalar_parser loud fi) (scalar_parser mute fi).
Proof.
  pose proof quiet_get_value as Hg.
  unfold scalar_parser.
  destruct (inner_type fi);
    unfold parse_int, parse_float, parse_bool, parse_str, parse_enum;
    cbn [get_path_str path]; repeat quiet_step.
Qed.

Lemma quiet_find_token token mark :
  quiet (find_token loud token mark) (find_token mute token mark).
Proof. unfold find_token. pose proof quiet_items_of. repeat quiet_step. Qed.

Lemma quiet_parse_primitive fi :
  quiet (_parse_primitive_field fi loud) (_parse_primitive_field fi mute).
Proof.
  unfold _parse_primitive_field. cbv zeta.
  pose proof (quiet_scalar_parser fi). pose proof quiet_find_token.
  cbn [get_path_str path]. repeat quiet_step.
Qed.

Lemma quiet_collect_known dec1 dec2 fi token items idx result :
  dec_quiet dec1 dec2 →
  quiet (collect_known dec1 fi loud token idx items result)
        (collect_known dec2 fi mute token idx items result).
Proof.
  intros Hd. revert idx result.
  induction items as [|item rest IH]; intros idx result; cbn [collect_known].
  - apply quiet_ret.
  - unfold decode_element. cbn [enter path strictness]. repeat quiet_step.
Qed.

Lemma quiet_collect_unknown dec1 dec2 fi items idx result :
  dec_quiet dec1 dec2 →
  quiet (collect_unknown dec1 fi loud idx items result)
        (collect_unknown dec2 fi mute idx items result).
Proof.
  intros Hd. revert idx result.
  induction items as [|item rest IH]; intros idx result; cbn [collect_unknown].
  - apply quiet_ret.
  - unfold decode_element. cbn [enter path strictness]. repeat quiet_step.
Qed.

Lemma quiet_parse_field dec1 dec2 fi :
  dec_quiet dec1 dec2 → quiet (_parse_field dec1 fi loud) (_parse_field dec2 fi mute).
Proof.
  intros Hd. unfold _parse_field, _parse_list_field, _parse_sexpr_base_field.
  pose proof quiet_items_of. pose proof quiet_find_token.
  pose proof (quiet_collect_known dec1 dec2 fi).
  pose proof (quiet_collect_unknown dec1 dec2 fi).
  pose proof (quiet_parse_primitive fi).
  cbn [get_path_str path enter strictness]. repeat quiet_step.
Qed.

Lemma quiet_parse_fields dec1 dec2 fis pv :
  dec_quiet dec1 dec2 →
  quiet (parse_fields dec1 fis loud pv) (parse_fields dec2 fis mute pv).
Proof.
  intros Hd. revert pv. induction fis as [|fi fis IH]; intros pv; cbn [parse_fields].
  - apply quiet_ret.
  - pose proof (quiet_parse_field dec1 dec2 fi Hd). repeat quiet_step.
Qed.

Lemma quiet_init_fields fs kw : quiet (init_fields fs kw) (init_fields fs kw).
Proof. induction fs as [|f fs IH]; cbn [init_fields]; repeat quiet_step. Qed.

Lemma quiet_from_sexpr_at dec1 dec2 env cls :
  dec_quiet dec1 dec2 →
  quiet (from_sexpr_at dec1 env cls loud) (from_sexpr_at dec2 env cls mute).
Proof.
  intros Hd. unfold from_sexpr_at, head_token, construct.
  pose proof quiet_items_of.
  pose proof (quiet_parse_fields dec1 dec2 (_classify_fields env cls) ∅ Hd).
  pose proof (quiet_init_fields (cd_fields cls)).
  cbn [get_path_str path sexpr]. repeat quiet_step.
Qed.

End Fields.

Lemma dispatch_quiet depth env : dec_quiet (dispatch depth env) (dispatch depth env).
Proof.
  induction depth as [|depth IH]; intros t sx item p; destruct t; cbn [dispatch];
    unfold KiCadPrimitive.from_sexpr, OptionalFlag.from_sexpr,
      OptionalSimpleFlag.from_sexpr; repeat quiet_step.
  by apply quiet_from_sexpr_at.
Qed.

(** X18.  [Failsafe] and [Silent] differ in what they log and in nothing else:
    on every class and every term the two decodes end alike, with the same
    instance or the same exception, and [Silent] leaves the log as it was. *)
Theorem failsafe_is_silent_with_a_log (env : Env) (cls : ClassDecl) (term : list SExpr)
    (st : state) :
  (from_sexpr env cls term FAILSAFE st).1 = (from_sexpr env cls term SILENT st).1
  ∧ warnings (from_sexpr env cls term SILENT st).2 = warnings st.
Proof.
  split.
  - unfold from_sexpr.
    apply (quiet_nested _ _
             (quiet_from_sexpr_at _ _ _ _ env cls (dispatch_quiet _ env)) st st eq_refl).
  - pose proof (from_sexpr_tracks SILENT env cls term st) as H.
    destruct (from_sexpr env cls term SILENT st) as [r st'].
    symmetry. exact (H r st' eq_refl).
Qed.

End Quiet.

(** ** [Strict] against the other levels *)

(** Where [m1] returns, [m2] returns the same and leaves the same state. *)
Definition follows {A} (m1 m2 : M A) : Prop :=
  ∀ st a st', m1 st = (Return a, st') → m2 st = (Return a, st').

Section FollowsFacts.
Context {py : PyBuiltins}.

Lemma follows_refl {A} (m : M A) : follows m m.
Proof. by intros st a st' H. Qed.

Lemma follows_bind {A B} (m1 m2 : M A) (k1 k2 : A → M B) :
  follows m1 m2 → (∀ a, follows (k1 a) (k2 a)) → follows (m1 ≫= k1) (m2 ≫= k2).
Proof.
  intros Hm Hk st b st' H. rewrite bind_run in *.
  destruct (m1 st) as [[a|e] st1] eqn:E; [|done].
  rewrite (Hm _ _ _ E). by apply Hk.
Qed.

Lemma follows_fmap {A B} (f : A → B) (m1 m2 : M A) :
  follows m1 m2 → follows (f <$> m1) (f <$> m2).
Proof. intros Hm. apply follows_bind; [done|]. intros a. apply follows_refl. Qed.

Lemma follows_nested {A} (m1 m2 : M A) : follows m1 m2 → follows (nested m1) (nested m2).
Proof.
  intros Hm st a st' H. unfold nested in *.
  destruct (m1 _) as [[a1|e] st1] eqn:E; simplify_eq.
  by rewrite (Hm _ _ _ E).
Qed.

(** Under a handler the body has to do the same on both sides: what it
    raises is caught. *)
Lemma follows_try_except {A} (body1 body2 : M A) (handler1 handler2 : exn → M A) :
  (∀ st, body1 st = body2 st) → (∀ e, follows (handler1 e) (handler2 e)) →
  follows (try_except body1 handler1) (try_except body2 handler2).
Proof.
  intros Hb Hh st a st' H. unfold try_except in *. rewrite <-Hb.
  destruct (body1 st) as [[a1|e] st1]; [done|].
  destruct (caught e); [by apply Hh|done].
Qed.

(** Under [Strict] the policy raises: there is nothing to follow. *)
Lemma follows_log_issue sx p msg (m : M ()) :
  follows (log_issue (Cursor sx p STRICT) msg) m.
Proof. by intros st a st' H. Qed.

Lemma follows_raise {A} c msg (m : M A) : follows (raise c msg) m.
Proof. by intros st a st' H. Qed.

End FollowsFacts.

Ltac follows_step :=
  match goal with
  | |- follows ?m ?m => apply follows_refl
  | |- follows (log_issue (Cursor _ _ STRICT) _) _ => apply follows_log_issue
  | |- follows (raise _ _) _ => apply follows_raise
  | |- follows (_ ≫= _) (_ ≫= _) => apply follows_bind; [|intros ?]
  | |- follows (_ <$> _) (_ <$> _) => apply follows_fmap
  | |- follows (try_except _ _) (try_except _ _) =>
      apply follows_try_except; [try reflexivity|intros ?]
  | |- follows (nested _) (nested _) => apply follows_nested
  | |- follows (if ?b then _ else _) (if ?b then _ else _) => destruct b
  | |- follows (match ?x with _ => _ end) (match ?x with _ => _ end) => destruct x
  | |- _ => solve [eauto]
  end.

Section Follows.
Context {py : PyBuiltins}.
Import KiCadObject.
Variable s' : ParseStrictness.

Definition dec_follows (dec : decoder) : Prop :=
  ∀ t item sx p, follows (dec t item (Cursor sx p STRICT)) (dec t item (Cursor sx p s')).

(** A decoder that does not look at the strictness on the type [t]. *)
Definition dec_level_free (dec : decoder) (t : pytype) : Prop :=
  ∀ item sx p st, dec t item (Cursor sx p STRICT) st = dec t item (Cursor sx p s') st.

Section Fields.
Variables (sx : SExpr) (p : list string).

#[local] Abbreviation strict := (Cursor sx p STRICT).
#[local] Abbreviation other := (Cursor sx p s').

Lemma follows_get_value index fn tn required :
  follows (_get_value_at_index strict index fn tn required)
          (_get_value_at_index other index fn tn required).
Proof.
  unfold _get_value_at_index. cbn [get_path_str path].
  change (items_of strict "len") with (items_of other "len").
  repeat follows_step.
Qed.

Lemma follows_scalar_parser fi : follows (scalar_parser strict fi) (scalar_parser other fi).
Proof.
  pose proof follows_get_value as Hg.
  unfold scalar_parser.
  destruct (inner_type fi);
    unfold parse_int, parse_float, parse_bool, parse_str, parse_enum;
    cbn [get_path_str path]; repeat follows_step.
Qed.

Lemma follows_parse_primitive fi :
  follows (_parse_primitive_field fi strict) (_parse_primitive_field fi other).
Proof.
  unfold _parse_primitive_field. cbv zeta.
  pose proof (follows_scalar_parser fi).
  cbn [get_path_str path].
  destruct (token_truth _) as [token|]; [|repeat follows_step].
  change (find_token strict token true) with (find_token other token true).
  repeat follows_step.
Qed.

Lemma follows_collect_known dec fi token items idx result :
  dec_follows dec →
  follows (collect_known dec fi strict token idx items result)
          (collect_known dec fi other token idx items result).
Proof.
  intros Hd. revert idx result.
  induction items as [|item rest IH]; intros idx result; cbn [collect_known].
  - apply follows_refl.
  - unfold decode_element. cbn [enter path strictness]. repeat follows_step.
Qed.

Lemma follows_collect_unknown dec fi items idx result :
  dec_level_free dec (inner_type fi) →
  follows (collect_unknown dec fi strict idx items result)
          (collect_unknown dec fi other idx items result).
Proof.
  intros Hd. revert idx result.
  induction items as [|item rest IH]; intros idx result; cbn [collect_unknown].
  - apply follows_refl.
  - assert (∀ st, decode_element dec fi strict item result st
                  = decode_element dec fi other item result st) as He.
    { intros st. unfold decode_element, nested, enter. cbn [path strictness].
      by rewrite Hd. }
    apply follows_bind; [apply follows_refl|]. intros used.
    destruct (_ && _); [|apply IH].
    apply follows_bind; [|intros ?; apply IH].
    apply follows_try_except; [|intros ?; apply follows_refl].
    intros st. rewrite !bind_run. by rewrite He.
Qed.

Lemma follows_parse_field dec fi :
  dec_follows dec →
  (token_truth (token_name fi) = None → dec_level_free dec (inner_type fi)) →
  follows (_parse_field dec fi strict) (_parse_field dec fi other).
Proof.
  intros Hd Hfree. unfold _parse_field.
  destruct (is_list fi); [|destruct (field_type fi)].
  - unfold _parse_list_field. destruct (can_self_parse fi); [|apply follows_refl].
    change (items_of strict "slice") with (items_of other "slice").
    destruct (token_truth _) as [token|].
    + pose proof (follows_collect_known dec fi token). repeat follows_step.
    + pose proof (follows_collect_unknown dec fi). repeat follows_step.
  - apply follows_parse_primitive.
  - unfold _parse_sexpr_base_field. cbn [get_path_str path enter strictness].
    destruct (token_truth _) as [token|].
    + change (find_token strict token true) with (find_token other token true).
      repeat follows_step.
    + change (items_of strict "len") with (items_of other "len").
      apply follows_bind; [apply follows_refl|]. intros items.
      destruct (items !! _) as [item|]; [|repeat follows_step].
      apply follows_try_except; [|intros ?; repeat follows_step].
      intros st. rewrite !bind_run. cbn [mark_used]. unfold nested, enter.
      cbn [path strictness]. by rewrite Hfree.
Qed.

Lemma follows_parse_fields dec fis pv :
  dec_follows dec →
  Forall (λ fi, token_truth (token_name fi) = None → dec_level_free dec (inner_type fi))
    fis →
  follows (parse_fields dec fis strict pv) (parse_fields dec fis other pv).
Proof.
  intros Hd Hfis. revert pv.
  induction Hfis as [|fi fis Hfi _ IH]; intros pv; cbn [parse_fields].
  - apply follows_refl.
  - pose proof (follows_parse_field dec fi Hd Hfi). repeat follows_step.
Qed.

End Fields.

Variable env : Env.

(** Every class in scope has a token of its own. *)
Hypothesis tokens : Forall (λ decl, cd_token_name decl ≠ "") (env_classes env).
#[local] Set Default Proof Using "All".

Lemma lookup_class_token name decl :
  lookup_class env name = Some decl → cd_token_name decl ≠ "".
Proof.
  unfold lookup_class. destruct (list_find _ _) as [[i d]|] eqn:E; [|done].
  intros [= <-]. apply list_find_Some in E as (Hi & _ & _).
  by eapply Forall_lookup_1 in tokens.
Qed.

Lemma dispatch_level_free depth t :
  (∀ cls, t = TKiCadObject cls → lookup_class env cls = None) →
  dec_level_free (dispatch depth env) t.
Proof.
  intros Ht item sx p st. destruct depth, t; try reflexivity;
    cbn [dispatch]; by rewrite (Ht _ eq_refl).
Qed.

Lemma classified_level_free depth position f :
  let fi := _classify_field env position f in
  token_truth (token_name fi) = None → dec_level_free (dispatch depth env) (inner_type fi).
Proof.
  intros fi Htoken. apply dispatch_level_free. intros cls Hcls.
  destruct (lookup_class env cls) as [decl|] eqn:E; [exfalso|done].
  pose proof (lookup_class_token _ _ E) as Hne.
  assert (inner_type fi = hint_type (df_type f)) as Hin.
  { unfold fi, _classify_field. by repeat case_match. }
  rewrite Hin in Hcls.
  assert (token_name fi = Some (cd_token_name decl)) as Ht.
  { unfold fi, _classify_field. rewrite Hcls. cbn. rewrite E.
    by destruct (hint_list _). }
  rewrite Ht in Htoken. cbn in Htoken.
  by destruct (String.eqb_spec (cd_token_name decl) "").
Qed.

Lemma classify_from_level_free depth position fs :
  Forall (λ fi, token_truth (token_name fi) = None →
                dec_level_free (dispatch depth env) (inner_type fi))
    (classify_from env position fs).
Proof.
  revert position. induction fs as [|f fs IH]; intros position; cbn [classify_from].
  - constructor.
  - destruct (is_private _); [apply IH|]. constructor; [|apply IH].
    apply classified_level_free.
Qed.

Lemma dispatch_follows depth : dec_follows (dispatch depth env).
Proof.
  induction depth as [|depth IH]; intros t item sx p; destruct t;
    try apply follows_refl.
  cbn [dispatch]. destruct (lookup_class env cls) as [decl|]; [|apply follows_refl].
  unfold from_sexpr_at.
  change (head_token (Cursor sx p STRICT)) with (head_token (Cursor sx p s')).
  cbn [get_path_str path].
  pose proof (follows_parse_fields sx p (dispatch depth env) (_classify_fields env decl) ∅
                IH (classify_from_level_free depth 0 _)).
  repeat follows_step.
Qed.

(** X19.  [Strict] is the reference: when a decode under [Strict] returns an
    instance, the decode of the same term under any other level returns the
    same instance and logs nothing. *)
Theorem strict_success_is_shared (cls : ClassDecl) (term : list SExpr) (st : state)
    (inst : value) (st' : state) :
  from_sexpr env cls term STRICT st = (Return inst, st') →
  from_sexpr env cls term s' st = (Return inst, st') ∧ warnings st' = warnings st.
Proof.
  intros H. split.
  - revert H. unfold from_sexpr. apply follows_nested.
    unfold from_sexpr_cursor, from_sexpr_at. cbn [sexpr].
    change (head_token (Cursor (SList term) [cd_name cls] STRICT))
      with (head_token (Cursor (SList term) [cd_name cls] s')).
    cbn [get_path_str path].
    pose proof (follows_parse_fields (SList term) [cd_name cls]
                  (dispatch (S (sexpr_depth (SList term))) env)
                  (_classify_fields env cls) ∅
                  (dispatch_follows _) (classify_from_level_free _ 0 _)).
    repeat follows_step.
  - pose proof (from_sexpr_tracks STRICT env cls term st _ _ H) as Ht. by symmetry.
Qed.

End Follows.


(** * The further properties on the declared records *)

Module Examples.
Import Schema KiCadObject Evaluation.
#[local] Existing Instance CPython.builtins.

(** [(net 5 "GND")] *)
Lemma flat_record_round_trip_witness :
  ∃ items, to_sexpr env (instance_of Net [AInt 5; AStr "GND"]) = SList items
           ∧ from_sexpr env Net items STRICT start
             = (Return (instance_of Net [AInt 5; AStr "GND"]), start).
Proof.
  apply (@flat_record_round_trip CPython.builtins).
  - reflexivity.
  - reflexivity.
  - reflexivity.
  - discriminate.
  - apply (bool_decide_unpack _). exact I.
  - repeat constructor.
Defined.

(** A number where a string is declared: its text is what is bound. *)
Lemma parse_str_witness :
  parse_str (Cursor (SList [sym "net"; int 5; int 7]) ["Net"] STRICT) 2 "name" true start
  = (Return (Atom (AStr "7")), State ({[2]} ∪ ∅) []).
Proof.
  apply (parse_str_total [sym "net"; int 5; int 7] ["Net"] STRICT 2 (AInt 7) "name" true
           start); [reflexivity|discriminate].
Defined.

(** [(model "x.step")]: the optional [at] is left out under [Strict]. *)
Lemma missing_token_witness :
  _parse_field (dispatch 2 env) at_info
    (Cursor (SList [sym "model"; str "x.step"]) ["Model"] STRICT) start
  = (Return VNone, start).
Proof.
  apply (missing_token_follows_strictness (dispatch 2 env) at_info
           [sym "model"; str "x.step"] ["Model"] STRICT "at" start);
    [reflexivity|reflexivity|reflexivity|].
  intros [|[|j]] item Hj Hi; [lia| |discriminate].
  injection Hi as <-. reflexivity.
Defined.

Lemma empty_term_witness :
  from_sexpr env Size [] SILENT start
  = (Raise (Exn ValueError (TokenMismatch "Size" "size" "empty")), start).
Proof.
  apply (empty_term_is_a_token_mismatch env Size SILENT start).
  apply (bool_decide_unpack _). exact I.
Defined.

(** [(net 1e999 "GND")] under [Silent]: the float read is infinite. *)
Lemma overflow_witness :
  (∀ dec st,
     _parse_field dec (_classify_field env 0 (field "number" (plain TInt) (DefaultValue (vint 0))))
       (Cursor (SList [sym "net"; num infinity; str "GND"]) ["Net"] SILENT) st
     = (Raise (Exn OverflowError (Runtime "int")),
        State ({[1]} ∪ used_indices st) (warnings st)))
  ∧ ∀ st, ∃ e st',
      from_sexpr env Net [sym "net"; num infinity; str "GND"] SILENT st = (Raise e, st').
Proof.
  apply (overflow_is_let_through env Net (sym "net") [num infinity; str "GND"] SILENT 0
           (field "number" (plain TInt) (DefaultValue (vint 0))) infinity);
    try reflexivity.
  apply list_elem_of_here.
Defined.

Lemma escape_quotes_witness : backslash = backslash.
Proof. apply (escape_quotes_inj backslash backslash). reflexivity. Defined.

(** [(embedded_files)]: no file, the empty list. *)
Lemma list_field_witness :
  ∃ l, getattr (VObject "EmbeddedFiles" [("files", VList [])]) "files" = Some (VList l).
Proof.
  apply (list_field_is_always_bound env EmbeddedFiles (sym "embedded_files") [] STRICT 0
           (field "files" (list_of (TKiCadObject "EmbeddedFile")) (DefaultFactory (VList [])))
           start (VObject "EmbeddedFiles" [("files", VList [])]) start).
  - apply (bool_decide_unpack _). exact I.
  - apply list_elem_of_here.
  - apply list_elem_of_here.
  - reflexivity.
  - reflexivity.
Defined.

(** The element at the index 1, used already, may be anything. *)
Lemma unknown_collection_witness :
  let c := Cursor (SList values_term) ["Values"] STRICT in
  collect_unknown (dispatch 2 env) items_info c 1
    [SList [sym "a"; int 1]; SList [sym "c"; int 3]] [] (State {[1]} [])
  = collect_unknown (dispatch 2 env) items_info c 1
      [SList [sym "z"; int 9]; SList [sym "c"; int 3]] [] (State {[1]} []).
Proof.
  cbv zeta.
  apply (unknown_collection_ignores_used (dispatch 2 env) items_info
           (Cursor (SList values_term) ["Values"] STRICT) 1
           [SList [sym "a"; int 1]; SList [sym "c"; int 3]]
           [SList [sym "z"; int 9]; SList [sym "c"; int 3]] [] (State {[1]} []));
    [reflexivity|].
  intros [|[|k]] x y Hx Hy Hk; [|cbn in Hx, Hy; congruence|discriminate].
  exfalso. apply Hk. cbn. by apply elem_of_singleton.
Defined.

(** The head as a str where the source of the term has a symbol. *)
Lemma head_only_gates_witness :
  from_sexpr env Size [sym "size"; num 10; num 20] STRICT start
  = from_sexpr env Size [str "size"; num 10; num 20] STRICT start.
Proof.
  apply (head_only_gates env Size (ASymbol "size") (AStr "size") [num 10; num 20] STRICT
           start); apply (bool_decide_unpack _); exact I.
Defined.

Lemma flat_record_in_print_witness :
  to_sexpr_str env (instance_of Net [AInt 5; AStr "GND"]) 0
  = "(net 5 " +:+ double_quote +:+ "GND" +:+ double_quote +:+ ")".
Proof.
  apply (flat_record_in_print env Net [AInt 5; AStr "GND"] 0).
  - reflexivity.
  - apply (bool_decide_unpack _). exact I.
  - repeat constructor.
Defined.

(** The field [nets: List[Net]] of [KicadPcb] in [board_layout.py], alone in
    a record of its own, under the token [net_list]: no record under the
    sources has a list of records of scalars for its only field. *)
Definition NetList : ClassDecl :=
  Build_ClassDecl "NetList" "net_list" []
    [ field "nets" (list_of (TKiCadObject "Net")) (DefaultFactory (VList [])) ].

Definition netlist : Env := Build_Env [Net; NetList] "" "".

(** [(net_list (net 0 "") (net 1 "GND"))] *)
Lemma list_of_records_witness :
  ∃ items,
    to_sexpr netlist
      (container_of NetList Net
         (field "nets" (list_of (TKiCadObject "Net")) (DefaultFactory (VList [])))
         [[AInt 0; AStr ""]; [AInt 1; AStr "GND"]])
    = SList items
    ∧ from_sexpr netlist NetList items STRICT start
      = (Return
           (container_of NetList Net
              (field "nets" (list_of (TKiCadObject "Net")) (DefaultFactory (VList [])))
              [[AInt 0; AStr ""]; [AInt 1; AStr "GND"]]),
         start).
Proof.
  apply (@list_of_records_round_trip CPython.builtins); try reflexivity.
  - discriminate.
  - discriminate.
  - apply (bool_decide_unpack _). exact I.
  - repeat constructor.
Defined.

(** A class list where every class has its token. *)
Definition sizes : Env := Build_Env [Size] "" "".

Lemma strict_success_witness :
  from_sexpr sizes Size [sym "size"; num 10; num 20] FAILSAFE start
  = (Return (size 10 20), start)
  ∧ warnings start = warnings start.
Proof.
  apply (strict_success_is_shared FAILSAFE sizes).
  - repeat constructor. discriminate.
  - reflexivity.
Defined.

End Examples.
